(** * script.js: scroll navigation, audio and video control, media sizing
      and the shooting-star canvas, embedded as state-passing functions.

    Every handler of script.js is a function from the state its closure
    captures to the state after the handler has returned.  DOM elements
    are handles (natural numbers) and optional elements ([getElementById]
    returning [null]) are [option]s.  A call of [play()] leaves a pending
    promise; how it settles is decided by the browser and is an input of
    the model, and the reactions the script attached run when it
    settles.  Numbers are IEEE 754 doubles ([spec_float] at precision
    53): every sum, product and quotient is rounded as the engine rounds
    it, and the facts about rounding that the properties need are proved
    from the definitions of [SpecFloat]. *)

From Stdlib Require Import ZArith QArith String Bool.
From Stdlib Require Import Floats.SpecFloat.
From stdpp Require Import base option list gmap.

Local Open Scope Z_scope.

(** ** Common vocabulary *)

(** A DOM element handle; [===] and [!==] on elements are equality of
    handles. *)
Definition element := nat.

(** Outcome of a JavaScript call: a value, or a thrown exception. *)
Inductive result (A : Type) : Type :=
| Ok (a : A)
| Throw (err : string).
Arguments Ok {A} a.
Arguments Throw {A} err.

(** Sequencing: a thrown exception skips the rest of the handler. *)
#[global] Instance result_bind : MBind result := fun A B k r =>
  match r with
  | Ok a => k a
  | Throw e => Throw e
  end.

(** How the promise returned by [HTMLMediaElement.play()] settles. *)
Inductive outcome := Fulfilled | Rejected.

(** [arr[i]] for a JavaScript number [i] holding an integer: the element
    at position [i], [undefined] ([None]) outside the array. *)
Definition at_index {A} (arr : list A) (i : Z) : option A :=
  if i <? 0 then None else arr !! Z.to_nat i.

(** [arr.length] as a JavaScript number. *)
Definition len {A} (arr : list A) : Z := Z.of_nat (length arr).

(** ** Scroll navigation (script.js, lines 25-61) *)

Module Nav.

(** What the handlers close over: the section list, the two optional
    buttons. *)
Record page := {
  sections : list element;
  nextBtn : option element;
  prevBtn : option element
}.

(** A call of [scrollIntoView]: the element and the [behavior] option. *)
Record scroll := {
  to : element;
  behavior : string
}.

(** [currentIndex], the scrolls requested so far (the browser animates a
    smooth scroll after the handler has returned), whether the
    IntersectionObserver [obs] was created, and the console. *)
Record state := {
  currentIndex : Z;
  scrollRequests : list scroll;
  obs : bool;
  console : list string
}.

Definition no_sections_warning : string := "No .section elements found.".

(** Lines 26-45: [currentIndex = 0], the observer when there are
    sections, the warning when there are none. *)
Definition init (p : page) : state :=
  if len (sections p) =? 0
  then {| currentIndex := 0; scrollRequests := []; obs := false;
          console := [no_sections_warning] |}
  else {| currentIndex := 0; scrollRequests := []; obs := true;
          console := [] |}.

(** Lines 47-53.  [sections[index].scrollIntoView] throws a TypeError
    when [sections[index]] is [undefined]. *)
Definition goTo (p : page) (index : Z) (st : state) : result state :=
  if len (sections p) =? 0 then Ok st
  else
    let index := if index <? 0 then 0 else index in
    let index := if index >=? len (sections p)
                 then len (sections p) - 1 else index in
    match at_index (sections p) index with
    | None => Throw "TypeError"
    | Some target =>
        Ok {| currentIndex := index;
              scrollRequests :=
                scrollRequests st
                ++ [{| to := target; behavior := "smooth" |}];
              obs := obs st;
              console := console st |}
    end.

(** [sections.indexOf(target)]: first position, or -1. *)
Fixpoint indexOf (arr : list element) (target : element) : Z :=
  match arr with
  | [] => -1
  | e :: rest =>
      if Nat.eqb e target then 0
      else let i := indexOf rest target in
           if i <? 0 then -1 else i + 1
  end.

(** An IntersectionObserverEntry of the section observer. *)
Record entry := { target : element; isIntersecting : bool }.

(** Lines 31-38: the observer callback. *)
Definition observe_entry (p : page) (st : state) (e : entry) : state :=
  if isIntersecting e then
    let idx := indexOf (sections p) (target e) in
    if idx >=? 0
    then {| currentIndex := idx; scrollRequests := scrollRequests st;
            obs := obs st; console := console st |}
    else st
  else st.

Definition observer_callback (p : page) (entries : list entry)
    (st : state) : state :=
  foldl (observe_entry p) st entries.

(** Lines 58-61: the keydown handler, two [if]s in sequence. *)
Definition keydown (p : page) (key : string) (st : state) : result state :=
  st1 ← (if String.eqb key "ArrowDown" || String.eqb key "PageDown"
         then goTo p (currentIndex st + 1) st else Ok st);
  if String.eqb key "ArrowUp" || String.eqb key "PageUp"
  then goTo p (currentIndex st1 - 1) st1 else Ok st1.

(** The events the navigator listens to. *)
Inductive event :=
| NextClick
| PrevClick
| KeyDown (key : string)
| Intersect (entries : list entry).

(** Lines 55-56 register the click handlers only on buttons that exist;
    the observer only calls back when it was created. *)
Definition dispatch (p : page) (ev : event) (st : state) : result state :=
  match ev with
  | NextClick =>
      match nextBtn p with
      | Some _ => goTo p (currentIndex st + 1) st
      | None => Ok st
      end
  | PrevClick =>
      match prevBtn p with
      | Some _ => goTo p (currentIndex st - 1) st
      | None => Ok st
      end
  | KeyDown key => keydown p key st
  | Intersect entries =>
      if obs st then Ok (observer_callback p entries st) else Ok st
  end.

(** A sequence of events; an uncaught exception ends the run. *)
Fixpoint run (p : page) (evs : list event) (st : state) : result state :=
  match evs with
  | [] => Ok st
  | ev :: rest => st1 ← dispatch p ev st; run p rest st1
  end.

End Nav.

(** ** Background audio (script.js, lines 63-126) *)

Module Audio.

(** JavaScript numbers are IEEE 754 doubles: [spec_float] has the
    signed zeros, the infinities, NaN and the finite values. *)
Definition number := spec_float.

Definition zero : number := S754_zero false.
Definition one : number := S754_finite false 4503599627370496 (-52).
Definition half : number := S754_finite false 4503599627370496 (-53).

(** [Number.isNaN]. *)
Definition Number_isNaN (v : number) : bool :=
  match v with
  | S754_nan => true
  | _ => false
  end.

Definition is_negative_zero (v : number) : bool :=
  match v with
  | S754_zero true => true
  | _ => false
  end.

Definition is_positive_zero (v : number) : bool :=
  match v with
  | S754_zero false => true
  | _ => false
  end.

(** [Math.max(a, b)]: NaN if either is NaN; otherwise [b] replaces [a]
    when it is greater, or when it is +0 and [a] is -0. *)
Definition Math_max (a b : number) : number :=
  if Number_isNaN a || Number_isNaN b then S754_nan
  else if SFltb a b then b
  else if is_negative_zero a && is_positive_zero b then b
  else a.

(** [Math.min(a, b)]: NaN if either is NaN; otherwise [b] replaces [a]
    when it is smaller, or when it is -0 and [a] is +0. *)
Definition Math_min (a b : number) : number :=
  if Number_isNaN a || Number_isNaN b then S754_nan
  else if SFltb b a then b
  else if is_positive_zero a && is_negative_zero b then b
  else a.

(** Where a call to [audio.play()] was made: each site attaches its own
    reactions to the promise. *)
Inductive site := Autoplay | PlayButton | Toggle.

Inductive call :=
| PlayCall (from : site)
| PauseCall.

#[global] Instance site_eq_dec : EqDecision site.
Proof. solve_decision. Defined.

#[global] Instance call_eq_dec : EqDecision call.
Proof. solve_decision. Defined.

(** The audio element, as far as the script reads or writes it. *)
Record audio_element := {
  volume : number
}.

(** The elements found at load ([None] for a missing one) with the
    properties the script writes, the flag [musicPlaying], the two
    once-listeners of the document, the calls made on the audio element
    and the promises of [play()] that have not settled yet. *)
Record state := {
  audio : option audio_element;
  audioPlayBtn : option string;     (* audioPlayBtn.style.display *)
  musicToggle : option string;      (* musicToggle.textContent *)
  volumeSlider : option string;     (* volumeSlider.value *)
  musicPlaying : bool;
  clickOnce : bool;
  touchOnce : bool;
  calls : list call;
  pending : list site
}.

Definition set_audio (a : option audio_element) (st : state) : state :=
  {| audio := a; audioPlayBtn := audioPlayBtn st;
     musicToggle := musicToggle st; volumeSlider := volumeSlider st;
     musicPlaying := musicPlaying st; clickOnce := clickOnce st;
     touchOnce := touchOnce st; calls := calls st;
     pending := pending st |}.

Definition set_audioPlayBtn (b : option string) (st : state) : state :=
  {| audio := audio st; audioPlayBtn := b;
     musicToggle := musicToggle st; volumeSlider := volumeSlider st;
     musicPlaying := musicPlaying st; clickOnce := clickOnce st;
     touchOnce := touchOnce st; calls := calls st;
     pending := pending st |}.

Definition set_musicToggle (t : option string) (st : state) : state :=
  {| audio := audio st; audioPlayBtn := audioPlayBtn st;
     musicToggle := t; volumeSlider := volumeSlider st;
     musicPlaying := musicPlaying st; clickOnce := clickOnce st;
     touchOnce := touchOnce st; calls := calls st;
     pending := pending st |}.

Definition set_musicPlaying (b : bool) (st : state) : state :=
  {| audio := audio st; audioPlayBtn := audioPlayBtn st;
     musicToggle := musicToggle st; volumeSlider := volumeSlider st;
     musicPlaying := b; clickOnce := clickOnce st;
     touchOnce := touchOnce st; calls := calls st;
     pending := pending st |}.

Definition set_once (click touch : bool) (st : state) : state :=
  {| audio := audio st; audioPlayBtn := audioPlayBtn st;
     musicToggle := musicToggle st; volumeSlider := volumeSlider st;
     musicPlaying := musicPlaying st; clickOnce := click;
     touchOnce := touch; calls := calls st;
     pending := pending st |}.

(** [audio.play()] from [from]: the call is made and its promise is
    pending; [audio.pause()]: the call is made. *)
Definition audio_play (from : site) (st : state) : state :=
  {| audio := audio st; audioPlayBtn := audioPlayBtn st;
     musicToggle := musicToggle st; volumeSlider := volumeSlider st;
     musicPlaying := musicPlaying st; clickOnce := clickOnce st;
     touchOnce := touchOnce st; calls := calls st ++ [PlayCall from];
     pending := pending st ++ [from] |}.

Definition audio_pause (st : state) : state :=
  {| audio := audio st; audioPlayBtn := audioPlayBtn st;
     musicToggle := musicToggle st; volumeSlider := volumeSlider st;
     musicPlaying := musicPlaying st; clickOnce := clickOnce st;
     touchOnce := touchOnce st; calls := calls st ++ [PauseCall];
     pending := pending st |}.

(** The [volume] setter of a media element accepts 0.0 to 1.0 inclusive
    and throws an IndexSizeError otherwise. *)
Definition set_volume (v : number) (st : state) : result state :=
  if SFleb zero v && SFleb v one
  then Ok (set_audio (Some {| volume := v |}) st)
  else Throw "IndexSizeError".

(** Lines 64-65, 95-96 and 113-119: at load the volume is 0.5, the flag
    is false, both once-listeners are registered, and the slider shows
    [String(0.5)]. *)
Definition init (has_audio : bool) (playBtn toggle slider : option string)
    : state :=
  {| audio := if has_audio then Some {| volume := half |} else None;
     audioPlayBtn := playBtn;
     musicToggle := toggle;
     volumeSlider :=
       if has_audio then (fun _ => "0.5"%string) <$> slider else slider;
     musicPlaying := false;
     clickOnce := true;
     touchOnce := true;
     calls := [];
     pending := [] |}.

(** Lines 67-79, up to the call; the reactions are in [settle]. *)
Definition tryAutoplayAudio (st : state) : state :=
  match audio st with
  | None => st
  | Some _ => audio_play Autoplay st
  end.

(** Lines 82-92, up to the call. *)
Definition audioPlayBtn_click (st : state) : state :=
  match audio st with
  | None => st
  | Some _ => audio_play PlayButton st
  end.

(** Lines 99-109. *)
Definition musicToggle_click (st : state) : state :=
  match audio st with
  | None => st
  | Some _ =>
      let st :=
        if musicPlaying st
        then set_musicToggle (Some "🎵"%string) (audio_pause st)
        else set_musicToggle (Some "⏸"%string) (audio_play Toggle st) in
      set_musicPlaying (negb (musicPlaying st)) st
  end.

(** The reactions attached at each site (lines 71-78, 86-91, 105). *)
Definition react (from : site) (o : outcome) (st : state) : state :=
  match from, o with
  | Autoplay, Fulfilled =>
      let st := set_musicPlaying true st in
      let st := set_audioPlayBtn
                  ((fun _ => "none"%string) <$> audioPlayBtn st) st in
      set_musicToggle ((fun _ => "⏸"%string) <$> musicToggle st) st
  | Autoplay, Rejected =>
      set_audioPlayBtn
        ((fun _ => "inline-block"%string) <$> audioPlayBtn st) st
  | PlayButton, Fulfilled =>
      let st := set_musicPlaying true st in
      let st := set_audioPlayBtn (Some "none"%string) st in
      set_musicToggle ((fun _ => "⏸"%string) <$> musicToggle st) st
  | PlayButton, Rejected => st
  | Toggle, _ => st
  end.

(** The oldest pending promise settles with outcome [o]. *)
Definition settle (o : outcome) (st : state) : state :=
  match pending st with
  | [] => st
  | from :: rest =>
      react from o
        {| audio := audio st; audioPlayBtn := audioPlayBtn st;
           musicToggle := musicToggle st; volumeSlider := volumeSlider st;
           musicPlaying := musicPlaying st; clickOnce := clickOnce st;
           touchOnce := touchOnce st; calls := calls st;
           pending := rest |}
  end.

Section Volume.

(** The built-in [parseFloat]. *)
Variable parseFloat : string -> number.

(** Lines 121-125. *)
Definition volumeSlider_input (value : string) (st : state)
    : result state :=
  match audio st with
  | None => Ok st
  | Some _ =>
      let val := parseFloat value in
      if negb (Number_isNaN val)
      then set_volume (Math_min one (Math_max zero val)) st
      else Ok st
  end.

End Volume.

(** What the user can click. *)
Inductive target := OnMusicToggle | OnAudioPlayBtn | Elsewhere.

Inductive event :=
| Click (t : target)
| TouchStart
| Settle (o : outcome).

(** Lines 95-96: both listeners are registered on the document with
    [once] and [capture], so each runs before the listener of the
    clicked element and is removed when it is first invoked. *)
Definition document_click (st : state) : state :=
  if clickOnce st
  then tryAutoplayAudio (set_once false (touchOnce st) st)
  else st.

Definition document_touchstart (st : state) : state :=
  if touchOnce st
  then tryAutoplayAudio (set_once (clickOnce st) false st)
  else st.

(** Lines 81 and 98: a button has its click listener only if it
    exists. *)
Definition dispatch (ev : event) (st : state) : state :=
  match ev with
  | Click t =>
      let st := document_click st in
      match t with
      | OnMusicToggle =>
          match musicToggle st with
          | Some _ => musicToggle_click st
          | None => st
          end
      | OnAudioPlayBtn =>
          match audioPlayBtn st with
          | Some _ => audioPlayBtn_click st
          | None => st
          end
      | Elsewhere => st
      end
  | TouchStart => document_touchstart st
  | Settle o => settle o st
  end.

Definition run (evs : list event) (st : state) : state :=
  foldl (fun st ev => dispatch ev st) st evs.

(** The calls of [tryAutoplayAudio] that reached [audio.play()]. *)
Definition autoplayAttempts (st : state) : nat :=
  length (filter (fun c => c = PlayCall Autoplay) (calls st)).

End Audio.

(** ** Videos in view (script.js, lines 128-181) *)

Module Video.

(** A tracked video is its position in [videos]; it has the [paused]
    attribute and the overlay its parent holds, if any (two videos under
    one parent find the same overlay). *)
Record video := {
  paused : bool;
  overlay : option element
}.

Inductive call :=
| PlayCall (v : nat)
| PauseCall (v : nat).

(** The reactions attached to a promise of [play()]: lines 141-146 for
    the observer, 165-166 for a click on an overlay, 171 for a click on
    the video. *)
Inductive reaction :=
| ObserverReaction (overlay : option element)
| OverlayReaction (overlay : element)
| NoReaction.

(** The videos, [style.display] of every overlay, the calls made on the
    videos, and the promises of [play()] that have not settled yet with
    the way each is going to settle. *)
Record state := {
  videos : list video;
  overlays : gmap element string;
  calls : list call;
  pending : list (outcome * reaction)
}.

Definition set_paused (b : bool) (vid : video) : video :=
  {| paused := b; overlay := overlay vid |}.

(** [v.play()]: the call is made and its promise is pending.  The browser
    decides at the call whether the video may play: a call that is going
    to be fulfilled clears [paused], one that is going to be rejected
    leaves the element as it is. *)
Definition media_play (o : outcome) (v : nat) (r : reaction) (st : state)
    : state :=
  {| videos := match o with
               | Fulfilled => alter (set_paused false) v (videos st)
               | Rejected => videos st
               end;
     overlays := overlays st;
     calls := calls st ++ [PlayCall v];
     pending := pending st ++ [(o, r)] |}.

(** [v.pause()]. *)
Definition media_pause (v : nat) (st : state) : state :=
  {| videos := alter (set_paused true) v (videos st);
     overlays := overlays st;
     calls := calls st ++ [PauseCall v];
     pending := pending st |}.

Definition set_display (ov : element) (display : string) (st : state)
    : state :=
  {| videos := videos st;
     overlays := <[ov := display]> (overlays st);
     calls := calls st;
     pending := pending st |}.

(** An IntersectionObserverEntry of the video observer. *)
Record entry := {
  target : nat;
  isIntersecting : bool;
  intersectionRatio : Q
}.

(** Lines 133-150 for one entry, up to the call of [play()]; [o] is how
    that call is going to settle. *)
Definition videoIO_entry (st : state) (eo : entry * outcome) : state :=
  let (e, o) := eo in
  match videos st !! target e with
  | None => st
  | Some v =>
      if isIntersecting e && negb (Qle_bool (intersectionRatio e) (1 # 2))
      then media_play o (target e) (ObserverReaction (overlay v)) st
      else if negb (paused v) then media_pause (target e) st else st
  end.

(** Lines 132-151: the observer callback. *)
Definition videoIO (entries : list (entry * outcome)) (st : state) : state :=
  foldl videoIO_entry st entries.

(** Lines 163-167: the click listener video [v] adds to the overlay of
    its parent, if there is one. *)
Definition overlay_click (o : outcome) (v : nat) (st : state) : state :=
  match videos st !! v with
  | Some {| overlay := Some ov |} => media_play o v (OverlayReaction ov) st
  | _ => st
  end.

(** Lines 170-173: a click on video [v]. *)
Definition video_click (o : outcome) (v : nat) (st : state) : state :=
  match videos st !! v with
  | None => st
  | Some vid =>
      if paused vid then media_play o v NoReaction st else media_pause v st
  end.

(** Lines 176-178: what the [play] handler of [v] does with [other]. *)
Definition pause_other (v : nat) (st : state) (other : nat) : state :=
  match videos st !! other with
  | None => st
  | Some o =>
      if bool_decide (other <> v) && negb (paused o)
      then media_pause other st
      else st
  end.

(** Lines 175-179: the [play] handler of video [v]. *)
Definition on_play (v : nat) (st : state) : state :=
  foldl (pause_other v) st (seq 0 (length (videos st))).

(** The reactions of a promise, run when it settles. *)
Definition react (settled : outcome * reaction) (st : state) : state :=
  match settled with
  | (Fulfilled, ObserverReaction (Some ov)) => set_display ov "none" st
  | (Rejected, ObserverReaction (Some ov)) => set_display ov "block" st
  | (Fulfilled, OverlayReaction ov) => set_display ov "none" st
  | _ => st
  end.

(** The oldest pending promise settles. *)
Definition settle (st : state) : state :=
  match pending st with
  | [] => st
  | settled :: rest =>
      react settled
        {| videos := videos st; overlays := overlays st;
           calls := calls st; pending := rest |}
  end.

(** The videos that are not paused. *)
Definition playing (st : state) : list video :=
  filter (fun vid => paused vid = false) (videos st).

End Video.

(** ** Media sizing (script.js, lines 186-202) *)

Module Media.

(** An element of the document: its classes, and the two style
    properties the script writes. *)
Record node := {
  classList : list string;
  maxWidth : string;
  maxHeight : string
}.

(** The selector [".media-img, .media-video"]. *)
Definition matches (n : node) : bool :=
  bool_decide ("media-img"%string ∈ classList n)
  || bool_decide ("media-video"%string ∈ classList n).

Definition set_max (w h : string) (media : node) : node :=
  {| classList := classList media; maxWidth := w; maxHeight := h |}.

(** Lines 186-202, on the document [doc] with [window.innerWidth] equal
    to [screenWidth]. *)
Definition resizeMedia (screenWidth : Z) (doc : list node) : list node :=
  (fun media =>
     if matches media then
       if screenWidth <? 768 then set_max "85%" "50vh" media
       else if screenWidth <? 1200 then set_max "75%" "55vh" media
       else set_max "95%" "75vh" media
     else media) <$> doc.

End Media.

(** ** Numbers *)

Module Double.

(** JavaScript numbers are IEEE 754 doubles: 53 bits of precision, and
    [+], [-], [*] and [/] round their exact result to the nearest
    double, ties to even. *)
Definition number := spec_float.

Definition add (a b : number) : number := SFadd 53 1024 a b.
Definition sub (a b : number) : number := SFsub 53 1024 a b.
Definition mul (a b : number) : number := SFmul 53 1024 a b.
Definition div (a b : number) : number := SFdiv 53 1024 a b.

(** Unary minus. *)
Definition neg (a : number) : number := SFopp a.

(** [a < b] and [a <= b]; false when either side is NaN. *)
Definition lt (a b : number) : bool := SFltb a b.
Definition le (a b : number) : bool := SFleb a b.

(** The number of an integer: an integer literal, or an integer-valued
    property such as [canvas.width].  It is exact below 2^53. *)
Definition of_int (n : Z) : number := binary_normalize 53 1024 n 0 false.

(** The decimal literal [n / d], such as 0.3 for [literal 3 10]: the
    double nearest to the quotient, which is what the division of the
    two integers rounds to. *)
Definition literal (n d : Z) : number := div (of_int n) (of_int d).

End Double.

(** ** Shooting stars (script.js, lines 304-317) *)

Module Star.
Import Double.

(** [canvas.width] and [canvas.height] are integers. *)
Record canvas := {
  width : Z;
  height : Z
}.

(** The fields of a streak are numbers. *)
Record star := {
  x : number;
  y : number;
  length : number;
  speed : number;
  opacity : number
}.

(** [Math.random] is a sequence of draws and the position of the next
    one. *)
Record rng := {
  draws : nat -> number;
  next : nat
}.

(** A computation that draws random numbers. *)
Definition M (A : Type) : Type := rng -> A * rng.

Definition ret {A} (a : A) : M A := fun g => (a, g).

Definition bind {A B} (m : M A) (k : A -> M B) : M B :=
  fun g => let (a, g') := m g in k a g'.

Notation "'let*' x ':=' m 'in' k" := (bind m (fun x => k))
  (at level 10, x name, m at level 99, k at level 200, only parsing).

Definition Math_random : M number :=
  fun g => (draws g (next g), {| draws := draws g; next := S (next g) |}).

(** Lines 306-312. *)
Definition reset (c : canvas) (s : star) : M star :=
  let* r1 := Math_random in
  let* r2 := Math_random in
  let* r3 := Math_random in
  let* r4 := Math_random in
  let* r5 := Math_random in
  ret {| x := mul r1 (of_int (width c));
         y := div (mul r2 (of_int (height c))) (of_int 2);
         length := add (mul r3 (of_int 100)) (of_int 50);
         speed := add (mul r4 (of_int 6)) (of_int 4);
         opacity := add (mul r5 (literal 6 10)) (literal 4 10) |}.

(** [a > b]. *)
Definition gt (a b : number) : bool := lt b a.

(** Lines 313-317. *)
Definition update (c : canvas) (s : star) : M star :=
  let s := {| x := add (x s) (speed s); y := y s; length := length s;
              speed := speed s; opacity := opacity s |} in
  let s := {| x := x s; y := add (y s) (mul (speed s) (literal 3 10));
              length := length s;
              speed := speed s; opacity := opacity s |} in
  if gt (x s) (of_int (width c)) || gt (y s) (of_int (height c))
  then reset c s
  else ret s.

End Star.

(** ** The audio controls as a whole (script.js, lines 81-126) *)

Module AudioPage.
Import Audio.

(** What the user can do to the audio controls: the clicks and touches
    of [Audio.event], and an [input] on the volume slider, which has the
    value the user gave it when the listener runs. *)
Inductive event :=
| Ui (ev : Audio.event)
| Input (value : string).

(** The user moves the slider: the browser writes its [value]. *)
Definition slide (value : string) (st : state) : state :=
  {| audio := audio st; audioPlayBtn := audioPlayBtn st;
     musicToggle := musicToggle st; volumeSlider := Some value;
     musicPlaying := musicPlaying st; clickOnce := clickOnce st;
     touchOnce := touchOnce st; calls := calls st;
     pending := pending st |}.

Section Dispatch.

Variable parseFloat : string -> number.

(** Line 112: the slider has its [input] listener only if it exists;
    the listener reads [e.target.value], the value of the slider. *)
Definition dispatch (ev : event) (st : state) : result state :=
  match ev with
  | Ui ev => Ok (Audio.dispatch ev st)
  | Input value =>
      match volumeSlider st with
      | Some _ => volumeSlider_input parseFloat value (slide value st)
      | None => Ok st
      end
  end.

(** A sequence of events; an uncaught exception ends the run. *)
Fixpoint run (evs : list event) (st : state) : result state :=
  match evs with
  | [] => Ok st
  | ev :: rest => st1 ← dispatch ev st; run rest st1
  end.

End Dispatch.

End AudioPage.

(** ** The video listeners as a whole (script.js, lines 131-180) *)

Module VideoPage.
Import Video.

(** The positions of the videos whose parent holds the overlay [ov], in
    the order of [videos]. *)
Definition under (ov : element) (st : state) : list nat :=
  filter (fun k => overlay <$> videos st !! k = Some (Some ov))
    (seq 0 (length (videos st))).

(** Lines 155-168: every video whose parent holds an overlay adds its
    own click listener to it, so a click on the overlay [ov] runs the
    listener of each video under that parent, in the order they were
    added; [o k] is how the call of [play()] on video [k] is going to
    settle. *)
Definition overlay_clicked (o : nat -> outcome) (ov : element) (st : state)
    : state :=
  foldl (fun st k => overlay_click (o k) k st) st (under ov st).

(** A click on video [v] as the page sees it: the listener of lines
    170-173 and, when it has started the video (the video was paused and
    the browser lets it play), the [play] event that follows and its
    handler. *)
Definition clicked (o : outcome) (v : nat) (st : state) : state :=
  match videos st !! v, o with
  | Some {| paused := true |}, Fulfilled => on_play v (video_click o v st)
  | _, _ => video_click o v st
  end.

(** The observer callback, a click on an overlay, the listeners of lines
    170-179 on a tracked video (a position outside [videos] has none),
    and the settling of the oldest pending promise. *)
Inductive event :=
| Notify (entries : list (entry * outcome))
| OverlayClick (ov : element) (o : nat -> outcome)
| VideoClick (v : nat) (o : outcome)
| PlayEvent (v : nat)
| Settle.

Definition dispatch (st : state) (ev : event) : state :=
  match ev with
  | Notify entries => videoIO entries st
  | OverlayClick ov o => overlay_clicked o ov st
  | VideoClick v o => video_click o v st
  | PlayEvent v =>
      match videos st !! v with
      | Some _ => on_play v st
      | None => st
      end
  | Settle => settle st
  end.

Definition run (evs : list event) (st : state) : state :=
  foldl dispatch st evs.

End VideoPage.

(** ** The shooting-star loop (script.js, lines 281-339) *)

Module ShootingStars.
Import Double Star.

(** Lines 297-300. *)
Definition resize (innerWidth innerHeight : Z) : canvas :=
  {| width := innerWidth; height := innerHeight |}.

(** A streak before its constructor has run; [reset] overwrites every
    field. *)
Definition blank : star :=
  {| x := of_int 0; y := of_int 0; length := of_int 0; speed := of_int 0;
     opacity := of_int 0 |}.

(** Line 305. *)
Definition new_Star (c : canvas) : M star := reset c blank.

(** What [draw] strokes (lines 318-328): a line of width 2 from the
    streak to the end of its trail, under a gradient along the same
    segment from white at the streak's opacity to transparent. *)
Record stroke := {
  from_x : number;
  from_y : number;
  to_x : number;
  to_y : number;
  alpha : number;
  lineWidth : number
}.

Definition draw (s : star) : stroke :=
  {| from_x := x s;
     from_y := y s;
     to_x := sub (x s) (length s);
     to_y := sub (y s) (mul (length s) (literal 5 10));
     alpha := opacity s;
     lineWidth := of_int 2 |}.

(** Line 331 for a pool of [n] streaks. *)
Fixpoint make_stars (n : nat) (c : canvas) : M (list star) :=
  match n with
  | O => ret []
  | S n =>
      let* s := new_Star c in
      let* rest := make_stars n c in
      ret (s :: rest)
  end.

Definition stars (c : canvas) : M (list star) := make_stars 25 c.

(** Line 335: every streak is updated, then drawn, in pool order. *)
Fixpoint update_and_draw (c : canvas) (pool : list star)
    : M (list star * list stroke) :=
  match pool with
  | [] => ret ([], [])
  | s :: rest =>
      let* s' := update c s in
      let* r := update_and_draw c rest in
      ret (s' :: r.1, draw s' :: r.2)
  end.

(** Lines 333-337: one frame, on the canvas [clearRect] has emptied. *)
Definition animate (c : canvas) (pool : list star)
    : M (list star * list stroke) :=
  update_and_draw c pool.

(** [n] frames in a row, the window not being resized meanwhile. *)
Fixpoint frames (n : nat) (c : canvas) (pool : list star) : M (list star) :=
  match n with
  | O => ret pool
  | S n =>
      let* r := animate c pool in
      frames n c r.1
  end.

(** [n] updates of one streak. *)
Fixpoint updates (n : nat) (c : canvas) (s : star) : M star :=
  match n with
  | O => ret s
  | S n =>
      let* s' := update c s in
      updates n c s'
  end.

End ShootingStars.

(** ** Floating stars and hearts (script.js, lines 216-277) *)

Module Floating.
Import Double Star.

(** A CSS value the script writes: a number with its unit, or a
    keyword. *)
Inductive css :=
| Vw (n : number)
| Vh (n : number)
| Px (n : number)
| Keyword (s : string).

(** The animation [animate] starts (lines 230-238): a translation from
    (0, 0) to ([dx], [dy]) pixels while the opacity goes from 0.95 to
    0.1, with its timing options ([iterations] is [None] for
    [Infinity]). *)
Record animation := {
  dx : number;
  dy : number;
  opacity_from : number;
  opacity_to : number;
  duration : number;
  iterations : option nat;
  delay : number;
  easing : string
}.

(** A created element: its class, its style in the order the properties
    are assigned, and its animation. *)
Record particle := {
  className : string;
  style : list (string * css);
  motion : animation
}.

(** Lines 229-239. *)
Definition animate (dur dx dy : number) : M animation :=
  let* r := Math_random in
  ret {| dx := dx; dy := dy;
         opacity_from := literal 95 100; opacity_to := literal 1 10;
         duration := dur; iterations := None;
         delay := mul r (of_int 2000); easing := "ease-in-out" |}.

(** Lines 243-256: one star. *)
Definition star_particle : M particle :=
  let* left := Math_random in
  let* top := Math_random in
  let* w := Math_random in
  let* h := Math_random in
  let* r5 := Math_random in
  let* r6 := Math_random in
  let* r7 := Math_random in
  let* a := animate (add (of_int 9000) (mul r5 (of_int 8000)))
              (mul (sub r6 (literal 5 10)) (of_int 100))
              (sub (neg (of_int 200)) (mul r7 (of_int 400))) in
  ret {| className := "star";
         style := [ ("position", Keyword "fixed");
                    ("left", Vw (mul left (of_int 100)));
                    ("top", Vh (mul top (of_int 100)));
                    ("width", Px (add (of_int 2) (mul w (of_int 4))));
                    ("height", Px (add (of_int 2) (mul h (of_int 4))));
                    ("background", Keyword "gold");
                    ("borderRadius", Keyword "50%");
                    ("boxShadow", Keyword "0 0 6px gold") ]%string;
         motion := a |}.

(** Lines 261-275: one heart. *)
Definition heart_particle : M particle :=
  let* left := Math_random in
  let* top := Math_random in
  let* w := Math_random in
  let* h := Math_random in
  let* r5 := Math_random in
  let* r6 := Math_random in
  let* r7 := Math_random in
  let* a := animate (add (of_int 11000) (mul r5 (of_int 9000)))
              (mul (sub r6 (literal 5 10)) (of_int 100))
              (sub (neg (of_int 300)) (mul r7 (of_int 400))) in
  ret {| className := "heart";
         style := [ ("position", Keyword "fixed");
                    ("left", Vw (mul left (of_int 100)));
                    ("top", Vh (mul top (of_int 100)));
                    ("width", Px (add (of_int 12) (mul w (of_int 10))));
                    ("height", Px (add (of_int 12) (mul h (of_int 10))));
                    ("background", Keyword "rgba(255, 105, 180, 0.8)");
                    ("transform", Keyword "rotate(45deg)");
                    ("borderRadius", Keyword "50%");
                    ("boxShadow",
                     Keyword "0 0 8px rgba(255, 105, 180, 0.6)") ]%string;
         motion := a |}.

(** A [for] loop of [n] rounds appending one particle each. *)
Fixpoint spawn (n : nat) (make : M particle) : M (list particle) :=
  match n with
  | O => ret []
  | S n =>
      let* p := make in
      let* rest := spawn n make in
      ret (p :: rest)
  end.

(** Lines 216-277: the children of the layer, in the order they are
    appended; a missing argument takes its default. *)
Definition spawnFloating (stars hearts : option nat) : M (list particle) :=
  let* ss := spawn (default 50%nat stars) star_particle in
  let* hs := spawn (default 20%nat hearts) heart_particle in
  ret (ss ++ hs).

(** The value of a style property, [None] if the script did not set
    it. *)
Fixpoint lookup_style (property : string) (l : list (string * css))
    : option css :=
  match l with
  | [] => None
  | (k, v) :: rest =>
      if String.eqb k property then Some v else lookup_style property rest
  end.

Definition style_of (property : string) (p : particle) : option css :=
  lookup_style property (style p).

End Floating.

(** * Vocabulary of the properties *)

(** [index] clamped to the valid positions of the section list of [p]. *)
Definition clamp_index (p : Nav.page) (index : Z) : Z :=
  Z.min (Z.max index 0) (len (Nav.sections p) - 1).

(** [st'] is [st] after a navigation to [index]: the clamped section
    exists, a smooth scroll to it has been requested, and [currentIndex]
    already holds the clamped position. *)
Definition navigated_to (p : Nav.page) (index : Z) (st st' : Nav.state)
    : Prop :=
  exists target,
    at_index (Nav.sections p) (clamp_index p index) = Some target /\
    st' = {| Nav.currentIndex := clamp_index p index;
             Nav.scrollRequests :=
               Nav.scrollRequests st
               ++ [{| Nav.to := target; Nav.behavior := "smooth" |}];
             Nav.obs := Nav.obs st;
             Nav.console := Nav.console st |}.

(** [clamp(v, 0, 1)] as the slider handler computes it. *)
Definition clamp01 (v : Audio.number) : Audio.number :=
  Audio.Math_min Audio.one (Audio.Math_max Audio.zero v).

Definition is_click (ev : Audio.event) : bool :=
  match ev with
  | Audio.Click _ => true
  | _ => false
  end.

Definition is_touch (ev : Audio.event) : bool :=
  match ev with
  | Audio.TouchStart => true
  | _ => false
  end.

(** An attempt of [tryAutoplayAudio], counted as 0 or 1. *)
Definition attempt (fires : bool) : nat := if fires then 1%nat else 0%nat.

(** [other] is a video that the [play] handler of [v] finds playing in
    [st]. *)
Definition playing_other (v : nat) (st : Video.state) (other : nat) : Prop :=
  other <> v /\ Video.paused <$> Video.videos st !! other = Some false.

#[global] Instance playing_other_dec v st other :
  Decision (playing_other v st other).
Proof. unfold playing_other. apply _. Defined.

(** The streak after the two additions of [update]. *)
Definition advanced (s : Star.star) : Star.star :=
  {| Star.x := Double.add (Star.x s) (Star.speed s);
     Star.y := Double.add (Star.y s)
                 (Double.mul (Star.speed s) (Double.literal 3 10));
     Star.length := Star.length s;
     Star.speed := Star.speed s;
     Star.opacity := Star.opacity s |}.

(** The advanced position is past the right or the bottom edge. *)
Definition exceeds (c : Star.canvas) (s : Star.star) : bool :=
  Star.gt (Star.x (advanced s)) (Double.of_int (Star.width c))
  || Star.gt (Star.y (advanced s)) (Double.of_int (Star.height c)).

(** A double in [[0, 1)], as [Math.random] returns. *)
Definition unit_interval (d : Double.number) : Prop :=
  valid_binary 53 1024 d = true /\
  Double.le (Double.of_int 0) d = true /\
  Double.lt d (Double.of_int 1) = true.

(** The position is in the top half of the canvas, where [reset] puts
    it: [0 <= x < width] and [0 <= y < height / 2]. *)
Definition in_top_half (c : Star.canvas) (s : Star.star) : Prop :=
  Double.le (Double.of_int 0) (Star.x s) = true /\
  Double.lt (Star.x s) (Double.of_int (Star.width c)) = true /\
  Double.le (Double.of_int 0) (Star.y s) = true /\
  Double.lt (Star.y s)
    (Double.div (Double.of_int (Star.height c)) (Double.of_int 2)) = true.

(** ** Vocabulary of double arithmetic *)

(** A double that is zero or positive and finite, and its value times
    2^1074, an integer. *)
Definition nonneg (v : Double.number) : Prop :=
  match v with
  | S754_zero _ => True
  | S754_finite false m e => bounded 53 1024 m e = true
  | _ => False
  end.

Definition scaled (v : Double.number) : Z :=
  match v with
  | S754_finite false m e => Zpos m * 2 ^ (e + 1074)
  | _ => 0
  end.

(** The double of mantissa [m], at most 2^53, and exponent [e], of
    sign [sx]: a mantissa of 2^53 is renormalised, an exponent above 971
    overflows. *)
Definition round_pack (sx : bool) (m e : Z) : Double.number :=
  if m =? 0 then S754_zero sx
  else if m =? 2 ^ 53
       then if e + 1 <=? 971
            then S754_finite sx 4503599627370496 (e + 1)
            else S754_infinity sx
       else if e <=? 971
            then S754_finite sx (Z.to_pos m) e
            else S754_infinity sx.

(** [mrs] is [M] shifted right by [k] bits: the quotient, and in the
    round bit whether the remainder reaches half of 2^k. *)
Definition shifted (M k : Z) (mrs : shr_record) : Prop :=
  0 <= shr_m mrs /\
  2 ^ k * shr_m mrs <= M < 2 ^ k * (shr_m mrs + 1) /\
  (1 <= k ->
   if shr_r mrs then 2 ^ k * shr_m mrs + 2 ^ (k - 1) <= M
   else M < 2 ^ k * shr_m mrs + 2 ^ (k - 1)).

(** [lo <= v <= hi]. *)
Definition between (lo hi v : Double.number) : Prop :=
  Double.le lo v = true /\ Double.le v hi = true.

(** * Concrete pages *)

(** A page with three sections and both buttons. *)
Definition three_sections : Nav.page :=
  {| Nav.sections := [10; 11; 12]%nat;
     Nav.nextBtn := Some 1%nat;
     Nav.prevBtn := Some 2%nat |}.

(** A page with the buttons but no section. *)
Definition no_sections : Nav.page :=
  {| Nav.sections := [];
     Nav.nextBtn := Some 1%nat;
     Nav.prevBtn := Some 2%nat |}.

(** A few values of [parseFloat]: 0.25, 7, -3, and NaN for anything
    else. *)
Definition parseFloat_sample (value : string) : Audio.number :=
  if String.eqb value "0.25" then S754_finite false 4503599627370496 (-54)
  else if String.eqb value "7" then S754_finite false 7881299347898368 (-50)
  else if String.eqb value "-3" then S754_finite true 6755399441055744 (-51)
  else S754_nan.

(** A page with every audio control. *)
Definition with_audio : Audio.state :=
  Audio.init true (Some "inline-block"%string) (Some "🎵"%string)
    (Some "1"%string).

(** The same page without the audio element. *)
Definition without_audio : Audio.state :=
  Audio.init false (Some "inline-block"%string) (Some "🎵"%string)
    (Some "1"%string).

(** Three tracked videos: two playing, each with an overlay, and a paused
    one without. *)
Definition two_playing : Video.state :=
  {| Video.videos :=
       [ {| Video.paused := false; Video.overlay := Some 100%nat |};
         {| Video.paused := false; Video.overlay := Some 101%nat |};
         {| Video.paused := true; Video.overlay := None |} ];
     Video.overlays := {[ 100%nat := "none"%string; 101%nat := "none"%string ]};
     Video.calls := [];
     Video.pending := [] |}.

(** One paused video with its overlay hidden. *)
Definition one_paused : Video.state :=
  {| Video.videos :=
       [ {| Video.paused := true; Video.overlay := Some 100%nat |} ];
     Video.overlays := {[ 100%nat := "none"%string ]};
     Video.calls := [];
     Video.pending := [] |}.

Definition in_view : Video.entry :=
  {| Video.target := 0; Video.isIntersecting := true;
     Video.intersectionRatio := 3 # 4 |}.

Definition half_in_view : Video.entry :=
  {| Video.target := 0; Video.isIntersecting := true;
     Video.intersectionRatio := 1 # 2 |}.

(** An image, a paragraph and a video. *)
Definition small_document : list Media.node :=
  [ {| Media.classList := ["media-img"%string];
       Media.maxWidth := ""; Media.maxHeight := "" |};
    {| Media.classList := ["caption"%string];
       Media.maxWidth := ""; Media.maxHeight := "" |};
    {| Media.classList := ["media-video"%string; "wide"%string];
       Media.maxWidth := "10%"; Media.maxHeight := "10vh" |} ].

(** An 800 by 600 canvas, a streak about to leave it on the right, one in
    the middle of it, and a [Math.random] that always returns 0.5. *)
Definition canvas_800_600 : Star.canvas :=
  {| Star.width := 800; Star.height := 600 |}.

Definition leaving : Star.star :=
  {| Star.x := Double.of_int 795; Star.y := Double.of_int 100;
     Star.length := Double.of_int 60; Star.speed := Double.of_int 10;
     Star.opacity := Double.literal 5 10 |}.

Definition crossing : Star.star :=
  {| Star.x := Double.of_int 100; Star.y := Double.of_int 100;
     Star.length := Double.of_int 60; Star.speed := Double.of_int 10;
     Star.opacity := Double.literal 5 10 |}.

Definition always_half : Star.rng :=
  {| Star.draws := fun _ => Double.literal 5 10; Star.next := 0 |}.

(** * Further vocabulary *)

(** [currentIndex] is a valid position of the section list of [p], or 0
    when there is none. *)
Definition index_in_range (p : Nav.page) (st : Nav.state) : Prop :=
  0 <= Nav.currentIndex st <= Z.max 0 (len (Nav.sections p) - 1).

(** The entry makes the section observer move [currentIndex]. *)
Definition reports (p : Nav.page) (e : Nav.entry) : bool :=
  Nav.isIntersecting e && bool_decide (Nav.target e ∈ Nav.sections p).

(** The volume of the audio element, if there is one, is between 0 and
    1. *)
Definition volume_in_range (st : Audio.state) : Prop :=
  match Audio.audio st with
  | Some a =>
      SFleb Audio.zero (Audio.volume a) = true /\
      SFleb (Audio.volume a) Audio.one = true
  | None => True
  end.

(** The glyph the toggle shows for a value of [musicPlaying]. *)
Definition glyph (flag : bool) : string :=
  if flag then "⏸"%string else "🎵"%string.

(** The entry makes the video observer call [play()]. *)
Definition in_sight (e : Video.entry) : bool :=
  Video.isIntersecting e
  && negb (Qle_bool (Video.intersectionRatio e) (1 # 2)).

(** [st'] has the videos of [st], each with the overlay it had; only
    [paused] may differ. *)
Definition same_layout (st st' : Video.state) : Prop :=
  length (Video.videos st') = length (Video.videos st) /\
  forall k,
    Video.overlay <$> Video.videos st' !! k
    = Video.overlay <$> Video.videos st !! k.

(** What the slider shows after the user's events: the last value
    entered, if the slider exists. *)
Definition slider_after (slider : option string)
    (evs : list AudioPage.event) : option string :=
  foldl (fun s ev =>
           match ev with
           | AudioPage.Input value => (fun _ => value) <$> s
           | AudioPage.Ui _ => s
           end) slider evs.

(** The browser lets the call of [play()] succeed. *)
Definition allowed (o : outcome) : bool :=
  match o with
  | Fulfilled => true
  | Rejected => false
  end.

(** The position of the streak passes the test of line 316: neither
    [x > width] nor [y > height]. *)
Definition inside (c : Star.canvas) (s : Star.star) : Prop :=
  Star.gt (Star.x s) (Double.of_int (Star.width c)) = false /\
  Star.gt (Star.y s) (Double.of_int (Star.height c)) = false.

(** Length, speed and opacity are in the ranges [reset] draws them
    from, the upper ends included: rounding can reach them. *)
Definition well_formed (s : Star.star) : Prop :=
  between (Double.of_int 50) (Double.of_int 150) (Star.length s) /\
  between (Double.of_int 4) (Double.of_int 10) (Star.speed s) /\
  between (Double.literal 4 10) (Double.of_int 1) (Star.opacity s).

(** A streak in flight from left to right: [x] is a number between 0
    and the width, and [speed] a number between 4 and 10, as [reset]
    and the updates that do not reset leave them. *)
Definition in_flight (c : Star.canvas) (s : Star.star) : Prop :=
  valid_binary 53 1024 (Star.x s) = true /\
  between (Double.of_int 0) (Double.of_int (Star.width c)) (Star.x s) /\
  valid_binary 53 1024 (Star.speed s) = true /\
  between (Double.of_int 4) (Double.of_int 10) (Star.speed s).

(** Every draw of [Math.random] is in [[0, 1)]. *)
Definition unit_draws (g : Star.rng) : Prop :=
  forall n, unit_interval (Star.draws g n).

(** The random number source after [n] more draws. *)
Definition after_draws (n : nat) (g : Star.rng) : Star.rng :=
  {| Star.draws := Star.draws g; Star.next := (n + Star.next g)%nat |}.

(** [0 <= v < hi]. *)
Definition below (hi v : Double.number) : Prop :=
  Double.le (Double.of_int 0) v = true /\ Double.lt v hi = true.

(** The ranges of a floating element: position in the viewport, both
    sides within [[size, size + spread]], duration within
    [[dur, dur + dur_spread]], a drift of at most 50 pixels sideways and
    of at least [rise] and at most [rise + 400] pixels upwards, a delay
    below two seconds, repeated forever.  The upper ends of the closed
    ranges are reached when the sum rounds up to them. *)
Definition floating_in_range (size spread dur dur_spread rise : Z)
    (p : Floating.particle) : Prop :=
  (exists l t w h,
      Floating.style_of "left" p = Some (Floating.Vw l) /\
      Floating.style_of "top" p = Some (Floating.Vh t) /\
      Floating.style_of "width" p = Some (Floating.Px w) /\
      Floating.style_of "height" p = Some (Floating.Px h) /\
      below (Double.of_int 100) l /\ below (Double.of_int 100) t /\
      between (Double.of_int size) (Double.of_int (size + spread)) w /\
      between (Double.of_int size) (Double.of_int (size + spread)) h) /\
  between (Double.of_int dur) (Double.of_int (dur + dur_spread))
    (Floating.duration (Floating.motion p)) /\
  between (Double.of_int (-50)) (Double.of_int 50)
    (Floating.dx (Floating.motion p)) /\
  between (Double.of_int (- rise - 400)) (Double.of_int (- rise))
    (Floating.dy (Floating.motion p)) /\
  below (Double.of_int 2000) (Floating.delay (Floating.motion p)) /\
  Floating.iterations (Floating.motion p) = None.

(** * Further concrete inputs *)

(** A page whose section list holds the same element twice. *)
Definition repeated_section : Nav.page :=
  {| Nav.sections := [10; 11; 10]%nat;
     Nav.nextBtn := None;
     Nav.prevBtn := None |}.

(** Two paused videos under one parent, sharing its overlay. *)
Definition two_paused : Video.state :=
  {| Video.videos :=
       [ {| Video.paused := true; Video.overlay := Some 100%nat |};
         {| Video.paused := true; Video.overlay := Some 100%nat |} ];
     Video.overlays := {[ 100%nat := "block"%string ]};
     Video.calls := [];
     Video.pending := [] |}.

Definition out_of_view : Video.entry :=
  {| Video.target := 1; Video.isIntersecting := false;
     Video.intersectionRatio := 0%Q |}.

(** A page with a single section and both buttons. *)
Definition one_section : Nav.page :=
  {| Nav.sections := [10]%nat;
     Nav.nextBtn := Some 1%nat;
     Nav.prevBtn := Some 2%nat |}.

(** A paused video and a playing one, each with its own overlay. *)
Definition paused_and_playing : Video.state :=
  {| Video.videos :=
       [ {| Video.paused := true; Video.overlay := Some 100%nat |};
         {| Video.paused := false; Video.overlay := Some 101%nat |} ];
     Video.overlays := {[ 100%nat := "none"%string; 101%nat := "none"%string ]};
     Video.calls := [];
     Video.pending := [] |}.

(** * Properties *)

(** ** Scroll navigation *)

Section NavProperties.
Import Nav.

Variable p : page.

Lemma len_pos : sections p <> [] -> 0 < len (sections p).
Proof.
  unfold len. destruct (sections p); [congruence | simpl; lia].
Qed.

Lemma clamp_index_range (index : Z) :
  sections p <> [] ->
  0 <= clamp_index p index <= len (sections p) - 1.
Proof.
  intros Hne. pose proof (len_pos Hne). unfold clamp_index. lia.
Qed.

Lemma at_index_in_range {A} (arr : list A) (i : Z) :
  0 <= i < len arr -> is_Some (at_index arr i).
Proof.
  intros [Hlo Hhi]. unfold at_index.
  destruct (Z.ltb_spec i 0); [lia |].
  apply lookup_lt_is_Some. unfold len in Hhi. lia.
Qed.

(** The two [if]s of [goTo] compute the clamp. *)
Lemma goTo_index_clamped (index : Z) :
  0 < len (sections p) ->
  (if (if index <? 0 then 0 else index) >=? len (sections p)
   then len (sections p) - 1
   else if index <? 0 then 0 else index)
  = clamp_index p index.
Proof.
  intros Hlen. unfold clamp_index.
  destruct (Z.ltb_spec index 0);
    [destruct (Z.geb_spec 0 (len (sections p)))
    | destruct (Z.geb_spec index (len (sections p)))]; lia.
Qed.

Lemma goTo_navigates (index : Z) (st : state) :
  sections p <> [] ->
  exists st', goTo p index st = Ok st' /\ navigated_to p index st st'.
Proof.
  intros Hne. pose proof (len_pos Hne) as Hlen.
  pose proof (clamp_index_range index Hne) as Hrange.
  destruct (at_index_in_range (sections p) (clamp_index p index))
    as [target Htarget]; [lia |].
  unfold goTo.
  destruct (Z.eqb_spec (len (sections p)) 0) as [Hz | _]; [lia |].
  rewrite (goTo_index_clamped index Hlen), Htarget.
  eexists. split; [reflexivity |].
  exists target. split; [assumption | reflexivity].
Qed.

Lemma goTo_no_sections (index : Z) (st : state) :
  sections p = [] -> goTo p index st = Ok st.
Proof. intros Hnil. unfold goTo. rewrite Hnil. reflexivity. Qed.

Lemma dispatch_no_sections (ev : event) (st : state) :
  sections p = [] -> obs st = false -> dispatch p ev st = Ok st.
Proof.
  intros Hnil Hobs. destruct ev as [ | | key | entries]; simpl.
  - destruct (nextBtn p); [apply goTo_no_sections; assumption | reflexivity].
  - destruct (prevBtn p); [apply goTo_no_sections; assumption | reflexivity].
  - unfold keydown.
    destruct (String.eqb key "ArrowDown" || String.eqb key "PageDown");
      [rewrite goTo_no_sections by assumption |]; simpl;
      (destruct (String.eqb key "ArrowUp" || String.eqb key "PageUp");
       [apply goTo_no_sections; assumption | reflexivity]).
  - rewrite Hobs. reflexivity.
Qed.

Lemma run_no_sections (evs : list event) (st : state) :
  sections p = [] -> obs st = false -> run p evs st = Ok st.
Proof.
  intros Hnil Hobs. induction evs as [| ev rest IH]; simpl.
  - reflexivity.
  - rewrite dispatch_no_sections by assumption. exact IH.
Qed.

(** C2.  On a page with at least one section, [goTo index] returns
    normally with [currentIndex] equal to [index] clamped to
    [0 .. sectionCount-1], having requested a smooth scroll to the section
    at that position; the index is already updated in the state the call
    returns, where the scroll is only requested.  The next and previous
    buttons and the arrow and page keys navigate to [currentIndex + 1]
    and [currentIndex - 1] through the same function. *)
Theorem goTo_clamps_and_scrolls :
  sections p <> [] ->
  (forall index, 0 <= clamp_index p index <= len (sections p) - 1) /\
  (forall index st,
      exists st', goTo p index st = Ok st' /\ navigated_to p index st st') /\
  (forall st, is_Some (nextBtn p) ->
      exists st', dispatch p NextClick st = Ok st' /\
                  navigated_to p (currentIndex st + 1) st st') /\
  (forall st, is_Some (prevBtn p) ->
      exists st', dispatch p PrevClick st = Ok st' /\
                  navigated_to p (currentIndex st - 1) st st') /\
  (forall st key, key = "ArrowDown"%string \/ key = "PageDown"%string ->
      exists st', dispatch p (KeyDown key) st = Ok st' /\
                  navigated_to p (currentIndex st + 1) st st') /\
  (forall st key, key = "ArrowUp"%string \/ key = "PageUp"%string ->
      exists st', dispatch p (KeyDown key) st = Ok st' /\
                  navigated_to p (currentIndex st - 1) st st').
Proof.
  intros Hne. split; [| split; [| split; [| split; [| split]]]].
  - intros index. apply clamp_index_range. assumption.
  - intros index st. apply goTo_navigates. assumption.
  - intros st [b Hb]. simpl. rewrite Hb. apply goTo_navigates. assumption.
  - intros st [b Hb]. simpl. rewrite Hb. apply goTo_navigates. assumption.
  - intros st key Hkey.
    destruct (goTo_navigates (currentIndex st + 1) st Hne)
      as (st' & Hgo & Hnav).
    exists st'. split; [| assumption].
    simpl. unfold keydown.
    destruct Hkey as [-> | ->]; simpl; rewrite Hgo; reflexivity.
  - intros st key Hkey.
    destruct (goTo_navigates (currentIndex st - 1) st Hne)
      as (st' & Hgo & Hnav).
    exists st'. split; [| assumption].
    simpl. unfold keydown.
    destruct Hkey as [-> | ->]; simpl; exact Hgo.
Qed.

(** C7.  On a page without sections, initialisation leaves exactly one
    warning on the console, and every later sequence of button clicks,
    key presses and observer notifications returns normally in the very
    state initialisation produced: [currentIndex] is unchanged, nothing
    is scrolled, nothing more is logged.  [goTo] itself returns its
    state unchanged for every index. *)
Theorem no_sections_single_warning_and_noop :
  sections p = [] ->
  console (init p) = [no_sections_warning] /\
  currentIndex (init p) = 0 /\
  (forall evs, run p evs (init p) = Ok (init p)) /\
  (forall index st, goTo p index st = Ok st).
Proof.
  intros Hnil.
  assert (init p = {| currentIndex := 0; scrollRequests := [];
                      obs := false; console := [no_sections_warning] |})
    as Hinit by (unfold init; rewrite Hnil; reflexivity).
  split; [rewrite Hinit; reflexivity |].
  split; [rewrite Hinit; reflexivity |].
  split.
  - intros evs. apply run_no_sections; [assumption |].
    rewrite Hinit. reflexivity.
  - intros index st. apply goTo_no_sections. assumption.
Qed.

(** C10.  On a page with at least one section, [goTo i] followed by
    [goTo i] leaves [currentIndex] where the first call put it, and that
    position is [min (max i 0) (count - 1)] whatever the state the call
    started from. *)
Theorem goTo_idempotent_on_index (i : Z) (st : state) :
  sections p <> [] ->
  exists st1 st2,
    goTo p i st = Ok st1 /\
    goTo p i st1 = Ok st2 /\
    currentIndex st2 = currentIndex st1 /\
    currentIndex st1 = Z.min (Z.max i 0) (len (sections p) - 1) /\
    (forall st0, exists st0',
        goTo p i st0 = Ok st0' /\ currentIndex st0' = currentIndex st1).
Proof.
  intros Hne.
  destruct (goTo_navigates i st Hne) as (st1 & Hgo1 & t1 & _ & Hst1).
  destruct (goTo_navigates i st1 Hne) as (st2 & Hgo2 & t2 & _ & Hst2).
  exists st1, st2. split; [exact Hgo1 |]. split; [exact Hgo2 |].
  split; [rewrite Hst2, Hst1; reflexivity |].
  split; [rewrite Hst1; reflexivity |].
  intros st0.
  destruct (goTo_navigates i st0 Hne) as (st0' & Hgo0 & t0 & _ & Hst0).
  exists st0'. split; [exact Hgo0 | rewrite Hst0, Hst1; reflexivity].
Qed.

End NavProperties.

Example goTo_past_the_end :
  Nav.goTo three_sections 7 (Nav.init three_sections)
  = Ok {| Nav.currentIndex := 2;
          Nav.scrollRequests :=
            [{| Nav.to := 12%nat; Nav.behavior := "smooth" |}];
          Nav.obs := true; Nav.console := [] |}.
Proof. reflexivity. Qed.

Example goTo_before_the_start :
  Nav.goTo three_sections (-3) (Nav.init three_sections)
  = Ok {| Nav.currentIndex := 0;
          Nav.scrollRequests :=
            [{| Nav.to := 10%nat; Nav.behavior := "smooth" |}];
          Nav.obs := true; Nav.console := [] |}.
Proof. reflexivity. Qed.

Example keys_and_buttons :
  Nav.currentIndex <$>
    match Nav.run three_sections
            [Nav.KeyDown "ArrowDown"; Nav.NextClick; Nav.KeyDown "PageDown";
             Nav.KeyDown "Enter"; Nav.PrevClick]
            (Nav.init three_sections) with
    | Ok st => Some st
    | Throw _ => None
    end
  = Some 1.
Proof. reflexivity. Qed.

Lemma goTo_clamps_and_scrolls_witness :
  Nav.sections three_sections <> [] /\
  exists st',
    Nav.goTo three_sections 7 (Nav.init three_sections) = Ok st' /\
    navigated_to three_sections 7 (Nav.init three_sections) st'.
Proof.
  split; [discriminate |].
  apply (goTo_clamps_and_scrolls three_sections); discriminate.
Defined.

Lemma no_sections_single_warning_and_noop_witness :
  Nav.sections no_sections = [] /\
  Nav.console (Nav.init no_sections) = [Nav.no_sections_warning] /\
  Nav.run no_sections
    [Nav.NextClick; Nav.KeyDown "ArrowUp"; Nav.PrevClick;
     Nav.Intersect [{| Nav.target := 10%nat; Nav.isIntersecting := true |}]]
    (Nav.init no_sections)
  = Ok (Nav.init no_sections).
Proof.
  split; [reflexivity |].
  destruct (no_sections_single_warning_and_noop no_sections eq_refl)
    as (Hconsole & _ & Hrun & _).
  split; [exact Hconsole | apply Hrun].
Defined.

Lemma goTo_idempotent_on_index_witness :
  Nav.sections three_sections <> [] /\
  exists st1 st2,
    Nav.goTo three_sections 7 (Nav.init three_sections) = Ok st1 /\
    Nav.goTo three_sections 7 st1 = Ok st2 /\
    Nav.currentIndex st2 = Nav.currentIndex st1 /\
    Nav.currentIndex st1 = 2.
Proof.
  split; [discriminate |].
  destruct (goTo_idempotent_on_index three_sections 7
              (Nav.init three_sections))
    as (st1 & st2 & H1 & H2 & Hsame & Hclamp & _); [discriminate |].
  exists st1, st2. repeat split; assumption.
Defined.

(** ** Background audio *)

Section NumberOrder.
Import Audio.

(** [SFcompare] is antisymmetric and, away from NaN, reflexive. *)
Lemma SFcompare_antisym (a b : number) :
  SFcompare a b = CompOpp <$> SFcompare b a.
Proof.
  destruct a as [sa | sa | | sa ma ea], b as [sb | sb | | sb mb eb];
    try reflexivity;
    try (destruct sa; reflexivity);
    try (destruct sb; reflexivity);
    try (destruct sa, sb; reflexivity).
  simpl. destruct sa, sb; try reflexivity;
    rewrite (Z.compare_antisym eb ea);
    destruct (eb ?= ea); simpl; try reflexivity;
    rewrite (Pos.compare_cont_antisym mb ma Eq); simpl;
    rewrite ?CompOpp_involutive; reflexivity.
Qed.

Lemma SFcompare_refl (a : number) :
  Number_isNaN a = false -> SFcompare a a = Some Eq.
Proof.
  destruct a as [sa | sa | | sa ma ea]; simpl; try discriminate; intros _.
  - reflexivity.
  - destruct sa; reflexivity.
  - rewrite Z.compare_refl, Pos.compare_cont_refl. destruct sa; reflexivity.
Qed.

Lemma SFcompare_not_NaN (a b : number) (c : comparison) :
  SFcompare a b = Some c -> Number_isNaN a = false /\ Number_isNaN b = false.
Proof. destruct a, b; simpl; try discriminate; split; reflexivity. Qed.

Lemma SFltb_leb (a b : number) : SFltb a b = true -> SFleb a b = true.
Proof.
  unfold SFltb, SFleb.
  destruct (SFcompare a b) as [[ | | ] |]; congruence.
Qed.

Lemma SFltb_asym (a b : number) : SFltb a b = true -> SFltb b a = false.
Proof.
  unfold SFltb. rewrite (SFcompare_antisym b a).
  destruct (SFcompare a b) as [[ | | ] |]; simpl; congruence.
Qed.

Lemma SFleb_not_ltb (a b : number) :
  SFleb a b = true -> SFltb a b = false -> SFeqb a b = true.
Proof.
  unfold SFleb, SFltb, SFeqb.
  destruct (SFcompare a b) as [[ | | ] |]; congruence.
Qed.

Lemma SFeqb_sym (a b : number) : SFeqb a b = SFeqb b a.
Proof.
  unfold SFeqb. rewrite (SFcompare_antisym a b).
  destruct (SFcompare b a) as [[ | | ] |]; reflexivity.
Qed.

Lemma SFleb_NaN (a b : number) :
  SFleb a b = true -> Number_isNaN a = false /\ Number_isNaN b = false.
Proof.
  unfold SFleb. destruct (SFcompare a b) as [c |] eqn:Hcmp; [| discriminate].
  intros _. apply (SFcompare_not_NaN a b c Hcmp).
Qed.

End NumberOrder.

Section VolumeProperties.
Import Audio.

Lemma Math_max_zero (v : number) :
  Number_isNaN v = false ->
  Math_max zero v = if SFltb zero v then v else zero.
Proof.
  intros Hv. unfold Math_max. rewrite Hv. reflexivity.
Qed.

Lemma Math_min_one (w : number) :
  Number_isNaN w = false ->
  Math_min one w = if SFltb w one then w else one.
Proof.
  intros Hw. unfold Math_min. rewrite Hw. reflexivity.
Qed.

Lemma clamp01_unfold (v : number) :
  Number_isNaN v = false ->
  clamp01 v
  = if SFltb zero v then (if SFltb v one then v else one) else zero.
Proof.
  intros Hv. unfold clamp01. rewrite (Math_max_zero v Hv).
  destruct (SFltb zero v).
  - apply Math_min_one. assumption.
  - reflexivity.
Qed.

Lemma clamp01_range (v : number) :
  Number_isNaN v = false ->
  SFleb zero (clamp01 v) = true /\ SFleb (clamp01 v) one = true.
Proof.
  intros Hv. rewrite (clamp01_unfold v Hv).
  destruct (SFltb zero v) eqn:Hpos; [| split; reflexivity].
  destruct (SFltb v one) eqn:Hlt; [| split; reflexivity].
  split; apply SFltb_leb; assumption.
Qed.

Lemma clamp01_below (v : number) :
  SFltb v zero = true -> clamp01 v = zero.
Proof.
  intros Hlt.
  assert (Number_isNaN v = false) as Hv
    by (apply SFltb_leb, SFleb_NaN in Hlt; tauto).
  rewrite (clamp01_unfold v Hv), (SFltb_asym v zero Hlt). reflexivity.
Qed.

Lemma clamp01_above (v : number) :
  SFltb one v = true -> clamp01 v = one.
Proof.
  intros Hlt.
  assert (Number_isNaN v = false) as Hv
    by (apply SFltb_leb, SFleb_NaN in Hlt; tauto).
  assert (SFltb zero v = true) as Hpos.
  { destruct v as [[] | [] | | [] m e]; try discriminate; reflexivity. }
  rewrite (clamp01_unfold v Hv), (SFltb_asym one v Hlt), Hpos. reflexivity.
Qed.

Lemma clamp01_inside (v : number) :
  SFleb zero v = true -> SFleb v one = true -> SFeqb (clamp01 v) v = true.
Proof.
  intros Hlo Hhi.
  assert (Number_isNaN v = false) as Hv by (apply SFleb_NaN in Hlo; tauto).
  rewrite (clamp01_unfold v Hv).
  destruct (SFltb zero v) eqn:Hpos.
  - destruct (SFltb v one) eqn:Hlt.
    + unfold SFeqb. rewrite (SFcompare_refl v Hv). reflexivity.
    + rewrite SFeqb_sym. apply SFleb_not_ltb; assumption.
  - apply SFleb_not_ltb; assumption.
Qed.

(** C3.  With an audio element present, an [input] event of the slider
    whose value parses to a number [v] other than NaN sets the volume to
    [Math.min(1, Math.max(0, v))] and changes nothing else; that value
    lies between 0 and 1 (so the volume setter does not throw), is 0 for
    [v < 0], 1 for [v > 1] and numerically [v] for [0 <= v <= 1].  A value
    that parses to NaN leaves the state, and so the volume, as it was. *)
Theorem volume_input_clamps_or_ignores
    (parseFloat : string -> number) (value : string) (st : state)
    (a : audio_element) :
  audio st = Some a ->
  (Number_isNaN (parseFloat value) = false ->
     volumeSlider_input parseFloat value st
     = Ok (set_audio (Some {| volume := clamp01 (parseFloat value) |}) st) /\
     SFleb zero (clamp01 (parseFloat value)) = true /\
     SFleb (clamp01 (parseFloat value)) one = true /\
     (SFltb (parseFloat value) zero = true ->
        clamp01 (parseFloat value) = zero) /\
     (SFltb one (parseFloat value) = true ->
        clamp01 (parseFloat value) = one) /\
     (SFleb zero (parseFloat value) = true ->
      SFleb (parseFloat value) one = true ->
        SFeqb (clamp01 (parseFloat value)) (parseFloat value) = true)) /\
  (Number_isNaN (parseFloat value) = true ->
     volumeSlider_input parseFloat value st = Ok st).
Proof.
  intros Haudio. split.
  - intros Hnum.
    destruct (clamp01_range (parseFloat value) Hnum) as [Hlo Hhi].
    split; [| split; [exact Hlo | split; [exact Hhi |]]].
    + unfold volumeSlider_input, set_volume. rewrite Haudio, Hnum. simpl.
      fold (clamp01 (parseFloat value)). rewrite Hlo, Hhi. reflexivity.
    + split; [apply clamp01_below |].
      split; [apply clamp01_above | apply clamp01_inside].
  - intros Hnan.
    unfold volumeSlider_input. rewrite Haudio, Hnan. reflexivity.
Qed.

End VolumeProperties.

Example volume_inside :
  Audio.volumeSlider_input parseFloat_sample "0.25" with_audio
  = Ok (Audio.set_audio
          (Some {| Audio.volume :=
                     S754_finite false 4503599627370496 (-54) |})
          with_audio).
Proof. reflexivity. Qed.

Example volume_above :
  Audio.volumeSlider_input parseFloat_sample "7" with_audio
  = Ok (Audio.set_audio (Some {| Audio.volume := Audio.one |}) with_audio).
Proof. reflexivity. Qed.

Example volume_below :
  Audio.volumeSlider_input parseFloat_sample "-3" with_audio
  = Ok (Audio.set_audio (Some {| Audio.volume := Audio.zero |}) with_audio).
Proof. reflexivity. Qed.

Example volume_not_a_number :
  Audio.volumeSlider_input parseFloat_sample "loud" with_audio
  = Ok with_audio.
Proof. reflexivity. Qed.

Example clamp_of_negative_zero : clamp01 (S754_zero true) = Audio.zero.
Proof. reflexivity. Qed.

Example clamp_of_infinity : clamp01 (S754_infinity false) = Audio.one.
Proof. reflexivity. Qed.

Lemma volume_input_clamps_or_ignores_witness :
  Audio.audio with_audio = Some {| Audio.volume := Audio.half |} /\
  Audio.Number_isNaN (parseFloat_sample "7") = false /\
  Audio.volumeSlider_input parseFloat_sample "7" with_audio
  = Ok (Audio.set_audio
          (Some {| Audio.volume := clamp01 (parseFloat_sample "7") |})
          with_audio) /\
  Audio.Number_isNaN (parseFloat_sample "loud") = true /\
  Audio.volumeSlider_input parseFloat_sample "loud" with_audio
  = Ok with_audio.
Proof.
  split; [reflexivity |]. split; [reflexivity |].
  destruct (volume_input_clamps_or_ignores parseFloat_sample "7" with_audio
              {| Audio.volume := Audio.half |} eq_refl) as [Hnum _].
  destruct (volume_input_clamps_or_ignores parseFloat_sample "loud"
              with_audio {| Audio.volume := Audio.half |} eq_refl)
    as [_ Hnan].
  split; [apply Hnum; reflexivity |].
  split; [reflexivity | apply Hnan; reflexivity].
Defined.

Section AutoplayProperties.
Import Audio.

(** Closes the four facts [dispatch_autoplay] states about one event. *)
Ltac close_event :=
  simpl; rewrite ?filter_app, ?length_app, ?andb_true_r, ?andb_false_r;
  simpl; (split; [eauto |]); (split; [reflexivity |]);
  (split; [reflexivity | lia]).

(** What one event does to the three things the count depends on: the
    audio element stays, a once-listener is removed exactly when its event
    arrives, and only a listener that was still registered attempts to
    play. *)
Lemma dispatch_autoplay (ev : event) (st : state) :
  is_Some (audio st) ->
  is_Some (audio (dispatch ev st)) /\
  clickOnce (dispatch ev st) = clickOnce st && negb (is_click ev) /\
  touchOnce (dispatch ev st) = touchOnce st && negb (is_touch ev) /\
  autoplayAttempts (dispatch ev st)
  = (autoplayAttempts st + attempt (clickOnce st && is_click ev)
     + attempt (touchOnce st && is_touch ev))%nat.
Proof.
  intros [a Haudio]. unfold autoplayAttempts.
  destruct ev as [t | | o]; simpl.
  - unfold document_click, tryAutoplayAudio.
    destruct (clickOnce st) eqn:Hc; simpl; rewrite ?Haudio; simpl;
      destruct t; simpl;
      unfold musicToggle_click, audioPlayBtn_click; simpl;
      try destruct (musicToggle st); try destruct (audioPlayBtn st);
      simpl; rewrite ?Haudio; simpl;
      try destruct (musicPlaying st); simpl; rewrite ?Haudio, ?Hc;
      close_event.
  - unfold document_touchstart, tryAutoplayAudio.
    destruct (touchOnce st) eqn:Ht; simpl; rewrite ?Haudio; simpl;
      rewrite ?Haudio, ?Ht; close_event.
  - unfold settle.
    destruct (pending st) as [| from rest]; [| destruct from, o];
      simpl; rewrite Haudio; close_event.
Qed.

Lemma run_autoplay (evs : list event) (st : state) :
  is_Some (audio st) ->
  clickOnce (run evs st) = clickOnce st && negb (existsb is_click evs) /\
  touchOnce (run evs st) = touchOnce st && negb (existsb is_touch evs) /\
  autoplayAttempts (run evs st)
  = (autoplayAttempts st
     + attempt (clickOnce st && existsb is_click evs)
     + attempt (touchOnce st && existsb is_touch evs))%nat.
Proof.
  revert st. induction evs as [| ev rest IH]; intros st Haudio.
  - simpl. rewrite !andb_true_r, !andb_false_r. simpl.
    split; [reflexivity |]. split; [reflexivity | lia].
  - destruct (dispatch_autoplay ev st Haudio) as (Ha & Hc & Ht & Hn).
    destruct (IH (dispatch ev st) Ha) as (Hc' & Ht' & Hn').
    change (run (ev :: rest) st) with (run rest (dispatch ev st)).
    rewrite Hc', Ht', Hn', Hc, Ht, Hn. simpl.
    destruct (clickOnce st), (touchOnce st), (is_click ev), (is_touch ev),
      (existsb is_click rest), (existsb is_touch rest); simpl;
      (split; [reflexivity |]); (split; [reflexivity | lia]).
Qed.

(** C8, as the code has it.  The document carries two once-listeners, one
    for [click] and one for [touchstart].  Over any sequence of clicks,
    touches and promise settlements after load, with an audio element
    present, [tryAutoplayAudio] attempts playback once for the first click
    if there is one and once for the first touch if there is one, so at
    most twice; each listener is gone exactly when its own event has
    occurred. *)
Theorem autoplay_once_per_listener
    (playBtn toggle slider : option string) (evs : list event) :
  autoplayAttempts (run evs (init true playBtn toggle slider))
  = (attempt (existsb is_click evs) + attempt (existsb is_touch evs))%nat /\
  (autoplayAttempts (run evs (init true playBtn toggle slider)) <= 2)%nat /\
  clickOnce (run evs (init true playBtn toggle slider))
  = negb (existsb is_click evs) /\
  touchOnce (run evs (init true playBtn toggle slider))
  = negb (existsb is_touch evs).
Proof.
  destruct (run_autoplay evs (init true playBtn toggle slider))
    as (Hc & Ht & Hn); [simpl; eauto |].
  simpl in Hc, Ht, Hn. rewrite Hc, Ht, Hn.
  split; [reflexivity |]. split; [| split; reflexivity].
  destruct (existsb is_click evs), (existsb is_touch evs); simpl; lia.
Qed.

(** C8 as stated fails: a touch followed by a click, the order in which a
    tap delivers them, makes two attempts. *)
Lemma autoplay_twice_on_touch_then_click :
  autoplayAttempts
    (run [TouchStart; Click Elsewhere] (init true None None None)) = 2%nat /\
  ~ (autoplayAttempts
       (run [TouchStart; Click Elsewhere] (init true None None None))
     <= 1)%nat.
Proof. split; [reflexivity | vm_compute; lia]. Qed.

End AutoplayProperties.

Example tap_then_toggle :
  Audio.calls
    (Audio.run
       [Audio.TouchStart; Audio.Click Audio.OnMusicToggle;
        Audio.Settle Fulfilled; Audio.Settle Fulfilled;
        Audio.Settle Rejected]
       with_audio)
  = [Audio.PlayCall Audio.Autoplay; Audio.PlayCall Audio.Autoplay;
     Audio.PlayCall Audio.Toggle] /\
  Audio.musicPlaying
    (Audio.run
       [Audio.TouchStart; Audio.Click Audio.OnMusicToggle;
        Audio.Settle Fulfilled; Audio.Settle Fulfilled;
        Audio.Settle Rejected]
       with_audio)
  = true.
Proof. split; reflexivity. Qed.

Example clicks_only :
  Audio.autoplayAttempts
    (Audio.run
       [Audio.Click Audio.Elsewhere; Audio.Click Audio.OnAudioPlayBtn;
        Audio.Click Audio.Elsewhere]
       with_audio)
  = 1%nat.
Proof. reflexivity. Qed.

Lemma autoplay_once_per_listener_witness :
  Audio.autoplayAttempts
    (Audio.run [Audio.Click Audio.Elsewhere; Audio.Click Audio.Elsewhere;
                Audio.Click Audio.OnMusicToggle]
       (Audio.init true None (Some "🎵"%string) None))
  = 1%nat.
Proof.
  apply (autoplay_once_per_listener None (Some "🎵"%string) None
           [Audio.Click Audio.Elsewhere; Audio.Click Audio.Elsewhere;
            Audio.Click Audio.OnMusicToggle]).
Defined.

Section ToggleProperties.
Import Audio.

(** C9, as the code has it.  When the audio element exists, a click on the
    music toggle negates [musicPlaying].  If the flag was true the handler
    calls [audio.pause()] and shows the note glyph; if it was false it
    calls [audio.play()] and shows the pause glyph.  The flag is negated
    in the handler itself and the promise of that [play()] carries no
    reaction that touches the state, so neither outcome feeds back; two
    clicks in a row restore the flag. *)
Theorem toggle_click_negates_flag (st : state) (a : audio_element) :
  audio st = Some a ->
  musicPlaying (musicToggle_click st) = negb (musicPlaying st) /\
  (musicPlaying st = true ->
     calls (musicToggle_click st) = calls st ++ [PauseCall] /\
     pending (musicToggle_click st) = pending st /\
     musicToggle (musicToggle_click st) = Some "🎵"%string) /\
  (musicPlaying st = false ->
     calls (musicToggle_click st) = calls st ++ [PlayCall Toggle] /\
     pending (musicToggle_click st) = pending st ++ [Toggle] /\
     musicToggle (musicToggle_click st) = Some "⏸"%string) /\
  (forall o st', react Toggle o st' = st') /\
  musicPlaying (musicToggle_click (musicToggle_click st)) = musicPlaying st.
Proof.
  intros Haudio. unfold musicToggle_click. rewrite Haudio.
  destruct (musicPlaying st) eqn:Hflag; simpl; rewrite Haudio, ?Hflag; simpl;
    (split; [reflexivity |]);
    (split; [intros; try discriminate; repeat split |]);
    (split; [intros; try discriminate; repeat split |]);
    (split; [intros [] ?; reflexivity | reflexivity]).
Qed.

(** C9 as stated fails: on a page with the toggle but without the audio
    element a click returns before the flag is touched. *)
Lemma toggle_click_without_audio_keeps_flag :
  musicPlaying (dispatch (Click OnMusicToggle) without_audio)
  <> negb (musicPlaying without_audio) /\
  musicPlaying (musicToggle_click without_audio)
  <> negb (musicPlaying without_audio).
Proof. split; vm_compute; discriminate. Qed.

End ToggleProperties.

Lemma toggle_click_negates_flag_witness :
  Audio.audio with_audio = Some {| Audio.volume := Audio.half |} /\
  Audio.musicPlaying (Audio.musicToggle_click with_audio)
  = negb (Audio.musicPlaying with_audio) /\
  Audio.musicPlaying
    (Audio.musicToggle_click (Audio.musicToggle_click with_audio))
  = Audio.musicPlaying with_audio.
Proof.
  split; [reflexivity |].
  destruct (toggle_click_negates_flag with_audio
              {| Audio.volume := Audio.half |} eq_refl)
    as (Hflip & _ & _ & _ & Htwice).
  split; [exact Hflip | exact Htwice].
Defined.

(** ** Videos in view *)

Section PlayHandlerProperties.
Import Video.

Variable v : nat.

Lemma set_paused_true_id (vid : video) :
  paused vid = true -> set_paused true vid = vid.
Proof. destruct vid as [b ov]. simpl. intros ->. reflexivity. Qed.

(** Visiting one more position [j], not visited before. *)
Lemma visited_snoc (js : list nat) (j k : nat) :
  k ∈ js ++ [j] <-> k ∈ js \/ k = j.
Proof. rewrite elem_of_app, list_elem_of_singleton. reflexivity. Qed.

(** The handler, run over a duplicate-free list of positions: exactly the
    visited videos other than [v] end up paused, and [pause()] has been
    called on those of them that were playing, in order. *)
Lemma pause_others_spec (st : state) (js : list nat) :
  NoDup js ->
  (forall k,
      videos (foldl (pause_other v) st js) !! k
      = (fun vid => if decide (k ∈ js /\ k <> v)
                    then set_paused true vid else vid)
          <$> videos st !! k) /\
  calls (foldl (pause_other v) st js)
  = calls st ++ (PauseCall <$> filter (playing_other v st) js) /\
  overlays (foldl (pause_other v) st js) = overlays st /\
  pending (foldl (pause_other v) st js) = pending st.
Proof.
  induction js as [| j js IH] using rev_ind; intros Hnodup.
  - simpl. split; [| split; [| split]]; try reflexivity.
    + intros k. destruct (videos st !! k) as [vid |]; reflexivity.
    + rewrite app_nil_r. reflexivity.
  - apply NoDup_app in Hnodup as (Hjs & Hfresh & _).
    destruct (IH Hjs) as (Hvid & Hcalls & Hov & Hpend). clear IH.
    assert (j ∉ js) as Hj.
    { intros Hin. apply (Hfresh j Hin), list_elem_of_singleton.
      reflexivity. }
    rewrite foldl_snoc. set (st1 := foldl (pause_other v) st js) in *.
    assert (videos st1 !! j = videos st !! j) as Hsame.
    { rewrite Hvid. destruct (videos st !! j) as [vid |];
        cbn [fmap option_fmap option_map]; [| reflexivity].
      case_decide as Hk; [| reflexivity]. destruct Hk. contradiction. }
    rewrite filter_app, fmap_app, filter_cons, filter_nil.
    unfold pause_other. rewrite Hsame.
    destruct (videos st !! j) as [vid |] eqn:Hlook.
    + destruct (bool_decide (j <> v) && negb (paused vid)) eqn:Hcond.
      * apply andb_true_iff in Hcond as [Hne Hplay].
        apply bool_decide_eq_true in Hne.
        apply negb_true_iff in Hplay.
        simpl. split; [| split; [| split]]; try assumption.
        -- intros k. destruct (decide (j = k)) as [<- | Hjk].
           ++ rewrite list_lookup_alter_eq, Hsame, Hlook. simpl.
              case_decide as Hk; [reflexivity |].
              exfalso. apply Hk. split; [| assumption].
              apply visited_snoc. right. reflexivity.
           ++ rewrite list_lookup_alter_ne by assumption. rewrite Hvid.
              destruct (videos st !! k) as [vk |];
                cbn [fmap option_fmap option_map]; [| reflexivity].
              repeat case_decide; try reflexivity;
                rewrite visited_snoc in *;
                try solve [exfalso; intuition congruence].
        -- rewrite Hcalls.
           destruct (decide (playing_other v st j)) as [_ | Hno].
           ++ simpl. rewrite app_assoc. reflexivity.
           ++ exfalso. apply Hno. split; [assumption |].
              rewrite Hlook. simpl. rewrite Hplay. reflexivity.
      * split; [| split; [| split]]; try assumption.
        -- intros k. rewrite Hvid.
           destruct (videos st !! k) as [vk |] eqn:Hk;
             cbn [fmap option_fmap option_map]; [| reflexivity].
           repeat case_decide; try reflexivity;
             rewrite visited_snoc in *;
             try solve [exfalso; intuition congruence].
           assert (k = j) as -> by intuition congruence.
           rewrite Hlook in Hk. injection Hk as ->.
           apply andb_false_iff in Hcond as [Hv | Hp].
           ++ apply bool_decide_eq_false in Hv. exfalso. intuition congruence.
           ++ apply negb_false_iff in Hp.
              rewrite set_paused_true_id by assumption. reflexivity.
        -- rewrite Hcalls.
           destruct (decide (playing_other v st j)) as [Hyes | _].
           ++ exfalso. destruct Hyes as [Hne Hp].
              rewrite Hlook in Hp. simpl in Hp. injection Hp as Hp.
              apply andb_false_iff in Hcond as [Hv | Hq].
              ** apply bool_decide_eq_false in Hv. contradiction.
              ** rewrite Hp in Hq. discriminate.
           ++ simpl. rewrite app_nil_r. reflexivity.
    + split; [| split; [| split]]; try assumption.
      * intros k. rewrite Hvid.
        destruct (videos st !! k) as [vk |] eqn:Hk;
          cbn [fmap option_fmap option_map]; [| reflexivity].
        repeat case_decide; try reflexivity;
          rewrite visited_snoc in *;
          try solve [exfalso; intuition congruence].
      * rewrite Hcalls.
        destruct (decide (playing_other v st j)) as [Hyes | _].
        -- destruct Hyes as [Hne Hp]. rewrite Hlook in Hp. discriminate.
        -- simpl. rewrite app_nil_r. reflexivity.
Qed.

Lemma none_playing (l : list video) :
  (forall k vid, l !! k = Some vid -> paused vid = true) ->
  filter (fun vid => paused vid = false) l = [].
Proof.
  induction l as [| vid l IH]; intros Hall; [reflexivity |].
  rewrite filter_cons.
  pose proof (Hall 0%nat vid eq_refl) as Hvid.
  case_decide as Hplay; [congruence |].
  apply IH. intros k vk Hk. apply (Hall (S k) vk Hk).
Qed.

Lemma at_most_one_playing (l : list video) (i : nat) :
  (forall k vid, k <> i -> l !! k = Some vid -> paused vid = true) ->
  (length (filter (fun vid => paused vid = false) l) <= 1)%nat.
Proof.
  revert i. induction l as [| vid l IH]; intros i Hall; [simpl; lia |].
  rewrite filter_cons. destruct i as [| i].
  - rewrite (none_playing l).
    + case_decide; simpl; lia.
    + intros k vk Hk. apply (Hall (S k) vk); [lia | exact Hk].
  - pose proof (Hall 0%nat vid ltac:(lia) eq_refl) as Hvid.
    case_decide as Hplay; [congruence |].
    apply (IH i). intros k vk Hne Hk. apply (Hall (S k) vk); [lia | exact Hk].
Qed.

(** C1.  When video [v] fires [play], its handler leaves every other
    tracked video paused and [v] as it was; it calls [pause()] exactly on
    the other videos that were not paused, once each and in order, and so
    never on [v].  In the state the handler leaves, at most one tracked
    video is playing. *)
Theorem play_handler_pauses_all_others (st : state) :
  (forall k vid,
      k <> v -> videos (on_play v st) !! k = Some vid -> paused vid = true) /\
  videos (on_play v st) !! v = videos st !! v /\
  calls (on_play v st)
  = calls st
    ++ (PauseCall <$>
          filter (playing_other v st) (seq 0 (length (videos st)))) /\
  (forall k,
      PauseCall k ∈ (PauseCall <$>
                       filter (playing_other v st)
                         (seq 0 (length (videos st))))
      <-> k <> v /\ paused <$> videos st !! k = Some false) /\
  (length (playing (on_play v st)) <= 1)%nat.
Proof.
  destruct (pause_others_spec st (seq 0 (length (videos st))))
    as (Hvid & Hcalls & _ & _); [apply NoDup_seq |].
  fold (on_play v st) in Hvid, Hcalls.
  assert (forall k vid,
             k <> v -> videos (on_play v st) !! k = Some vid ->
             paused vid = true) as Hothers.
  { intros k vid Hne Hk. rewrite Hvid in Hk.
    destruct (videos st !! k) as [vid0 |] eqn:Hlook; [| discriminate].
    cbn [fmap option_fmap option_map] in Hk.
    case_decide as Hin.
    - injection Hk as <-. reflexivity.
    - exfalso. apply Hin. split; [| assumption].
      apply elem_of_seq. apply lookup_lt_Some in Hlook. lia. }
  split; [exact Hothers |]. split; [| split; [| split]].
  - rewrite Hvid. destruct (videos st !! v) as [vid |]; [| reflexivity].
    cbn [fmap option_fmap option_map].
    case_decide as Hin; [| reflexivity]. destruct Hin as [_ Hne]. congruence.
  - exact Hcalls.
  - intros k. rewrite list_elem_of_fmap. split.
    + intros (j & Heq & Hin). injection Heq as ->.
      apply list_elem_of_filter in Hin as [Hplay _]. exact Hplay.
    + intros [Hne Hplay]. exists k. split; [reflexivity |].
      apply list_elem_of_filter. split; [split; assumption |].
      apply elem_of_seq.
      destruct (videos st !! k) as [vid |] eqn:Hlook; [| discriminate].
      apply lookup_lt_Some in Hlook. lia.
  - unfold playing. apply (at_most_one_playing _ v). exact Hothers.
Qed.

End PlayHandlerProperties.

Example play_of_second_video :
  Video.videos (Video.on_play 1 two_playing)
  = [ {| Video.paused := true; Video.overlay := Some 100%nat |};
      {| Video.paused := false; Video.overlay := Some 101%nat |};
      {| Video.paused := true; Video.overlay := None |} ] /\
  Video.calls (Video.on_play 1 two_playing) = [Video.PauseCall 0].
Proof. split; reflexivity. Qed.

Lemma play_handler_pauses_all_others_witness :
  Video.videos (Video.on_play 1 two_playing) !! 1%nat
  = Video.videos two_playing !! 1%nat /\
  (length (Video.playing (Video.on_play 1 two_playing)) <= 1)%nat.
Proof.
  destruct (play_handler_pauses_all_others 1 two_playing)
    as (_ & Hsame & _ & _ & Hone).
  split; [exact Hsame | exact Hone].
Defined.

Section ObserverProperties.
Import Video.

Lemma ratio_above_half (r : Q) :
  negb (Qle_bool r (1 # 2)) = true <-> (1 # 2 < r)%Q.
Proof.
  rewrite negb_true_iff. split.
  - intros Hle. apply Qnot_le_lt. intros H.
    apply Qle_bool_iff in H. congruence.
  - intros Hlt. destruct (Qle_bool r (1 # 2)) eqn:Hle; [| reflexivity].
    apply Qle_bool_iff in Hle. apply Qlt_not_le in Hlt. contradiction.
Qed.

(** A batch of entries is handled entry by entry, each in the state the
    previous one left. *)
Lemma videoIO_app (es1 es2 : list (entry * outcome)) (st : state) :
  videoIO (es1 ++ es2) st = videoIO es2 (videoIO es1 st).
Proof. unfold videoIO. apply foldl_app. Qed.

(** C5.  One notification for a tracked video.  If the entry is
    intersecting with ratio above 0.5 the callback calls [play()] once and
    nothing else; a fulfilled call leaves the video playing and, when its
    promise settles, hides the overlay; a rejected call leaves every video
    as it was (a paused video stays paused) and, when its promise settles,
    shows the overlay.  Otherwise, not intersecting or ratio at most 0.5,
    the video is paused when the callback returns, [pause()] having been
    called exactly if it was not paused already, and no other video is
    touched. *)
Theorem observer_entry_plays_or_pauses
    (st : state) (e : entry) (o : outcome) (vid : video) :
  videos st !! target e = Some vid ->
  (isIntersecting e = true -> (1 # 2 < intersectionRatio e)%Q ->
     calls (videoIO [(e, o)] st) = calls st ++ [PlayCall (target e)] /\
     pending (videoIO [(e, o)] st)
     = pending st ++ [(o, ObserverReaction (overlay vid))] /\
     (o = Fulfilled ->
        videos (videoIO [(e, o)] st) !! target e
        = Some (set_paused false vid) /\
        (pending st = [] ->
         videos (settle (videoIO [(e, o)] st)) !! target e
         = Some (set_paused false vid) /\
         forall ov, overlay vid = Some ov ->
           overlays (settle (videoIO [(e, o)] st)) !! ov
           = Some "none"%string)) /\
     (o = Rejected ->
        videos (videoIO [(e, o)] st) = videos st /\
        (pending st = [] ->
         videos (settle (videoIO [(e, o)] st)) = videos st /\
         forall ov, overlay vid = Some ov ->
           overlays (settle (videoIO [(e, o)] st)) !! ov
           = Some "block"%string))) /\
  (isIntersecting e = false \/ (intersectionRatio e <= 1 # 2)%Q ->
     paused <$> videos (videoIO [(e, o)] st) !! target e = Some true /\
     calls (videoIO [(e, o)] st)
     = calls st ++ (if paused vid then [] else [PauseCall (target e)]) /\
     pending (videoIO [(e, o)] st) = pending st /\
     overlays (videoIO [(e, o)] st) = overlays st /\
     forall k, k <> target e ->
       videos (videoIO [(e, o)] st) !! k = videos st !! k).
Proof.
  intros Hlook. unfold videoIO. simpl. rewrite Hlook. split.
  - intros Hint Hratio. apply ratio_above_half in Hratio.
    rewrite Hint, Hratio. simpl.
    split; [reflexivity |]. split; [reflexivity |]. split.
    + intros ->. simpl. rewrite list_lookup_alter_eq, Hlook.
      split; [reflexivity |]. intros Hpend.
      unfold settle. simpl. rewrite Hpend. simpl.
      destruct (overlay vid) as [ov |] eqn:Hov; simpl;
        rewrite list_lookup_alter_eq, Hlook; (split; [reflexivity |]).
      * intros ov' [= <-]. apply lookup_insert_eq.
      * intros ov' [=].
    + intros ->. simpl. split; [reflexivity |]. intros Hpend.
      unfold settle. simpl. rewrite Hpend. simpl.
      destruct (overlay vid) as [ov |] eqn:Hov; simpl;
        (split; [reflexivity |]).
      * intros ov' [= <-]. apply lookup_insert_eq.
      * intros ov' [=].
  - intros Hout.
    assert (isIntersecting e
            && negb (Qle_bool (intersectionRatio e) (1 # 2)) = false) as ->.
    { destruct Hout as [-> | Hle]; [reflexivity |].
      apply Qle_bool_iff in Hle. rewrite Hle. apply andb_false_r. }
    destruct (paused vid) eqn:Hp; simpl.
    + rewrite Hlook. simpl. rewrite Hp, app_nil_r. repeat split.
    + rewrite list_lookup_alter_eq, Hlook. simpl.
      split; [reflexivity |]. split; [reflexivity |].
      split; [reflexivity |]. split; [reflexivity |].
      intros k Hk. apply list_lookup_alter_ne. congruence.
Qed.

End ObserverProperties.

Example half_in_view_pauses :
  Video.videos (Video.videoIO [(half_in_view, Fulfilled)] two_playing) !! 0%nat
  = Some {| Video.paused := true; Video.overlay := Some 100%nat |} /\
  Video.calls (Video.videoIO [(half_in_view, Fulfilled)] two_playing)
  = [Video.PauseCall 0].
Proof. split; reflexivity. Qed.

Example in_view_plays :
  Video.videos (Video.videoIO [(in_view, Fulfilled)] one_paused)
  = [ {| Video.paused := false; Video.overlay := Some 100%nat |} ] /\
  Video.calls (Video.videoIO [(in_view, Fulfilled)] one_paused)
  = [Video.PlayCall 0].
Proof. split; reflexivity. Qed.

Lemma observer_entry_plays_or_pauses_witness :
  Video.videos one_paused !! Video.target in_view
  = Some {| Video.paused := true; Video.overlay := Some 100%nat |} /\
  Video.isIntersecting in_view = true /\
  (1 # 2 < Video.intersectionRatio in_view)%Q /\
  Video.calls (Video.videoIO [(in_view, Rejected)] one_paused)
  = Video.calls one_paused ++ [Video.PlayCall 0] /\
  Video.videos (Video.videoIO [(in_view, Rejected)] one_paused)
  = Video.videos one_paused /\
  Video.overlays (Video.settle (Video.videoIO [(in_view, Rejected)] one_paused))
    !! 100%nat
  = Some "block"%string.
Proof.
  split; [reflexivity |]. split; [reflexivity |]. split; [reflexivity |].
  destruct (observer_entry_plays_or_pauses one_paused in_view Rejected
              {| Video.paused := true; Video.overlay := Some 100%nat |}
              eq_refl) as [Hplay _].
  destruct (Hplay eq_refl eq_refl) as (Hcalls & _ & _ & Hrejected).
  destruct (Hrejected eq_refl) as (Hvideos & Hsettled).
  destruct (Hsettled eq_refl) as (_ & Hoverlay).
  split; [exact Hcalls |]. split; [exact Hvideos |].
  apply Hoverlay. reflexivity.
Defined.

(** ** Media sizing *)

Section MediaProperties.
Import Media.

Lemma matches_set_max (w h : string) (media : node) :
  matches (set_max w h media) = matches media.
Proof. reflexivity. Qed.

Lemma resizeMedia_lookup (screenWidth : Z) (doc : list node) (i : nat) :
  resizeMedia screenWidth doc !! i
  = (fun media =>
       if matches media then
         if screenWidth <? 768 then set_max "85%" "50vh" media
         else if screenWidth <? 1200 then set_max "75%" "55vh" media
         else set_max "95%" "75vh" media
       else media) <$> doc !! i.
Proof. unfold resizeMedia. apply list_lookup_fmap. Qed.

(** C6.  [resizeMedia] gives every element matching the selector the
    pair of the band the viewport width falls in, below 768, from 768 to
    below 1200, and from 1200 on, and leaves every other element alone; in
    particular 500 gives 85%, 900 gives 75% and 1400 gives 95%.  The
    result depends on the width of the call alone: a call overrides
    whatever an earlier call with another width had set. *)
Theorem resizeMedia_bands (screenWidth : Z) (doc : list node) :
  (forall i media, doc !! i = Some media ->
     (matches media = false ->
        resizeMedia screenWidth doc !! i = Some media) /\
     (matches media = true -> screenWidth < 768 ->
        resizeMedia screenWidth doc !! i
        = Some (set_max "85%" "50vh" media)) /\
     (matches media = true -> 768 <= screenWidth < 1200 ->
        resizeMedia screenWidth doc !! i
        = Some (set_max "75%" "55vh" media)) /\
     (matches media = true -> 1200 <= screenWidth ->
        resizeMedia screenWidth doc !! i
        = Some (set_max "95%" "75vh" media)) /\
     (matches media = true ->
        maxWidth <$> resizeMedia 500 doc !! i = Some "85%"%string /\
        maxWidth <$> resizeMedia 900 doc !! i = Some "75%"%string /\
        maxWidth <$> resizeMedia 1400 doc !! i = Some "95%"%string)) /\
  length (resizeMedia screenWidth doc) = length doc /\
  (forall earlier,
     resizeMedia screenWidth (resizeMedia earlier doc)
     = resizeMedia screenWidth doc).
Proof.
  split; [| split].
  - intros i media Hlook.
    rewrite !resizeMedia_lookup, Hlook. simpl.
    split; [intros ->; reflexivity |].
    split; [intros -> Hw | split; [intros -> Hw | split; [intros -> Hw |]]].
    + destruct (Z.ltb_spec screenWidth 768); [reflexivity | lia].
    + destruct (Z.ltb_spec screenWidth 768); [lia |].
      destruct (Z.ltb_spec screenWidth 1200); [reflexivity | lia].
    + destruct (Z.ltb_spec screenWidth 768); [lia |].
      destruct (Z.ltb_spec screenWidth 1200); [lia | reflexivity].
    + intros ->. repeat split.
  - unfold resizeMedia. apply length_fmap.
  - intros earlier. unfold resizeMedia. rewrite <- list_fmap_compose.
    apply list_fmap_ext. intros _ media _. simpl.
    destruct (matches media) eqn:Hm; [| rewrite Hm; reflexivity].
    destruct (earlier <? 768); [| destruct (earlier <? 1200)];
      rewrite matches_set_max, Hm;
      (destruct (screenWidth <? 768); [| destruct (screenWidth <? 1200)]);
      reflexivity.
Qed.

End MediaProperties.

Example resize_at_900 :
  Media.resizeMedia 900 small_document
  = [ {| Media.classList := ["media-img"%string];
         Media.maxWidth := "75%"; Media.maxHeight := "55vh" |};
      {| Media.classList := ["caption"%string];
         Media.maxWidth := ""; Media.maxHeight := "" |};
      {| Media.classList := ["media-video"%string; "wide"%string];
         Media.maxWidth := "75%"; Media.maxHeight := "55vh" |} ].
Proof. reflexivity. Qed.

Example resize_at_the_breakpoints :
  Media.maxWidth <$> Media.resizeMedia 767 small_document
  = ["85%"; ""; "85%"]%string /\
  Media.maxWidth <$> Media.resizeMedia 768 small_document
  = ["75%"; ""; "75%"]%string /\
  Media.maxWidth <$> Media.resizeMedia 1199 small_document
  = ["75%"; ""; "75%"]%string /\
  Media.maxWidth <$> Media.resizeMedia 1200 small_document
  = ["95%"; ""; "95%"]%string.
Proof. repeat split. Qed.

Lemma resizeMedia_bands_witness :
  small_document !! 2%nat
  = Some {| Media.classList := ["media-video"%string; "wide"%string];
            Media.maxWidth := "10%"; Media.maxHeight := "10vh" |} /\
  1200 <= 1400 /\
  Media.resizeMedia 1400 small_document !! 2%nat
  = Some {| Media.classList := ["media-video"%string; "wide"%string];
            Media.maxWidth := "95%"; Media.maxHeight := "75vh" |}.
Proof.
  split; [reflexivity |]. split; [lia |].
  destruct (resizeMedia_bands 1400 small_document) as (Hband & _ & _).
  destruct (Hband 2%nat _ eq_refl) as (_ & _ & _ & Hwide & _).
  apply Hwide; [reflexivity | lia].
Defined.

(** ** Double arithmetic

    [binary_round_aux] rounds the integer [M] at exponent [E] to the
    nearest double, ties to even; the lemmas below give what that means
    for the values, as far as the properties of the streaks and of the
    floating elements need it: a result is at most half a unit in the
    last place away from the exact value, rounding is monotone and leaves
    a double as it is. *)

(** *** Exponents and digits

    The exponent a double with [e] binary digits above the point gets:
    53 digits of mantissa, and no exponent below -1074. *)
Lemma fexp_eq e : fexp 53 1024 e = Z.max (e - 53) (-1074).
Proof. reflexivity. Qed.

(** [digits2_pos m] is the number of binary digits of [m]. *)
Lemma digits2_pos_bounds m :
  2 ^ (Zpos (digits2_pos m) - 1) <= Zpos m < 2 ^ Zpos (digits2_pos m).
Proof.
  induction m as [m IH | m IH |]; simpl digits2_pos.
  - rewrite Pos2Z.inj_succ.
    replace (Z.succ (Zpos (digits2_pos m)) - 1)
      with (Z.succ (Zpos (digits2_pos m) - 1)) by lia.
    rewrite !Z.pow_succ_r by lia. lia.
  - rewrite Pos2Z.inj_succ.
    replace (Z.succ (Zpos (digits2_pos m)) - 1)
      with (Z.succ (Zpos (digits2_pos m) - 1)) by lia.
    rewrite !Z.pow_succ_r by lia. lia.
  - simpl. lia.
Qed.

Lemma digits_le m k : 0 <= k -> Zpos m < 2 ^ k -> Zpos (digits2_pos m) <= k.
Proof.
  intros Hk Hm.
  destruct (Z_le_gt_dec (Zpos (digits2_pos m)) k) as [H | H]; [exact H |].
  pose proof (digits2_pos_bounds m) as [Hlo _].
  assert (2 ^ k <= 2 ^ (Zpos (digits2_pos m) - 1))
    by (apply Z.pow_le_mono_r; lia).
  lia.
Qed.

Lemma digits_gt m k : 0 <= k -> 2 ^ k <= Zpos m -> k < Zpos (digits2_pos m).
Proof.
  intros Hk Hm.
  destruct (Z_lt_le_dec k (Zpos (digits2_pos m))) as [H | H]; [exact H |].
  pose proof (digits2_pos_bounds m) as [_ Hhi].
  assert (2 ^ Zpos (digits2_pos m) <= 2 ^ k) by (apply Z.pow_le_mono_r; lia).
  lia.
Qed.

(** *** Shifting right

    An invariant of [k] steps is one of [k + n] steps after [n] more. *)
Lemma iter_pos_invariant {A} (f : A -> A) (Inv : Z -> A -> Prop) :
  (forall k x, 0 <= k -> Inv k x -> Inv (k + 1) (f x)) ->
  forall n k x,
    0 <= k -> Inv k x -> Inv (k + Zpos n) (SpecFloat.iter_pos f n x).
Proof.
  intros Hstep. induction n as [n IH | n IH |]; intros k x Hk Hx; simpl.
  - replace (k + Zpos n~1) with ((k + 1 + Zpos n) + Zpos n) by lia.
    apply IH; [lia |]. apply IH; [lia |]. apply Hstep; assumption.
  - replace (k + Zpos n~0) with ((k + Zpos n) + Zpos n) by lia.
    apply IH; [lia |]. apply IH; assumption.
  - apply Hstep; assumption.
Qed.

(** One step of [shr_1] keeps [shifted]: the mantissa is the quotient by
    the next power of two, the round and sticky bits tell where the
    remainder lies. *)
Lemma shr_1_shifted M k mrs :
  0 <= k -> shifted M k mrs -> shifted M (k + 1) (shr_1 mrs).
Proof.
  intros Hk (Hm & Hb & _). unfold shifted.
  replace (k + 1 - 1) with k by lia.
  rewrite Z.pow_add_r by lia. change (2 ^ 1) with 2.
  assert (0 < 2 ^ k) by (apply Z.pow_pos_nonneg; lia).
  destruct mrs as [m r s]. simpl in *.
  destruct m as [| p | p]; [| destruct p as [p | p |] |]; simpl; lia.
Qed.

Lemma shr_shifted M l n :
  0 <= M ->
  shifted M (Zpos n) (SpecFloat.iter_pos shr_1 n (shr_record_of_loc M l)).
Proof.
  intros HM.
  change (Zpos n) with (0 + Zpos n).
  apply (iter_pos_invariant shr_1 (shifted M)).
  - intros k x Hk Hx. apply shr_1_shifted; assumption.
  - lia.
  - unfold shifted.
    destruct l as [| []]; simpl; (split; [lia |]; split; [lia |]; lia).
Qed.

(** Rounding to nearest, ties to even, takes the mantissa or its
    successor, and the mantissa itself when the round bit is off. *)
Lemma round_nearest_even_bounds mrs :
  shr_m mrs <= round_nearest_even (shr_m mrs) (loc_of_shr_record mrs)
  <= shr_m mrs + 1 /\
  (shr_r mrs = false ->
   round_nearest_even (shr_m mrs) (loc_of_shr_record mrs) = shr_m mrs).
Proof.
  destruct mrs as [m [] []]; simpl; try destruct (Z.even m);
    (split; [lia | intros; try discriminate; reflexivity]).
Qed.

Lemma loc_of_record_of_loc M l :
  loc_of_shr_record (shr_record_of_loc M l) = l.
Proof. destruct l as [| []]; reflexivity. Qed.

Lemma shr_m_record_of_loc M l : shr_m (shr_record_of_loc M l) = M.
Proof. destruct l as [| []]; reflexivity. Qed.

Lemma round_nearest_even_loc M l :
  M <= round_nearest_even M l <= M + 1 /\
  (l = loc_Exact -> round_nearest_even M l = M).
Proof.
  destruct l as [| []]; simpl; try destruct (Z.even M);
    (split; [lia | intros; try discriminate; reflexivity]).
Qed.

Lemma Zdigits2_bounds M :
  0 <= M -> 0 <= Zdigits2 M /\ M < 2 ^ Zdigits2 M /\
  (0 < M -> 2 ^ (Zdigits2 M - 1) <= M).
Proof.
  intros HM. destruct M as [| p | p]; simpl.
  - split; [lia |]. split; [reflexivity | lia].
  - pose proof (digits2_pos_bounds p). lia.
  - lia.
Qed.

(** *** Powers of two *)
Lemma pow2_split a b : 0 <= a -> 0 <= b -> 2 ^ (a + b) = 2 ^ a * 2 ^ b.
Proof. intros. apply Z.pow_add_r; assumption. Qed.

Lemma pow2_gt0 a : 0 <= a -> 0 < 2 ^ a.
Proof. intros. apply Z.pow_pos_nonneg; lia. Qed.

Lemma pow2_half n : 0 < n -> 2 ^ n = 2 * 2 ^ (n - 1).
Proof.
  intros Hn. replace n with (Z.succ (n - 1)) at 1 by lia.
  apply Z.pow_succ_r. lia.
Qed.

Lemma pow2_le_double a b : 0 <= a < b -> 2 * 2 ^ a <= 2 ^ b.
Proof.
  intros Hab. rewrite <- Z.pow_succ_r by lia.
  apply Z.pow_le_mono_r; lia.
Qed.

(** *** The two stages of [binary_round_aux]

    The first stage shifts [M] right by [n] digits and rounds: the
    rounded mantissa [m1] is within half a unit of [M / 2 ^ n]. *)
Lemma first_stage M E l :
  0 <= M ->
  forall mrs e1, shr_fexp 53 1024 M E l = (mrs, e1) ->
  let n := fexp 53 1024 (Zdigits2 M + E) - E in
  let m1 := round_nearest_even (shr_m mrs) (loc_of_shr_record mrs) in
  (n <= 0 -> e1 = E /\ M <= m1 <= M + 1 /\ (l = loc_Exact -> m1 = M)) /\
  (0 < n ->
   e1 = E + n /\ 0 <= m1 /\
   2 ^ n * m1 <= M + 2 ^ (n - 1) /\ M < 2 ^ n * (m1 + 1)).
Proof.
  intros HM mrs e1 Hshr n m1. subst n m1.
  unfold shr_fexp, shr in Hshr.
  destruct (fexp 53 1024 (Zdigits2 M + E) - E) as [| p | p] eqn:Hn.
  - injection Hshr as <- <-. split; [| lia]. intros _.
    rewrite loc_of_record_of_loc, shr_m_record_of_loc.
    split; [reflexivity |]. apply round_nearest_even_loc.
  - injection Hshr as <- <-. split; [lia |]. intros _.
    pose proof (shr_shifted M l p HM) as (Hm & Hb & Hr).
    set (mrs := SpecFloat.iter_pos shr_1 p (shr_record_of_loc M l)) in *.
    pose proof (round_nearest_even_bounds mrs) as [Hrne Hexact].
    assert (0 < 2 ^ Zpos p) by (apply pow2_gt0; lia).
    pose proof (pow2_half (Zpos p) ltac:(lia)) as Hhalf.
    specialize (Hr ltac:(lia)).
    split; [reflexivity |]. split; [lia |].
    destruct (shr_r mrs).
    + split; nia.
    + rewrite Hexact by reflexivity. split; nia.
  - injection Hshr as <- <-. split; [| lia]. intros _.
    rewrite loc_of_record_of_loc, shr_m_record_of_loc.
    split; [reflexivity |]. apply round_nearest_even_loc.
Qed.

(** The second stage only repairs a mantissa that rounding carried to
    [2 ^ 53]; [round_pack] is what it returns. *)
Lemma second_stage sx m1 e1 :
  0 <= m1 <= 2 ^ 53 -> -1074 <= e1 ->
  (let '(mrs, e2) := shr_fexp 53 1024 m1 e1 loc_Exact in
   match shr_m mrs with
   | Z0 => S754_zero sx
   | Zpos m =>
       if e2 <=? 1024 - 53 then S754_finite sx m e2 else S754_infinity sx
   | Zneg _ => S754_nan
   end) = round_pack sx m1 e1.
Proof.
  intros Hm He. unfold round_pack.
  destruct (Z.eqb_spec m1 0) as [-> | Hnz].
  - unfold shr_fexp, shr. simpl Zdigits2.
    destruct (fexp 53 1024 (0 + e1) - e1) as [| p | p] eqn:Hn;
      [reflexivity | | reflexivity].
    rewrite fexp_eq in Hn. lia.
  - destruct (Z.eqb_spec m1 (2 ^ 53)) as [-> | Hne].
    + change (2 ^ 53) with 9007199254740992.
      unfold shr_fexp. change (Zdigits2 9007199254740992) with 54.
      replace (fexp 53 1024 (54 + e1) - e1) with 1
        by (rewrite fexp_eq; lia).
      reflexivity.
    + destruct m1 as [| p | p]; [lia | | lia].
      unfold shr_fexp, shr. simpl Zdigits2.
      assert (Zpos (digits2_pos p) <= 53)
        by (apply digits_le; lia).
      destruct (fexp 53 1024 (Zpos (digits2_pos p) + e1) - e1)
        as [| q | q] eqn:Hn; [reflexivity | | reflexivity].
      rewrite fexp_eq in Hn. lia.
Qed.

(** Both stages together. *)
Lemma binary_round_aux_spec sx M E l :
  0 <= M ->
  let n := fexp 53 1024 (Zdigits2 M + E) - E in
  exists m1 e1,
    binary_round_aux 53 1024 sx M E l = round_pack sx m1 e1 /\
    0 <= m1 <= 2 ^ 53 /\ -1074 <= e1 /\ e1 = E + Z.max n 0 /\
    (n <= 0 -> M <= m1 <= M + 1 /\ (l = loc_Exact -> m1 = M)) /\
    (0 < n ->
     2 ^ n * m1 <= M + 2 ^ (n - 1) /\ M < 2 ^ n * (m1 + 1) /\
     (2 ^ 52 <= m1 \/ e1 = -1074)).
Proof.
  intros HM n.
  unfold binary_round_aux.
  destruct (shr_fexp 53 1024 M E l) as [mrs e1] eqn:Hshr.
  pose proof (first_stage M E l HM mrs e1 Hshr) as [Hle Hgt].
  fold n in Hle, Hgt.
  set (m1 := round_nearest_even (shr_m mrs) (loc_of_shr_record mrs)) in *.
  pose proof (Zdigits2_bounds M HM) as (Hd0 & Hdhi & Hdlo).
  assert (n = Z.max (Zdigits2 M + E - 53) (-1074) - E) as Hn
    by (subst n; rewrite fexp_eq; reflexivity).
  exists m1, e1.
  destruct (Z_le_gt_dec n 0) as [Hn0 | Hn0].
  - destruct (Hle Hn0) as (-> & Hm1 & Hex).
    assert (M < 2 ^ 53).
    { assert (2 ^ Zdigits2 M <= 2 ^ 53) by (apply Z.pow_le_mono_r; lia). lia. }
    rewrite second_stage by lia.
    split; [reflexivity |]. split; [lia |]. split; [lia |].
    split; [lia |]. split; [intros _; split; assumption | lia].
  - destruct (Hgt ltac:(lia)) as (-> & Hm0 & Hup & Hlo).
    assert (0 < 2 ^ n) by (apply pow2_gt0; lia).
    pose proof (pow2_half n ltac:(lia)) as Hhalf.
    assert (0 < 2 ^ (n - 1)) by (apply pow2_gt0; lia).
    assert (m1 <= 2 ^ 53) as Hm53.
    { assert (2 ^ Zdigits2 M <= 2 ^ (n + 53)) by (apply Z.pow_le_mono_r; lia).
      rewrite pow2_split in * by lia. nia. }
    rewrite second_stage by lia.
    split; [reflexivity |]. split; [lia |]. split; [lia |].
    split; [lia |]. split; [lia |]. intros _.
    split; [exact Hup |]. split; [exact Hlo |].
    destruct (Z.eq_dec (E + n) (-1074)) as [| Hne]; [right; assumption | left].
    assert (n = Zdigits2 M - 53) as Hnd by lia.
    assert (0 < M) by (destruct M; simpl in *; lia).
    specialize (Hdlo ltac:(lia)).
    replace (Zdigits2 M - 1) with (n + 52) in Hdlo by lia.
    rewrite pow2_split in Hdlo by lia. nia.
Qed.

(** [bounded] in arithmetic: the mantissa has 53 digits, or fewer at the
    least exponent. *)
Lemma bounded_iff m e :
  bounded 53 1024 m e = true <->
  -1074 <= e <= 971 /\ Zpos m < 2 ^ 53 /\ (2 ^ 52 <= Zpos m \/ e = -1074).
Proof.
  unfold bounded, canonical_mantissa.
  rewrite andb_true_iff, Z.eqb_eq, Z.leb_le, fexp_eq.
  change (1024 - 53) with 971.
  pose proof (digits2_pos_bounds m) as [Hlo Hhi].
  split.
  - intros [Hc He].
    assert (Zpos (digits2_pos m) <= 53) as Hd by lia.
    assert (2 ^ Zpos (digits2_pos m) <= 2 ^ 53)
      by (apply Z.pow_le_mono_r; lia).
    split; [lia |]. split; [lia |].
    destruct (Z.eq_dec e (-1074)) as [| Hne]; [right; assumption | left].
    replace (Zpos (digits2_pos m)) with 53 in Hlo by lia. exact Hlo.
  - intros (He & Hm & Hc).
    assert (Zpos (digits2_pos m) <= 53) by (apply digits_le; lia).
    split; [| lia]. destruct Hc as [Hc | ->]; [| lia].
    assert (52 < Zpos (digits2_pos m)) by (apply digits_gt; lia).
    lia.
Qed.

(** Rounding an integer that needs no shift left: the result is within
    half of [2 ^ n] of [M], and [M] itself when [n = 0]. *)
Lemma binary_round_aux_exact sx M E :
  0 <= M ->
  let n := fexp 53 1024 (Zdigits2 M + E) - E in
  0 <= n ->
  exists m1,
    binary_round_aux 53 1024 sx M E loc_Exact = round_pack sx m1 (E + n) /\
    0 <= m1 <= 2 ^ 53 /\ -1074 <= E + n /\
    (2 ^ 52 <= m1 \/ E + n = -1074) /\
    2 * (2 ^ n * m1) <= 2 * M + 2 ^ n /\ M < 2 ^ n * (m1 + 1) /\
    (n = 0 -> m1 = M).
Proof.
  intros HM n Hn.
  destruct (binary_round_aux_spec sx M E loc_Exact HM)
    as (m1 & e1 & Hr & Hm1 & He1 & Heq & H0 & Hpos).
  fold n in Heq, H0, Hpos.
  replace (Z.max n 0) with n in Heq by lia. subst e1.
  exists m1. split; [exact Hr |]. split; [exact Hm1 |]. split; [exact He1 |].
  pose proof (Zdigits2_bounds M HM) as (Hd0 & Hdhi & Hdlo).
  assert (n = Z.max (Zdigits2 M + E - 53) (-1074) - E) as Hnd
    by (subst n; rewrite fexp_eq; reflexivity).
  destruct (Z.eq_dec n 0) as [Hz | Hnz].
  - destruct (H0 ltac:(lia)) as [_ Hex]. specialize (Hex eq_refl).
    rewrite Hz. change (2 ^ 0) with 1.
    split.
    + destruct (Z.eq_dec (E + 0) (-1074)) as [| Hne];
        [right; assumption | left].
      assert (Zdigits2 M = 53) as Hd by lia.
      assert (0 < M) by (destruct M; simpl in *; lia).
      specialize (Hdlo ltac:(lia)). rewrite Hd in Hdlo. simpl in Hdlo. lia.
    + split; [lia |]. split; [lia |]. intros _. exact Hex.
  - destruct (Hpos ltac:(lia)) as (Hup & Hlo & Hc).
    split; [exact Hc |].
    pose proof (pow2_half n ltac:(lia)) as Hhalf.
    split; [lia |]. split; [exact Hlo |]. intros; lia.
Qed.

(** *** Values and comparisons

    The value of a packed result below the overflow threshold. *)
Lemma round_pack_value m1 e1 :
  0 <= m1 <= 2 ^ 53 -> -1074 <= e1 -> (2 ^ 52 <= m1 \/ e1 = -1074) ->
  m1 * 2 ^ (e1 + 1074) < 2 ^ 2098 ->
  nonneg (round_pack false m1 e1) /\
  scaled (round_pack false m1 e1) = m1 * 2 ^ (e1 + 1074).
Proof.
  intros Hm He Hc Hv. unfold round_pack.
  assert (0 < 2 ^ (e1 + 1074)) as Hp by (apply pow2_gt0; lia).
  destruct (Z.eqb_spec m1 0) as [-> | Hnz]; [simpl; split; [exact I | lia] |].
  destruct (Z.eqb_spec m1 (2 ^ 53)) as [-> | Hne].
  - assert (e1 + 1127 < 2098) as Hlt.
    { apply (Z.pow_lt_mono_r_iff 2); [lia | lia |].
      replace (e1 + 1127) with (53 + (e1 + 1074)) by lia.
      rewrite pow2_split by lia. exact Hv. }
    destruct (Z.leb_spec (e1 + 1) 971) as [_ | Hover]; [| lia].
    split.
    + simpl. apply bounded_iff. split; [lia |]. split; [reflexivity |].
      left. discriminate.
    + simpl. replace (e1 + 1 + 1074) with (1 + (e1 + 1074)) by lia.
      rewrite pow2_split by lia.
      change (2 ^ 1) with 2. change (2 ^ 53) with 9007199254740992. lia.
  - assert (e1 <= 971) as Hle.
    { destruct Hc as [Hc | ->]; [| lia].
      assert (e1 + 1126 < 2098); [| lia].
      apply (Z.pow_lt_mono_r_iff 2); [lia | lia |].
      replace (e1 + 1126) with (52 + (e1 + 1074)) by lia.
      rewrite pow2_split by lia. nia. }
    destruct (Z.leb_spec e1 971) as [_ | Hover]; [| lia].
    destruct m1 as [| p | p]; [lia | | lia].
    split.
    + simpl. apply bounded_iff. split; [lia |]. split; [lia |]. exact Hc.
    + reflexivity.
Qed.

Lemma nonneg_scaled x : nonneg x -> 0 <= scaled x.
Proof.
  destruct x as [| | | [] m e]; simpl; intros Hb; try lia.
  all: apply bounded_iff in Hb.
  all: assert (0 < 2 ^ (e + 1074)) by (apply pow2_gt0; lia); lia.
Qed.

(** On doubles that are not negative, the comparisons of the code are
    the comparisons of the scaled values. *)
Lemma compare_scaled x y :
  nonneg x -> nonneg y -> SFcompare x y = Some (scaled x ?= scaled y).
Proof.
  destruct x as [sx | | | [] mx ex]; simpl; try contradiction;
    destruct y as [sy | | | [] my ey]; simpl; try contradiction; intros Hx Hy.
  - reflexivity.
  - apply bounded_iff in Hy.
    assert (0 < 2 ^ (ey + 1074)) by (apply pow2_gt0; lia).
    assert (0 < Zpos my * 2 ^ (ey + 1074)) by lia.
    destruct (Zpos my * 2 ^ (ey + 1074)); [lia | reflexivity | lia].
  - apply bounded_iff in Hx.
    assert (0 < 2 ^ (ex + 1074)) by (apply pow2_gt0; lia).
    assert (0 < Zpos mx * 2 ^ (ex + 1074)) by lia.
    destruct (Zpos mx * 2 ^ (ex + 1074)); [lia | reflexivity | lia].
  - apply bounded_iff in Hx. apply bounded_iff in Hy. f_equal.
    assert (0 < 2 ^ (ex + 1074)) by (apply pow2_gt0; lia).
    assert (0 < 2 ^ (ey + 1074)) by (apply pow2_gt0; lia).
    destruct (Z.compare_spec ex ey) as [-> | Hlt | Hgt].
    + rewrite Pos.compare_cont_spec. simpl.
      change (mx ?= my)%positive with (Zpos mx ?= Zpos my).
      destruct (Z.compare_spec (Zpos mx) (Zpos my)) as [Heq | Hlt | Hgt];
        symmetry.
      * apply Z.compare_eq_iff. rewrite Heq. reflexivity.
      * apply Z.compare_lt_iff. nia.
      * apply Z.compare_gt_iff. nia.
    + symmetry. apply Z.compare_lt_iff.
      pose proof (pow2_le_double (ex + 1074) (ey + 1074) ltac:(lia)).
      change (2 ^ 53) with 9007199254740992 in *.
      change (2 ^ 52) with 4503599627370496 in *.
      assert (Zpos mx * 2 ^ (ex + 1074)
              < 9007199254740992 * 2 ^ (ex + 1074)) by nia.
      assert (4503599627370496 * 2 ^ (ey + 1074)
              <= Zpos my * 2 ^ (ey + 1074)) by nia.
      lia.
    + symmetry. apply Z.compare_gt_iff.
      pose proof (pow2_le_double (ey + 1074) (ex + 1074) ltac:(lia)).
      change (2 ^ 53) with 9007199254740992 in *.
      change (2 ^ 52) with 4503599627370496 in *.
      assert (Zpos my * 2 ^ (ey + 1074)
              < 9007199254740992 * 2 ^ (ey + 1074)) by nia.
      assert (4503599627370496 * 2 ^ (ex + 1074)
              <= Zpos mx * 2 ^ (ex + 1074)) by nia.
      lia.
Qed.

Lemma leb_scaled x y :
  nonneg x -> nonneg y -> SFleb x y = (scaled x <=? scaled y).
Proof.
  intros Hx Hy. unfold SFleb, Z.leb. rewrite compare_scaled by assumption.
  destruct (scaled x ?= scaled y); reflexivity.
Qed.

Lemma ltb_scaled x y :
  nonneg x -> nonneg y -> SFltb x y = (scaled x <? scaled y).
Proof.
  intros Hx Hy. unfold SFltb, Z.ltb. rewrite compare_scaled by assumption.
  destruct (scaled x ?= scaled y); reflexivity.
Qed.

Lemma scaled_lt_max B : nonneg B -> scaled B < 2 ^ 2098.
Proof.
  destruct B as [| | | [] mb eb]; simpl; intros HB;
    try (apply pow2_gt0; lia); try contradiction.
  apply bounded_iff in HB.
  assert (2 ^ (eb + 1074) <= 2 ^ 2045) by (apply Z.pow_le_mono_r; lia).
  assert (0 < 2 ^ (eb + 1074)) by (apply pow2_gt0; lia).
  change (2 ^ 2098) with (2 ^ 53 * 2 ^ 2045).
  change (2 ^ 53) with 9007199254740992 in *.
  nia.
Qed.

(** *** Rounding is monotone

    A rounded mantissa does not pass a double above the exact value, nor
    one below it: between the exact value and its rounding there is no
    double. *)
Lemma round_up_le M m1 n a b mb d :
  0 <= M -> 0 <= m1 -> 0 <= n -> 0 <= a -> 0 <= b -> 0 <= mb < 2 ^ 53 ->
  (0 < M -> 2 ^ (d - 1) <= M) ->
  (b < a + n -> n = d - 53) ->
  2 * (2 ^ n * m1) <= 2 * M + 2 ^ n ->
  M * 2 ^ a <= mb * 2 ^ b ->
  m1 * 2 ^ (a + n) <= mb * 2 ^ b.
Proof.
  intros HM Hm1 Hn Ha Hb Hmb Hd Hcase Hup Hle.
  assert (0 < 2 ^ a) as HP by (apply pow2_gt0; lia).
  assert (0 < 2 ^ n) as HQ by (apply pow2_gt0; lia).
  assert (0 < 2 ^ b) as HB by (apply pow2_gt0; lia).
  rewrite (pow2_split a n) by lia.
  destruct (Z_le_gt_dec (a + n) b) as [Hk | Hk].
  - replace b with ((b - a - n) + (n + a)) in * by lia.
    assert (0 < 2 ^ (b - a - n)) as HR by (apply pow2_gt0; lia).
    rewrite (pow2_split (b - a - n)) in * by lia.
    rewrite (pow2_split n a) in * by lia.
    set (P := 2 ^ a) in *. set (Q := 2 ^ n) in *.
    set (R := 2 ^ (b - a - n)) in *.
    assert (M <= mb * R * Q) as HMle.
    { apply (Z.mul_le_mono_pos_r _ _ P); [exact HP | lia]. }
    assert (2 * m1 <= 2 * (mb * R) + 1) as H2.
    { apply (Z.mul_le_mono_pos_l _ _ Q); [exact HQ | lia]. }
    assert (m1 <= mb * R) as H3 by lia.
    assert (m1 * (P * Q) <= mb * R * (P * Q)); [| lia].
    apply Z.mul_le_mono_nonneg_r; [nia | exact H3].
  - destruct (Z.eq_dec M 0) as [-> | HM0].
    + assert (m1 = 0) as -> by nia. nia.
    + exfalso. specialize (Hd ltac:(lia)). specialize (Hcase ltac:(lia)).
      replace (d - 1) with (n + 52) in Hd by lia.
      rewrite pow2_split in Hd by lia.
      assert (2 * 2 ^ b <= 2 ^ (a + n))
        by (apply pow2_le_double; lia).
      rewrite pow2_split in * by lia.
      change (2 ^ 52) with 4503599627370496 in *.
      change (2 ^ 53) with 9007199254740992 in *.
      assert (2 ^ n * 4503599627370496 * 2 ^ a <= M * 2 ^ a) by nia.
      nia.
Qed.

Lemma round_down_ge M m1 n a b mb d :
  0 <= M -> 0 <= m1 -> 0 <= n -> 0 <= a -> 0 <= b -> 0 <= mb < 2 ^ 53 ->
  0 <= d -> M < 2 ^ d -> d - 53 <= n ->
  (b < a + n -> 2 ^ 52 <= m1) ->
  (a + n < b -> 2 ^ 52 <= mb) ->
  M < 2 ^ n * (m1 + 1) ->
  mb * 2 ^ b <= M * 2 ^ a ->
  mb * 2 ^ b <= m1 * 2 ^ (a + n).
Proof.
  intros HM Hm1 Hn Ha Hb Hmb Hd0 Hd Hdn Hc1 Hcb Hlo Hle.
  assert (0 < 2 ^ a) as HP by (apply pow2_gt0; lia).
  assert (0 < 2 ^ n) as HQ by (apply pow2_gt0; lia).
  assert (0 < 2 ^ b) as HB by (apply pow2_gt0; lia).
  change (2 ^ 52) with 4503599627370496 in *.
  change (2 ^ 53) with 9007199254740992 in *.
  destruct (Z.lt_trichotomy (a + n) b) as [Hk | [Hk | Hk]].
  - exfalso. specialize (Hcb Hk).
    assert (2 ^ (52 + b) < 2 ^ (d + a)) as Hpow.
    { rewrite !pow2_split by lia.
      change (2 ^ 52) with 4503599627370496. nia. }
    apply Z.pow_lt_mono_r_iff in Hpow; lia.
  - subst b. rewrite pow2_split in * by lia.
    assert (mb < m1 + 1); [| nia].
    apply (Z.mul_lt_mono_pos_r (2 ^ a * 2 ^ n)); [nia |]. nia.
  - specialize (Hc1 Hk).
    assert (2 * 2 ^ b <= 2 ^ (a + n)) by (apply pow2_le_double; lia).
    nia.
Qed.

(** The mantissa and exponent of a double that is not negative. *)
Lemma scaled_shape B :
  nonneg B ->
  exists mb eb,
    scaled B = mb * 2 ^ (eb + 1074) /\ 0 <= mb < 2 ^ 53 /\ -1074 <= eb /\
    (2 ^ 52 <= mb \/ eb = -1074).
Proof.
  destruct B as [| | | [] mb eb]; simpl; intros HB; try contradiction.
  - exists 0, (-1074). split; [reflexivity |].
    split; [split; [lia | reflexivity] |].
    split; [lia | right; reflexivity].
  - apply bounded_iff in HB. exists (Zpos mb), eb. lia.
Qed.

(** An exact value between two doubles rounds to a double between
    them. *)
Lemma round_exact_between M E K B1 B2 :
  0 <= M -> 0 <= K -> 0 <= E + 1074 + K ->
  0 <= fexp 53 1024 (Zdigits2 M + E) - E ->
  nonneg B1 -> nonneg B2 ->
  scaled B1 * 2 ^ K <= M * 2 ^ (E + 1074 + K) <= scaled B2 * 2 ^ K ->
  nonneg (binary_round_aux 53 1024 false M E loc_Exact) /\
  scaled B1 <= scaled (binary_round_aux 53 1024 false M E loc_Exact)
  <= scaled B2.
Proof.
  intros HM HK Ha Hn HB1 HB2 [Hlow Hupp].
  destruct (binary_round_aux_exact false M E HM Hn)
    as (m1 & Hr & Hm1 & He1 & Hc & Hup & Hlo & _).
  rewrite Hr. clear Hr.
  pose proof (Zdigits2_bounds M HM) as (Hd0 & Hdhi & Hdlo).
  rewrite fexp_eq in *.
  set (d := Zdigits2 M) in *.
  set (n := Z.max (d + E - 53) (-1074) - E) in *.
  assert (0 < 2 ^ K) as HpK by (apply pow2_gt0; lia).
  destruct (scaled_shape B1 HB1) as (m_1 & e_1 & Hs1 & Hmb1 & Heb1 & Hcb1).
  destruct (scaled_shape B2 HB2) as (m_2 & e_2 & Hs2 & Hmb2 & Heb2 & Hcb2).
  assert (m1 * 2 ^ (E + 1074 + K + n) <= scaled B2 * 2 ^ K) as HU.
  { rewrite Hs2 in *. rewrite <- Z.mul_assoc, <- pow2_split in * by lia.
    apply (round_up_le M m1 n _ _ m_2 d); try lia. }
  assert (scaled B1 * 2 ^ K <= m1 * 2 ^ (E + 1074 + K + n)) as HL.
  { rewrite Hs1 in *. rewrite <- Z.mul_assoc, <- pow2_split in * by lia.
    apply (round_down_ge M m1 n _ _ m_1 d); try lia. }
  replace (E + 1074 + K + n) with ((E + n + 1074) + K) in HU, HL by lia.
  rewrite pow2_split in HU, HL by lia.
  rewrite Z.mul_assoc in HU, HL.
  apply Z.mul_le_mono_pos_r in HU; [| exact HpK].
  apply Z.mul_le_mono_pos_r in HL; [| exact HpK].
  pose proof (scaled_lt_max B2 HB2).
  destruct (round_pack_value m1 (E + n)) as [Hnn Hval]; try lia.
  split; [exact Hnn |]. rewrite Hval. lia.
Qed.

(** *** Products and sums

    The product of two mantissas never needs a shift left. *)
Lemma product_input mx ex my ey :
  bounded 53 1024 mx ex = true -> bounded 53 1024 my ey = true ->
  0 <= fexp 53 1024 (Zdigits2 (Zpos (mx * my)) + (ex + ey)) - (ex + ey).
Proof.
  intros Hx Hy. apply bounded_iff in Hx. apply bounded_iff in Hy.
  rewrite fexp_eq. simpl Zdigits2.
  destruct (Z_le_gt_dec (ex + ey) (-1074)) as [| HE]; [lia |].
  assert (52 < Zpos (digits2_pos (mx * my))); [| lia].
  apply digits_gt; [lia |].
  rewrite Pos2Z.inj_mul.
  change (2 ^ 52) with 4503599627370496 in *.
  destruct Hx as (Hex & _ & [Hmx | ->]); destruct Hy as (Hey & _ & [Hmy | ->]);
    nia.
Qed.

(** A product between two doubles rounds to a double between them. *)
Lemma mul_between x y B1 B2 :
  nonneg x -> nonneg y -> nonneg B1 -> nonneg B2 ->
  scaled B1 * 2 ^ 1074 <= scaled x * scaled y <= scaled B2 * 2 ^ 1074 ->
  nonneg (Double.mul x y) /\
  scaled B1 <= scaled (Double.mul x y) <= scaled B2.
Proof.
  intros Hx Hy HB1 HB2 Hb.
  pose proof (nonneg_scaled B2 HB2).
  assert (0 < 2 ^ 1074) as Hp by (apply pow2_gt0; lia).
  destruct x as [sx | | | [] mx ex]; try contradiction;
    destruct y as [sy | | | [] my ey]; try contradiction;
    try (simpl in *; split; [exact I | lia]).
  simpl in Hx, Hy.
  pose proof Hx as Hx'. pose proof Hy as Hy'.
  apply bounded_iff in Hx'. apply bounded_iff in Hy'.
  apply (round_exact_between _ _ 1074); try assumption; try lia.
  - apply product_input; assumption.
  - replace (ex + ey + 1074 + 1074) with ((ex + 1074) + (ey + 1074)) by lia.
    rewrite pow2_split by lia. rewrite Pos2Z.inj_mul.
    simpl scaled in Hb.
    replace (Zpos mx * Zpos my * (2 ^ (ex + 1074) * 2 ^ (ey + 1074)))
      with (Zpos mx * 2 ^ (ex + 1074) * (Zpos my * 2 ^ (ey + 1074))) by ring.
    exact Hb.
Qed.

(** [shl_align] multiplies the mantissa by the power of two it takes from
    the exponent. *)
Lemma iter_xO m d : Zpos (Pos.iter xO m d) = Zpos m * 2 ^ Zpos d.
Proof.
  induction d as [| d IH] using Pos.peano_ind.
  - simpl. rewrite Pos2Z.inj_xO. change (2 ^ 1) with 2. lia.
  - rewrite Pos.iter_succ, Pos2Z.inj_xO, IH, Pos2Z.inj_succ.
    rewrite Z.pow_succ_r by lia. lia.
Qed.

Lemma shl_align_spec m e e' :
  snd (shl_align m e e') = Z.min e e' /\
  Zpos (fst (shl_align m e e')) = Zpos m * 2 ^ (e - Z.min e e').
Proof.
  unfold shl_align. destruct (e' - e) as [| p | p] eqn:Hd; simpl.
  - replace (Z.min e e') with e by lia. rewrite Z.sub_diag. simpl. lia.
  - replace (Z.min e e') with e by lia. rewrite Z.sub_diag. simpl. lia.
  - replace (Z.min e e') with e' by lia.
    replace (e - e') with (Zpos p) by lia. split; [reflexivity |].
    apply iter_xO.
Qed.

Lemma digits_shift m k :
  0 <= k -> forall M, Zpos M = Zpos m * 2 ^ k ->
  Zpos (digits2_pos M) = Zpos (digits2_pos m) + k.
Proof.
  intros Hk M HM.
  pose proof (digits2_pos_bounds m) as [Hlo Hhi].
  assert (0 < 2 ^ k) by (apply pow2_gt0; lia).
  assert (Zpos (digits2_pos M) <= Zpos (digits2_pos m) + k).
  { apply digits_le; [lia |]. rewrite pow2_split by lia. nia. }
  assert (Zpos (digits2_pos m) - 1 + k < Zpos (digits2_pos M)).
  { apply digits_gt; [lia |]. rewrite pow2_split by lia. nia. }
  lia.
Qed.

(** The same for [binary_round], which normalises first. *)
Lemma binary_round_between s e B1 B2 :
  -1074 <= e ->
  nonneg B1 -> nonneg B2 ->
  scaled B1 <= Zpos s * 2 ^ (e + 1074) <= scaled B2 ->
  nonneg (binary_round 53 1024 false s e) /\
  scaled B1 <= scaled (binary_round 53 1024 false s e) <= scaled B2.
Proof.
  intros He HB1 HB2 Hb. unfold binary_round.
  set (f := fexp 53 1024 (Zpos (digits2_pos s) + e)).
  pose proof (shl_align_spec s e f) as [HE HM].
  destruct (shl_align s e f) as [M E]. simpl in HE, HM. subst E.
  assert (-1074 <= f) by (subst f; rewrite fexp_eq; lia).
  apply (round_exact_between _ _ 0); try assumption; try lia.
  - simpl Zdigits2.
    rewrite (digits_shift s (e - Z.min e f)) by (lia || exact HM).
    replace (Zpos (digits2_pos s) + (e - Z.min e f) + Z.min e f)
      with (Zpos (digits2_pos s) + e) by lia.
    fold f. lia.
  - rewrite !Z.mul_1_r, Z.add_0_r, HM.
    rewrite <- Z.mul_assoc, <- pow2_split by lia.
    replace (e - Z.min e f + (Z.min e f + 1074)) with (e + 1074) by lia.
    exact Hb.
Qed.

(** A sum between two doubles rounds to a double between them. *)
Lemma add_between x y B1 B2 :
  nonneg x -> nonneg y -> nonneg B1 -> nonneg B2 ->
  scaled B1 <= scaled x + scaled y <= scaled B2 ->
  nonneg (Double.add x y) /\
  scaled B1 <= scaled (Double.add x y) <= scaled B2.
Proof.
  intros Hx Hy HB1 HB2 Hb.
  destruct x as [sx | | | [] mx ex]; try contradiction;
    destruct y as [sy | | | [] my ey]; try contradiction.
  - destruct sx, sy; simpl in *; (split; [exact I | lia]).
  - simpl in *. split; [assumption | lia].
  - simpl in *. split; [assumption | lia].
  - simpl in Hx, Hy.
    pose proof Hx as Hx'. pose proof Hy as Hy'.
    apply bounded_iff in Hx'. apply bounded_iff in Hy'.
    unfold Double.add, SFadd, cond_Zopp.
    pose proof (shl_align_spec mx ex (Z.min ex ey)) as [_ Hmx].
    pose proof (shl_align_spec my ey (Z.min ex ey)) as [_ Hmy].
    set (a := fst (shl_align mx ex (Z.min ex ey))) in *.
    set (b := fst (shl_align my ey (Z.min ex ey))) in *.
    change (Zpos a + Zpos b) with (Zpos (a + b)).
    unfold binary_normalize.
    apply binary_round_between; try assumption; try lia.
    rewrite Pos2Z.inj_add, Hmx, Hmy, Z.mul_add_distr_r.
    rewrite <- !Z.mul_assoc, <- !pow2_split by lia.
    replace (ex - Z.min ex (Z.min ex ey) + (Z.min ex ey + 1074))
      with (ex + 1074) by lia.
    replace (ey - Z.min ey (Z.min ex ey) + (Z.min ex ey + 1074))
      with (ey + 1074) by lia.
    exact Hb.
Qed.

(** *** Draws times a size

    A double that is at least one is normal. *)
Lemma at_least_one_normal mw ew :
  bounded 53 1024 mw ew = true ->
  2 ^ 1074 <= Zpos mw * 2 ^ (ew + 1074) ->
  -52 <= ew /\ 2 ^ 52 <= Zpos mw.
Proof.
  intros Hb Hone. apply bounded_iff in Hb.
  assert (-52 <= ew) as He.
  { destruct (Z_le_gt_dec (-52) ew) as [| Hlt]; [assumption | exfalso].
    assert (2 ^ (53 + (ew + 1074)) <= 2 ^ 1074)
      by (apply Z.pow_le_mono_r; lia).
    rewrite pow2_split in * by lia.
    assert (0 < 2 ^ (ew + 1074)) by (apply pow2_gt0; lia).
    nia. }
  split; [exact He | lia].
Qed.

(** A double below one times a double [w] that is at least one is below
    [w], also after rounding: the double just below [w] is at least the
    exact product. *)
Lemma mul_unit_lt r w :
  nonneg r -> scaled r < 2 ^ 1074 ->
  nonneg w -> 2 ^ 1074 <= scaled w ->
  nonneg (Double.mul r w) /\ scaled (Double.mul r w) < scaled w.
Proof.
  intros Hr Hr1 Hw Hw1.
  assert (0 < 2 ^ 1074) as Hp by (apply pow2_gt0; lia).
  destruct w as [sw | | | [] mw ew]; try contradiction;
    try (simpl in Hw1; lia).
  destruct r as [sr | | | [] mr er]; try contradiction.
  { simpl in *. split; [exact I | lia]. }
  simpl in Hr, Hw, Hr1, Hw1.
  destruct (at_least_one_normal mw ew Hw Hw1) as [Hew Hmw].
  pose proof Hr as Hr'. pose proof Hw as Hw'.
  apply bounded_iff in Hr'. apply bounded_iff in Hw'.
  assert (0 < 2 ^ (er + 1074)) as Hpr by (apply pow2_gt0; lia).
  assert (er < 0) as Her.
  { destruct (Z_lt_le_dec er 0) as [| Hge]; [assumption | exfalso].
    assert (2 ^ 1074 <= 2 ^ (er + 1074)) by (apply Z.pow_le_mono_r; lia).
    nia. }
  assert (Zpos mr < 2 ^ (- er)) as Hmr.
  { apply (Z.mul_lt_mono_pos_r (2 ^ (er + 1074))); [exact Hpr |].
    rewrite <- pow2_split by lia.
    replace (- er + (er + 1074)) with 1074 by lia. exact Hr1. }
  unfold Double.mul, SFmul. simpl xorb.
  pose proof (product_input mr er mw ew Hr Hw) as Hn.
  destruct (binary_round_aux_exact false (Zpos (mr * mw)) (er + ew)
              ltac:(lia) Hn)
    as (m1 & Hres & Hm1 & He1 & Hc & Hup & Hlo & _).
  rewrite Hres. clear Hres.
  rewrite fexp_eq in *. simpl Zdigits2 in *.
  set (d := Zpos (digits2_pos (mr * mw))) in *.
  set (n := Z.max (d + (er + ew) - 53) (-1074) - (er + ew)) in *.
  pose proof (digits2_pos_bounds (mr * mw)) as [Hdlo Hdhi].
  fold d in Hdlo, Hdhi. rewrite Pos2Z.inj_mul in *.
  change (2 ^ 52) with 4503599627370496 in *.
  change (2 ^ 53) with 9007199254740992 in *.
  assert (d <= 106) as Hd106.
  { subst d. apply digits_le; [lia |]. rewrite Pos2Z.inj_mul.
    change (2 ^ 106) with (9007199254740992 * 9007199254740992). nia. }
  assert (0 < 2 ^ n) as Hpn by (apply pow2_gt0; lia).
  assert (2 ^ n < 2 * Zpos mw) as Hgap.
  { destruct (Z_le_gt_dec n 52) as [Hn52 | Hn53].
    - assert (2 ^ n <= 2 ^ 52) by (apply Z.pow_le_mono_r; lia).
      change (2 ^ 52) with 4503599627370496 in *. lia.
    - assert (n = 53) as Hn53' by lia. assert (d = 106) as Hd by lia.
      rewrite Hn53', Hd in *.
      change (2 ^ (106 - 1)) with (9007199254740992 * 4503599627370496) in Hdlo.
      change (2 ^ 53) with 9007199254740992. nia. }
  assert (m1 * 2 ^ n < Zpos mw * 2 ^ (- er)) as Hcore.
  { assert (0 < 2 ^ (- er)) by (apply pow2_gt0; lia). nia. }
  assert (m1 * 2 ^ (er + ew + n + 1074) < Zpos mw * 2 ^ (ew + 1074)) as Hval.
  { apply (Z.mul_lt_mono_pos_r (2 ^ 1074)); [exact Hp |].
    rewrite <- !Z.mul_assoc, <- !pow2_split by lia.
    replace (er + ew + n + 1074 + 1074)
      with (n + ((er + 1074) + (ew + 1074))) by lia.
    replace (ew + 1074 + 1074)
      with (- er + ((er + 1074) + (ew + 1074))) by lia.
    rewrite (pow2_split n), (pow2_split (- er)) by lia.
    assert (0 < 2 ^ (er + 1074 + (ew + 1074))) by (apply pow2_gt0; lia).
    rewrite !Z.mul_assoc. apply Z.mul_lt_mono_pos_r; assumption. }
  pose proof (scaled_lt_max (S754_finite false mw ew) Hw) as Hmax.
  simpl scaled in Hmax.
  destruct (round_pack_value m1 (er + ew + n)) as [Hnn Hv]; try lia.
  split; [exact Hnn |]. rewrite Hv. simpl scaled. exact Hval.
Qed.

(** *** Integers and halves

    An integer below [2 ^ 53] is a double. *)
Lemma of_int_value W :
  0 <= W < 2 ^ 53 ->
  nonneg (Double.of_int W) /\ scaled (Double.of_int W) = W * 2 ^ 1074.
Proof.
  intros HW. unfold Double.of_int, binary_normalize.
  destruct W as [| w | w]; [simpl; split; [exact I | reflexivity] | | lia].
  unfold binary_round.
  assert (Zpos (digits2_pos w) <= 53) as Hdw by (apply digits_le; lia).
  set (f := fexp 53 1024 (Zpos (digits2_pos w) + 0)).
  assert (f = Zpos (digits2_pos w) - 53) as Hf
    by (subst f; rewrite fexp_eq; lia).
  pose proof (shl_align_spec w 0 f) as [HE HM].
  destruct (shl_align w 0 f) as [M E]. simpl in HE, HM. subst E.
  replace (Z.min 0 f) with f in * by lia.
  pose proof (digits_shift w (0 - f) ltac:(lia) M HM) as HdM.
  assert (fexp 53 1024 (Zdigits2 (Zpos M) + f) - f = 0) as Hn
    by (simpl Zdigits2; rewrite fexp_eq; lia).
  destruct (binary_round_aux_exact false (Zpos M) f ltac:(lia))
    as (m1 & Hres & Hm1 & He1 & Hc & _ & _ & Hex); [lia |].
  rewrite Hn in *. specialize (Hex eq_refl). subst m1.
  rewrite Hres, Z.add_0_r in *.
  assert (Zpos M * 2 ^ (f + 1074) = Zpos w * 2 ^ 1074) as Hval.
  { rewrite HM, <- Z.mul_assoc, <- pow2_split by lia.
    replace (0 - f + (f + 1074)) with 1074 by lia. reflexivity. }
  assert (Zpos M * 2 ^ (f + 1074) < 2 ^ 2098) as Hmax.
  { rewrite Hval.
    change (2 ^ 2098) with (2 ^ 53 * 2 ^ 1074 * 2 ^ 971).
    assert (0 < 2 ^ 1074) by (apply pow2_gt0; lia).
    assert (0 < 2 ^ 971) by (apply pow2_gt0; lia).
    nia. }
  destruct (round_pack_value (Zpos M) f) as [Hnn Hv]; try lia.
  split; [exact Hnn |]. rewrite Hv. exact Hval.
Qed.

Lemma div_eucl_pow2 a k :
  0 < k -> Z.div_eucl (a * k) k = (a, 0).
Proof.
  intros Hk.
  pose proof (Z_div_mult a k ltac:(lia)) as Hq.
  pose proof (Z_mod_mult a k) as Hr.
  unfold Z.div, Z.modulo in Hq, Hr.
  destruct (Z.div_eucl (a * k) k) as [q r]. congruence.
Qed.

(** Dividing by two lowers the exponent, when there is room for it. *)
Lemma div_two_exact m e :
  bounded 53 1024 m e = true -> -1072 <= e ->
  Double.div (S754_finite false m e) (Double.of_int 2)
  = S754_finite false m (e - 1).
Proof.
  intros Hb He. apply bounded_iff in Hb.
  assert (2 ^ 52 <= Zpos m) as Hm by lia.
  assert (Zpos (digits2_pos m) = 53) as Hd.
  { assert (Zpos (digits2_pos m) <= 53) by (apply digits_le; lia).
    assert (52 < Zpos (digits2_pos m)) by (apply digits_gt; lia). lia. }
  unfold Double.div.
  change (Double.of_int 2) with (S754_finite false 4503599627370496 (-51)).
  unfold SFdiv, SFdiv_core_binary.
  change (Zdigits2 4503599627370496) with 53.
  change (Zdigits2 (Zpos m)) with (Zpos (digits2_pos m)). rewrite Hd.
  change (xorb false false) with false.
  replace (Z.min (fexp 53 1024 (53 + e - (53 + -51))) (e - -51))
    with (e - 2) by (rewrite fexp_eq; lia).
  replace (e - -51 - (e - 2)) with 53 by lia.
  rewrite Z.shiftl_mul_pow2 by lia.
  change (2 ^ 53) with (2 * 4503599627370496).
  rewrite Z.mul_assoc, div_eucl_pow2 by lia.
  change (new_location 4503599627370496 0) with loc_Exact.
  assert (Zdigits2 (Zpos m * 2) = 54) as Hd2.
  { change (Zpos m * 2) with (Zpos (m * 2)). simpl Zdigits2.
    rewrite (digits_shift m 1 ltac:(lia)); [lia |].
    rewrite Pos2Z.inj_mul. reflexivity. }
  assert (fexp 53 1024 (Zdigits2 (Zpos m * 2) + (e - 2)) - (e - 2) = 1)
    as Hn by (rewrite Hd2, fexp_eq; lia).
  destruct (binary_round_aux_exact false (Zpos m * 2) (e - 2) ltac:(lia))
    as (m1 & Hres & Hm1 & He1 & Hc & Hup & Hlo & _); [lia |].
  rewrite Hn in *. rewrite Hres. change (2 ^ 1) with 2 in *.
  assert (m1 = Zpos m) as -> by lia.
  unfold round_pack. replace (e - 2 + 1) with (e - 1) by lia.
  destruct (Z.eqb_spec (Zpos m) 0) as [| _]; [lia |].
  destruct (Z.eqb_spec (Zpos m) (2 ^ 53)) as [| _]; [lia |].
  destruct (Z.leb_spec (e - 1) 971) as [_ |]; [reflexivity | lia].
Qed.

(** Where there is none, the quotient is a subnormal number. *)
Lemma div_two_tiny m e :
  bounded 53 1024 m e = true -> e <= -1073 ->
  nonneg (Double.div (S754_finite false m e) (Double.of_int 2)) /\
  scaled (Double.div (S754_finite false m e) (Double.of_int 2)) <= 2 ^ 53.
Proof.
  intros Hb He. apply bounded_iff in Hb.
  assert (Zpos (digits2_pos m) <= 53) as Hd by (apply digits_le; lia).
  unfold Double.div.
  change (Double.of_int 2) with (S754_finite false 4503599627370496 (-51)).
  unfold SFdiv, SFdiv_core_binary.
  change (Zdigits2 4503599627370496) with 53.
  change (Zdigits2 (Zpos m)) with (Zpos (digits2_pos m)).
  change (xorb false false) with false.
  replace (Z.min (fexp 53 1024 (Zpos (digits2_pos m) + e - (53 + -51)))
             (e - -51))
    with (-1074) by (rewrite fexp_eq; lia).
  assert (Z.shiftl (Zpos m) (e - -51 - -1074) <= Zpos m * 2 ^ 52 /\
          0 <= Z.shiftl (Zpos m) (e - -51 - -1074)) as Hsh.
  { rewrite Z.shiftl_mul_pow2 by lia.
    assert (0 < 2 ^ (e - -51 - -1074) <= 2 ^ 52)
      by (split; [apply pow2_gt0; lia | apply Z.pow_le_mono_r; lia]).
    nia. }
  assert (exists s, e - -51 - -1074 = Zpos s) as [s Hs]
    by (destruct (e - -51 - -1074) eqn:Heq; [lia | eexists; reflexivity | lia]).
  rewrite Hs in *.
  set (m' := Z.shiftl (Zpos m) (Zpos s)) in *.
  pose proof (Z_div_mod m' 4503599627370496 ltac:(lia)) as Hdm.
  destruct (Z.div_eucl m' 4503599627370496) as [q r].
  destruct Hdm as [Hq Hr].
  change (2 ^ 52) with 4503599627370496 in *.
  change (2 ^ 53) with 9007199254740992 in *.
  assert (0 <= q <= Zpos m) as Hq' by nia.
  destruct (binary_round_aux_spec false q (-1074)
              (new_location 4503599627370496 r) ltac:(lia))
    as (m1 & e1 & Hres & Hm1 & He1 & Heq & H0 & _).
  rewrite Hres.
  assert (fexp 53 1024 (Zdigits2 q + -1074) - -1074 = 0) as Hn.
  { rewrite fexp_eq. destruct q as [| p | p]; simpl Zdigits2; [lia | | lia].
    assert (Zpos (digits2_pos p) <= 53) by (apply digits_le; lia). lia. }
  rewrite Hn in *. change (-1074 + Z.max 0 0) with (-1074) in *. subst e1.
  destruct (H0 ltac:(lia)) as [Hm1q _].
  assert (m1 * 2 ^ (-1074 + 1074) < 2 ^ 2098) as Hmax.
  { change (2 ^ (-1074 + 1074)) with 1.
    assert (9007199254740992 < 2 ^ 2098) by reflexivity. lia. }
  destruct (round_pack_value m1 (-1074)) as [Hnn Hv];
    try (change (2 ^ 53) with 9007199254740992); try lia.
  split; [exact Hnn |]. rewrite Hv. change (2 ^ (-1074 + 1074)) with 1. lia.
Qed.

(** Halving keeps a strict order below a double that is at least one. *)
Lemma div_two_lt t w :
  nonneg t -> nonneg w -> 2 ^ 1074 <= scaled w -> scaled t < scaled w ->
  nonneg (Double.div t (Double.of_int 2)) /\
  nonneg (Double.div w (Double.of_int 2)) /\
  scaled (Double.div t (Double.of_int 2))
  < scaled (Double.div w (Double.of_int 2)) /\
  scaled (Double.div w (Double.of_int 2)) <= scaled w.
Proof.
  intros Ht Hw Hw1 Hlt.
  assert (0 < 2 ^ 1074) as Hp by (apply pow2_gt0; lia).
  destruct w as [sw | | | [] mw ew]; try contradiction;
    try (simpl in Hw1; lia).
  simpl in Hw, Hw1.
  destruct (at_least_one_normal mw ew Hw Hw1) as [Hew Hmw].
  rewrite (div_two_exact mw ew Hw) by lia.
  pose proof Hw as Hw'. apply bounded_iff in Hw'.
  assert (nonneg (S754_finite false mw (ew - 1))) as Hhalf
    by (simpl; apply bounded_iff; lia).
  assert (0 < 2 ^ (ew - 1 + 1074)) as Hph by (apply pow2_gt0; lia).
  assert (2 ^ (ew + 1074) = 2 * 2 ^ (ew - 1 + 1074)) as Hdouble.
  { replace (ew + 1074) with (1 + (ew - 1 + 1074)) by lia.
    rewrite pow2_split by lia. reflexivity. }
  change (scaled (S754_finite false mw ew))
    with (Zpos mw * 2 ^ (ew + 1074)) in *.
  change (scaled (S754_finite false mw (ew - 1)))
    with (Zpos mw * 2 ^ (ew - 1 + 1074)).
  rewrite Hdouble in *.
  destruct t as [st | | | [] mt et]; try contradiction.
  - change (Double.div (S754_zero st) (Double.of_int 2))
      with (S754_zero (xorb st false)).
    simpl. split; [exact I |]. split; [exact Hhalf |]. lia.
  - simpl in Ht.
    change (scaled (S754_finite false mt et))
      with (Zpos mt * 2 ^ (et + 1074)) in Hlt.
    destruct (Z_le_gt_dec (-1072) et) as [Hbig | Hsmall].
    + rewrite (div_two_exact mt et Ht Hbig).
      pose proof Ht as Ht'. apply bounded_iff in Ht'.
      split; [simpl; apply bounded_iff; lia |]. split; [exact Hhalf |].
      change (scaled (S754_finite false mt (et - 1)))
        with (Zpos mt * 2 ^ (et - 1 + 1074)).
      replace (et + 1074) with (1 + (et - 1 + 1074)) in Hlt by lia.
      rewrite pow2_split in Hlt by lia. change (2 ^ 1) with 2 in Hlt.
      lia.
    + destruct (div_two_tiny mt et Ht ltac:(lia)) as [Hnn Hv].
      split; [exact Hnn |]. split; [exact Hhalf |].
      assert (2 ^ 53 < Zpos mw * 2 ^ (ew - 1 + 1074)); [| lia].
      assert (2 ^ 2 <= 2 ^ (ew - 1 + 1074)) by (apply Z.pow_le_mono_r; lia).
      change (2 ^ 2) with 4 in *.
      change (2 ^ 52) with 4503599627370496 in *.
      change (2 ^ 53) with 9007199254740992 in *. nia.
Qed.


(** Comparisons of the model on such doubles are comparisons of their
    values. *)
Lemma le_scaled x y :
  nonneg x -> nonneg y -> (Double.le x y = true <-> scaled x <= scaled y).
Proof.
  intros Hx Hy. unfold Double.le. rewrite leb_scaled by assumption.
  apply Z.leb_le.
Qed.

Lemma lt_scaled x y :
  nonneg x -> nonneg y -> (Double.lt x y = true <-> scaled x < scaled y).
Proof.
  intros Hx Hy. unfold Double.lt. rewrite ltb_scaled by assumption.
  apply Z.ltb_lt.
Qed.

Lemma gt_false_scaled x y :
  nonneg x -> nonneg y -> (Star.gt x y = false <-> scaled x <= scaled y).
Proof.
  intros Hx Hy. unfold Star.gt, Double.lt. rewrite ltb_scaled by assumption.
  rewrite Z.ltb_ge. reflexivity.
Qed.

Lemma between_scaled lo hi v :
  nonneg lo -> nonneg hi -> nonneg v ->
  scaled lo <= scaled v <= scaled hi -> between lo hi v.
Proof.
  intros Hlo Hhi Hv [H1 H2]. split; apply le_scaled; assumption.
Qed.

(** A draw of [Math.random] is non-negative with a value below 1. *)
Lemma unit_interval_scaled d :
  unit_interval d -> nonneg d /\ 0 <= scaled d < 2 ^ 1074.
Proof.
  unfold unit_interval, Double.le, Double.lt.
  change (Double.of_int 0) with (S754_zero false).
  change (Double.of_int 1) with (S754_finite false 4503599627370496 (-52)).
  intros (Hv & Hle & Hlt).
  assert (0 < 2 ^ 1074) by (apply pow2_gt0; lia).
  destruct d as [sd | [] | | [] m e]; try discriminate.
  - simpl. split; [exact I | lia].
  - simpl in Hv.
    assert (nonneg (S754_finite false m e)) as Hnn by exact Hv.
    split; [exact Hnn |]. split; [apply nonneg_scaled; exact Hnn |].
    rewrite ltb_scaled in Hlt; [| exact Hnn | reflexivity].
    apply Z.ltb_lt in Hlt.
    change (scaled (S754_finite false 4503599627370496 (-52)))
      with (2 ^ 1074) in Hlt.
    exact Hlt.
Qed.

(** A draw times a positive integer [W] is at least 0 and strictly
    below [W]: the product is at most [W - W / 2^53], which rounds
    below [W]. *)
Lemma draw_times_below r W :
  unit_interval r -> 0 < W < 2 ^ 53 ->
  nonneg (Double.mul r (Double.of_int W)) /\
  scaled (Double.mul r (Double.of_int W)) < scaled (Double.of_int W) /\
  Double.le (Double.of_int 0) (Double.mul r (Double.of_int W)) = true /\
  Double.lt (Double.mul r (Double.of_int W)) (Double.of_int W) = true.
Proof.
  intros Hr HW.
  destruct (unit_interval_scaled r Hr) as (Hnr & Hr0 & Hr1).
  destruct (of_int_value W ltac:(lia)) as [HnW HvW].
  assert (0 < 2 ^ 1074) by (apply pow2_gt0; lia).
  destruct (mul_unit_lt r (Double.of_int W) Hnr Hr1 HnW ltac:(nia))
    as [Hnn Hlt].
  split; [exact Hnn |]. split; [exact Hlt |]. split.
  - apply le_scaled; [exact I | exact Hnn |].
    apply nonneg_scaled. exact Hnn.
  - apply lt_scaled; assumption.
Qed.

(** The same product halved is at least 0 and strictly below half of
    [W]. *)
Lemma half_draw_times_below r W :
  unit_interval r -> 0 < W < 2 ^ 53 ->
  nonneg (Double.div (Double.mul r (Double.of_int W)) (Double.of_int 2)) /\
  Double.le (Double.of_int 0)
    (Double.div (Double.mul r (Double.of_int W)) (Double.of_int 2)) = true /\
  Double.lt (Double.div (Double.mul r (Double.of_int W)) (Double.of_int 2))
    (Double.div (Double.of_int W) (Double.of_int 2)) = true /\
  scaled (Double.div (Double.mul r (Double.of_int W)) (Double.of_int 2))
  <= scaled (Double.of_int W).
Proof.
  intros Hr HW.
  destruct (draw_times_below r W Hr HW) as (Hnn & Hlt & _).
  destruct (of_int_value W ltac:(lia)) as [HnW HvW].
  assert (0 < 2 ^ 1074) by (apply pow2_gt0; lia).
  destruct (div_two_lt _ _ Hnn HnW ltac:(nia) Hlt)
    as (Hnt & Hnw & Hlt2 & Hle2).
  split; [exact Hnt |]. split; [| split].
  - apply le_scaled; [exact I | exact Hnt |].
    apply nonneg_scaled. exact Hnt.
  - apply lt_scaled; assumption.
  - lia.
Qed.

(** A draw times a positive integer [A], plus an integer [B], in either
    order of the sum, lies in [[B, A + B]]. *)
Lemma affine_range r A B :
  unit_interval r -> 0 < A -> 0 <= B -> A + B < 2 ^ 53 ->
  between (Double.of_int B) (Double.of_int (A + B))
    (Double.add (Double.mul r (Double.of_int A)) (Double.of_int B)) /\
  between (Double.of_int B) (Double.of_int (A + B))
    (Double.add (Double.of_int B) (Double.mul r (Double.of_int A))).
Proof.
  intros Hr HA HB HAB.
  destruct (unit_interval_scaled r Hr) as (Hnr & Hr0 & Hr1).
  destruct (of_int_value A ltac:(lia)) as [HnA HvA].
  destruct (of_int_value B ltac:(lia)) as [HnB HvB].
  destruct (of_int_value (A + B) ltac:(lia)) as [HnAB HvAB].
  assert (0 < 2 ^ 1074) as Hp by (apply pow2_gt0; lia).
  destruct (mul_between r (Double.of_int A) (Double.of_int 0)
              (Double.of_int A) Hnr HnA I HnA) as [Hnt Ht].
  { rewrite HvA. change (scaled (Double.of_int 0)) with 0. nia. }
  change (scaled (Double.of_int 0)) with 0 in Ht.
  split.
  - destruct (add_between (Double.mul r (Double.of_int A)) (Double.of_int B)
                (Double.of_int B) (Double.of_int (A + B)))
      as [Hns Hs]; try assumption; [lia |].
    apply between_scaled; assumption.
  - destruct (add_between (Double.of_int B) (Double.mul r (Double.of_int A))
                (Double.of_int B) (Double.of_int (A + B)))
      as [Hns Hs]; try assumption; [lia |].
    apply between_scaled; assumption.
Qed.

(** The opacity of a reset streak: a draw times 0.6 plus 0.4 lies in
    [[0.4, 1]]; the doubles of 0.6 and of 0.4 add up to 1 exactly. *)
Lemma opacity_range r :
  unit_interval r ->
  between (Double.literal 4 10) (Double.of_int 1)
    (Double.add (Double.mul r (Double.literal 6 10)) (Double.literal 4 10)).
Proof.
  intros Hr.
  destruct (unit_interval_scaled r Hr) as (Hnr & Hr0 & Hr1).
  change (Double.literal 6 10)
    with (S754_finite false 5404319552844595 (-53)).
  change (Double.literal 4 10)
    with (S754_finite false 7205759403792794 (-54)).
  change (Double.of_int 1) with (S754_finite false 4503599627370496 (-52)).
  set (c6 := S754_finite false 5404319552844595 (-53)).
  set (c4 := S754_finite false 7205759403792794 (-54)).
  set (c1 := S754_finite false 4503599627370496 (-52)).
  assert (nonneg c6) as Hn6 by reflexivity.
  assert (nonneg c4) as Hn4 by reflexivity.
  assert (nonneg c1) as Hn1 by reflexivity.
  assert (0 < 2 ^ 1020) as Hp by (apply pow2_gt0; lia).
  assert (scaled c6 = 10808639105689190 * 2 ^ 1020) as H6 by reflexivity.
  assert (scaled c4 = 7205759403792794 * 2 ^ 1020) as H4 by reflexivity.
  assert (scaled c1 = 18014398509481984 * 2 ^ 1020) as H1 by reflexivity.
  assert (2 ^ 1074 = 18014398509481984 * 2 ^ 1020) as HU by reflexivity.
  destruct (mul_between r c6 (S754_zero false) c6 Hnr Hn6 I Hn6)
    as [Hnt Ht].
  { change (scaled (S754_zero false)) with 0. rewrite HU in *. nia. }
  change (scaled (S754_zero false)) with 0 in Ht.
  destruct (add_between (Double.mul r c6) c4 c4 c1) as [Hns Hs];
    try assumption; [lia |].
  apply between_scaled; assumption.
Qed.

(** Rounding treats a negative number as the opposite of its
    magnitude. *)
Lemma binary_round_aux_opp M E l :
  binary_round_aux 53 1024 true M E l
  = SFopp (binary_round_aux 53 1024 false M E l).
Proof.
  unfold binary_round_aux.
  destruct (shr_fexp 53 1024 M E l) as [mrs e1].
  destruct (shr_fexp 53 1024 _ e1 loc_Exact) as [mrs2 e2].
  destruct (shr_m mrs2); try reflexivity.
  destruct (e2 <=? 1024 - 53); reflexivity.
Qed.

Lemma binary_round_opp s e :
  binary_round 53 1024 true s e = SFopp (binary_round 53 1024 false s e).
Proof.
  unfold binary_round.
  destruct (shl_align s e _) as [mz ez]. apply binary_round_aux_opp.
Qed.

Lemma of_int_opp R :
  0 < R -> Double.of_int (- R) = Double.neg (Double.of_int R).
Proof.
  intros HR. destruct R as [| p | p]; try lia.
  unfold Double.of_int, Double.neg, binary_normalize. simpl Z.opp.
  apply binary_round_opp.
Qed.

(** A positive double: finite, valid, and not zero. *)
Lemma positive_shape v :
  nonneg v -> 0 < scaled v ->
  exists m e, v = S754_finite false m e /\ bounded 53 1024 m e = true.
Proof.
  destruct v as [| | | [] m e]; simpl; intros Hn Hs; try lia;
    try contradiction.
  exists m, e. split; [reflexivity | exact Hn].
Qed.

Lemma le_opp a b :
  nonneg a -> nonneg b -> 0 < scaled a -> 0 < scaled b ->
  Double.le (Double.neg a) (Double.neg b) = Double.le b a.
Proof.
  intros Ha Hb Ha0 Hb0.
  destruct (positive_shape a Ha Ha0) as (ma & ea & -> & _).
  destruct (positive_shape b Hb Hb0) as (mb & eb & -> & _).
  unfold Double.le, Double.neg, SFleb. simpl.
  rewrite (Z.compare_antisym ea eb).
  destruct (ea ?= eb); simpl; try reflexivity.
  rewrite (Pos.compare_cont_antisym ma mb Eq). change (CompOpp Eq) with Eq.
  destruct (Pos.compare_cont Eq mb ma); reflexivity.
Qed.

Lemma le_neg_nonneg a v :
  nonneg a -> 0 < scaled a -> nonneg v ->
  Double.le (Double.neg a) v = true.
Proof.
  intros Ha Ha0 Hv.
  destruct (positive_shape a Ha Ha0) as (ma & ea & -> & _).
  destruct v as [| | | [] m e]; try contradiction; reflexivity.
Qed.

(** [-x - t] is the opposite of [x + t]. *)
Lemma sub_neg x t :
  nonneg x -> 0 < scaled x -> nonneg t ->
  Double.sub (Double.neg x) t = Double.neg (Double.add x t).
Proof.
  intros Hx Hx0 Ht.
  destruct (positive_shape x Hx Hx0) as (mx & ex & -> & _).
  destruct t as [st | | | [] mt et]; try contradiction; try reflexivity.
  unfold Double.sub, Double.neg, Double.add, SFsub, SFadd, SFopp, cond_Zopp.
  cbn [negb].
  set (a := fst (shl_align mx ex (Z.min ex et))).
  set (b := fst (shl_align mt et (Z.min ex et))).
  change (- Zpos a - Zpos b) with (Zneg (a + b)).
  change (Zpos a + Zpos b) with (Zpos (a + b)).
  unfold binary_normalize. apply binary_round_opp.
Qed.

(** The rise of a floating element: [-R - draw * 400] lies in
    [[-R - 400, -R]]. *)
Lemma rise_range r R :
  unit_interval r -> 0 < R -> R + 400 < 2 ^ 53 ->
  between (Double.of_int (- R - 400)) (Double.of_int (- R))
    (Double.sub (Double.neg (Double.of_int R))
       (Double.mul r (Double.of_int 400))).
Proof.
  intros Hr HR HR'.
  destruct (unit_interval_scaled r Hr) as (Hnr & Hr0 & Hr1).
  destruct (of_int_value R ltac:(lia)) as [HnR HvR].
  destruct (of_int_value 400 ltac:(lia)) as [Hn4 Hv4].
  destruct (of_int_value (R + 400) ltac:(lia)) as [HnR4 HvR4].
  assert (0 < 2 ^ 1074) as Hp by (apply pow2_gt0; lia).
  destruct (mul_between r (Double.of_int 400) (Double.of_int 0)
              (Double.of_int 400) Hnr Hn4 I Hn4) as [Hnt Ht].
  { rewrite Hv4. change (scaled (Double.of_int 0)) with 0. nia. }
  change (scaled (Double.of_int 0)) with 0 in Ht.
  destruct (add_between (Double.of_int R) (Double.mul r (Double.of_int 400))
              (Double.of_int R) (Double.of_int (R + 400)))
    as [Hns Hs]; try assumption; [lia |].
  rewrite sub_neg by (assumption || lia).
  replace (- R - 400) with (- (R + 400)) by lia.
  rewrite !of_int_opp by lia.
  split; rewrite le_opp by (assumption || lia);
    apply le_scaled; try assumption; lia.
Qed.

(** The sideways drift: [(draw - 0.5) * 100] lies in [[-50, 50]]. *)
Lemma drift_range r :
  unit_interval r ->
  between (Double.of_int (-50)) (Double.of_int 50)
    (Double.mul (Double.sub r (Double.literal 5 10)) (Double.of_int 100)).
Proof.
  intros Hr.
  destruct (unit_interval_scaled r Hr) as (Hnr & Hr0 & Hr1).
  change (Double.literal 5 10)
    with (S754_finite false 4503599627370496 (-53)).
  set (half := S754_finite false 4503599627370496 (-53)).
  assert (nonneg half) as Hnh by reflexivity.
  assert (scaled half = 2 ^ 1073) as Hvh by reflexivity.
  assert (2 ^ 1074 = 2 * 2 ^ 1073) as HU by reflexivity.
  assert (0 < 2 ^ 1073) as Hp by (apply pow2_gt0; lia).
  destruct (of_int_value 100 ltac:(lia)) as [Hn100 Hv100].
  destruct (of_int_value 50 ltac:(lia)) as [Hn50 Hv50].
  rewrite HU in *.
  destruct r as [sr | | | [] mr er]; try contradiction.
  { destruct sr; split; reflexivity. }
  simpl in Hnr. pose proof Hnr as Hbr. apply bounded_iff in Hbr.
  subst half. unfold Double.sub, SFsub, cond_Zopp. cbv beta iota zeta.
  set (ez := Z.min er (-53)).
  pose proof (shl_align_spec mr er ez) as [_ Ha].
  pose proof (shl_align_spec 4503599627370496 (-53) ez) as [_ Hb].
  set (a := fst (shl_align mr er ez)) in *.
  set (b := fst (shl_align 4503599627370496 (-53) ez)) in *.
  replace (Z.min er ez) with ez in Ha by lia.
  replace (Z.min (-53) ez) with ez in Hb by lia.
  assert (0 < 2 ^ (ez + 1074)) as Hpz by (apply pow2_gt0; lia).
  assert (Zpos a * 2 ^ (ez + 1074) = Zpos mr * 2 ^ (er + 1074)) as Hva.
  { rewrite Ha, <- Z.mul_assoc, <- pow2_split by lia.
    replace (er - ez + (ez + 1074)) with (er + 1074) by lia. reflexivity. }
  assert (Zpos b * 2 ^ (ez + 1074) = 2 ^ 1073) as Hvb.
  { rewrite Hb, <- Z.mul_assoc, <- pow2_split by lia.
    replace (-53 - ez + (ez + 1074)) with 1021 by lia. reflexivity. }
  change (scaled (S754_finite false mr er))
    with (Zpos mr * 2 ^ (er + 1074)) in Hr0, Hr1.
  set (smallest := S754_finite false 1 (-1074)).
  assert (nonneg smallest) as Hnsm by reflexivity.
  assert (scaled smallest = 1) as Hvsm by reflexivity.
  assert (nonneg (S754_finite false 4503599627370496 (-53))) as Hnh'
    by reflexivity.
  destruct (Zpos a - Zpos b) as [| p | p] eqn:Hd; unfold binary_normalize.
  - split; reflexivity.
  - assert (scaled (S754_zero false) <= Zpos p * 2 ^ (ez + 1074)
            <= scaled (S754_finite false 4503599627370496 (-53))) as Hbnd.
    { rewrite Hvh. change (scaled (S754_zero false)) with 0. nia. }
    destruct (binary_round_between p ez (S754_zero false)
                (S754_finite false 4503599627370496 (-53))
                ltac:(lia) I Hnh' Hbnd) as [Hnu Hu].
    change (scaled (S754_zero false)) with 0 in Hu. rewrite Hvh in Hu.
    assert (scaled (S754_zero false) * 2 ^ 1074
            <= scaled (binary_round 53 1024 false p ez)
               * scaled (Double.of_int 100)
            <= scaled (Double.of_int 50) * 2 ^ 1074) as Hbnd2.
    { rewrite Hv100, Hv50, HU. change (scaled (S754_zero false)) with 0.
      nia. }
    destruct (mul_between _ _ (S754_zero false) _ Hnu Hn100 I Hn50 Hbnd2)
      as [Hnv Hv].
    split.
    + change (Double.of_int (-50)) with (Double.neg (Double.of_int 50)).
      apply le_neg_nonneg; [assumption | lia | assumption].
    + apply le_scaled; [assumption .. | lia].
  - rewrite binary_round_opp.
    assert (scaled smallest <= Zpos p * 2 ^ (ez + 1074)
            <= scaled (S754_finite false 4503599627370496 (-53))) as Hbnd.
    { rewrite Hvh, Hvsm. nia. }
    destruct (binary_round_between p ez smallest
                (S754_finite false 4503599627370496 (-53))
                ltac:(lia) Hnsm Hnh' Hbnd) as [Hnu Hu].
    rewrite Hvh, Hvsm in Hu.
    destruct (positive_shape _ Hnu ltac:(lia)) as (mu & eu & Hshape & Hbu).
    rewrite Hshape in *.
    change (Double.of_int 100)
      with (S754_finite false 7036874417766400 (-46)) in *.
    unfold Double.mul, SFmul. cbn [SFopp negb xorb].
    rewrite binary_round_aux_opp.
    change (binary_round_aux 53 1024 false
              (Zpos (mu * 7036874417766400)) (eu + -46) loc_Exact)
      with (Double.mul (S754_finite false mu eu)
              (S754_finite false 7036874417766400 (-46))).
    assert (scaled smallest * 2 ^ 1074
            <= scaled (S754_finite false mu eu)
               * scaled (S754_finite false 7036874417766400 (-46))
            <= scaled (Double.of_int 50) * 2 ^ 1074) as Hbnd2.
    { rewrite Hv100, Hv50, Hvsm, HU. nia. }
    destruct (mul_between _ _ _ _ Hnu Hn100 Hnsm Hn50 Hbnd2) as [Hnv Hv].
    rewrite Hvsm, Hv50 in Hv.
    change (Double.of_int (-50)) with (Double.neg (Double.of_int 50)).
    change (SFopp ?v) with (Double.neg v).
    split.
    + unfold between. rewrite le_opp; try assumption; try lia.
      apply le_scaled; [assumption .. | lia].
    + apply le_neg_nonneg; [assumption | lia | assumption].
Qed.

(** ** Shooting stars *)

Section StarProperties.
Import Double Star.

Variable c : canvas.
Variable s : star.
Variable g : rng.

Lemma update_unfold :
  update c s g
  = if exceeds c s then reset c (advanced s) g else (advanced s, g).
Proof.
  unfold update, exceeds, advanced. simpl.
  destruct (gt _ _ || gt _ _); reflexivity.
Qed.

(** Where [reset] puts a streak on a canvas of positive size. *)
Lemma reset_in_top_half (s0 : star) (g0 : rng) :
  (forall n, unit_interval (draws g0 n)) ->
  0 < width c < 2 ^ 53 -> 0 < height c < 2 ^ 53 ->
  in_top_half c (reset c s0 g0).1.
Proof.
  intros Hdraw Hw Hh. unfold in_top_half. simpl.
  destruct (draw_times_below _ _ (Hdraw (next g0)) Hw) as (_ & _ & Hx0 & Hx1).
  destruct (half_draw_times_below _ _ (Hdraw (S (next g0))) Hh)
    as (_ & Hy0 & Hy1 & _).
  split; [exact Hx0 |]. split; [exact Hx1 |]. split; [exact Hy0 | exact Hy1].
Qed.

(** C4.  One [update] adds [speed] to [x] and [speed * 0.3] to [y], in
    the arithmetic of doubles.  If the new position is within the canvas
    (neither [x > width] nor [y > height]) that is the result, with
    length, speed and opacity unchanged and no random number drawn.  If
    [x > width] or [y > height] the same call resets the streak from the
    next five draws of [Math.random], in this order: [x] is the first
    draw times the width, [y] the second times the height, over 2,
    [length] the third times 100 plus 50, [speed] the fourth times 6 plus
    4, [opacity] the fifth times 0.6 plus 0.4.  With every draw a double
    in [[0, 1)] and a canvas of positive width and height (integers, so
    below 2^53), the reset streak satisfies [0 <= x < width] and
    [0 <= y < height / 2] also after rounding, so after [update] the
    position is within those bounds or is the advanced old position. *)
Theorem update_advances_or_resets :
  (exceeds c s = false ->
     update c s g = (advanced s, g) /\
     x (update c s g).1 = add (x s) (speed s) /\
     y (update c s g).1 = add (y s) (mul (speed s) (literal 3 10))) /\
  (exceeds c s = true ->
     (update c s g).2 = {| draws := draws g; next := (5 + next g)%nat |} /\
     x (update c s g).1 = mul (draws g (next g)) (of_int (width c)) /\
     y (update c s g).1
     = div (mul (draws g (1 + next g)%nat) (of_int (height c))) (of_int 2) /\
     length (update c s g).1
     = add (mul (draws g (2 + next g)%nat) (of_int 100)) (of_int 50) /\
     speed (update c s g).1
     = add (mul (draws g (3 + next g)%nat) (of_int 6)) (of_int 4) /\
     opacity (update c s g).1
     = add (mul (draws g (4 + next g)%nat) (literal 6 10)) (literal 4 10)) /\
  ((forall n, unit_interval (draws g n)) ->
   0 < width c < 2 ^ 53 -> 0 < height c < 2 ^ 53 ->
   (exceeds c s = true ->
      le (of_int 0) (x (update c s g).1) = true /\
      lt (x (update c s g).1) (of_int (width c)) = true /\
      le (of_int 0) (y (update c s g).1) = true /\
      lt (y (update c s g).1) (div (of_int (height c)) (of_int 2)) = true) /\
   (in_top_half c (update c s g).1 \/
    (x (update c s g).1 = add (x s) (speed s) /\
     y (update c s g).1 = add (y s) (mul (speed s) (literal 3 10))))).
Proof.
  split; [| split].
  - intros He. rewrite update_unfold, He. repeat split.
  - intros He. rewrite update_unfold, He. repeat split.
  - intros Hdraw Hw Hh.
    assert (exceeds c s = true -> in_top_half c (update c s g).1) as Hreset.
    { intros He. rewrite update_unfold, He.
      apply reset_in_top_half; assumption. }
    split.
    + intros He. exact (Hreset He).
    + destruct (exceeds c s) eqn:He.
      * left. apply Hreset. reflexivity.
      * right. rewrite update_unfold, He. split; reflexivity.
Qed.

End StarProperties.

(** The literals are the doubles nearest to the decimals they
    denote. *)
Example literals :
  Double.literal 3 10 = S754_finite false 5404319552844595 (-54) /\
  Double.literal 6 10 = S754_finite false 5404319552844595 (-53) /\
  Double.literal 4 10 = S754_finite false 7205759403792794 (-54) /\
  Double.literal 5 10 = S754_finite false 4503599627370496 (-53) /\
  Double.of_int 800 = S754_finite false 7036874417766400 (-43).
Proof. repeat split. Qed.

Example update_inside :
  (Star.update canvas_800_600 crossing always_half).1
  = {| Star.x := Double.of_int 110; Star.y := Double.of_int 103;
       Star.length := Double.of_int 60; Star.speed := Double.of_int 10;
       Star.opacity := Double.literal 5 10 |}.
Proof. vm_compute. reflexivity. Qed.

Example update_outside :
  (Star.update canvas_800_600 leaving always_half).1
  = {| Star.x := Double.of_int 400; Star.y := Double.of_int 150;
       Star.length := Double.of_int 100; Star.speed := Double.of_int 7;
       Star.opacity := Double.literal 7 10 |}.
Proof. vm_compute. reflexivity. Qed.

(** In doubles the sum is rounded: from [x = 796] a speed of
    [4 + 2^-50] gives exactly 800, which is not past an edge at 800, and
    the streak is not reset. *)
Example update_rounds_to_the_edge :
  exceeds canvas_800_600
    {| Star.x := Double.of_int 796; Star.y := Double.of_int 100;
       Star.length := Double.of_int 60;
       Star.speed := S754_finite false 4503599627370497 (-50);
       Star.opacity := Double.literal 5 10 |}
  = false.
Proof. vm_compute. reflexivity. Qed.

(** The largest draw, [1 - 2^-53], gives a length of exactly 150 and a
    speed of exactly 10, but an [x] below the width. *)
Example largest_draw :
  Double.add (Double.mul (S754_finite false 9007199254740991 (-53))
                (Double.of_int 100)) (Double.of_int 50)
  = Double.of_int 150 /\
  Double.add (Double.mul (S754_finite false 9007199254740991 (-53))
                (Double.of_int 6)) (Double.of_int 4)
  = Double.of_int 10 /\
  Double.lt (Double.mul (S754_finite false 9007199254740991 (-53))
               (Double.of_int 800)) (Double.of_int 800) = true.
Proof. repeat split. Qed.

Lemma always_half_unit : forall n, unit_interval (Star.draws always_half n).
Proof. intros n. repeat split. Qed.

Lemma update_advances_or_resets_witness :
  (forall n, unit_interval (Star.draws always_half n)) /\
  0 < Star.width canvas_800_600 < 2 ^ 53 /\
  0 < Star.height canvas_800_600 < 2 ^ 53 /\
  exceeds canvas_800_600 leaving = true /\
  Double.le (Double.of_int 0)
    (Star.x (Star.update canvas_800_600 leaving always_half).1) = true /\
  Double.lt (Star.x (Star.update canvas_800_600 leaving always_half).1)
    (Double.of_int (Star.width canvas_800_600)) = true /\
  Double.le (Double.of_int 0)
    (Star.y (Star.update canvas_800_600 leaving always_half).1) = true /\
  Double.lt (Star.y (Star.update canvas_800_600 leaving always_half).1)
    (Double.div (Double.of_int (Star.height canvas_800_600))
       (Double.of_int 2)) = true.
Proof.
  split; [exact always_half_unit |].
  split; [split; reflexivity |]. split; [split; reflexivity |].
  split; [reflexivity |].
  destruct (update_advances_or_resets canvas_800_600 leaving always_half)
    as (_ & _ & Hbounds).
  destruct (Hbounds always_half_unit
              (conj eq_refl eq_refl) (conj eq_refl eq_refl)) as (Hreset & _).
  exact (Hreset eq_refl).
Defined.

(** * Further properties *)

(** ** Scroll navigation: the observer, and navigation as a whole *)

Section NavMore.
Import Nav.

Variable p : page.

Lemma indexOf_range (arr : list element) (t : element) :
  -1 <= indexOf arr t < len arr.
Proof.
  unfold len. induction arr as [| e rest IH]; simpl; [lia |].
  destruct (Nat.eqb e t); [lia |].
  destruct (Z.ltb_spec (indexOf rest t) 0); lia.
Qed.

Lemma at_index_cons {A} (a : A) (arr : list A) (i : Z) :
  0 <= i -> at_index (a :: arr) (i + 1) = at_index arr i.
Proof.
  intros Hi. unfold at_index.
  destruct (Z.ltb_spec (i + 1) 0); [lia |].
  destruct (Z.ltb_spec i 0); [lia |].
  replace (Z.to_nat (i + 1)) with (S (Z.to_nat i)) by lia. reflexivity.
Qed.

Lemma indexOf_missing (arr : list element) (t : element) :
  indexOf arr t < 0 <-> t ∉ arr.
Proof.
  induction arr as [| e rest IH]; simpl.
  - split; [intros _; apply not_elem_of_nil | lia].
  - destruct (Nat.eqb_spec e t) as [-> | Hne].
    + split; [lia | intros Hnot; exfalso; apply Hnot; left].
    + rewrite not_elem_of_cons.
      pose proof (indexOf_range rest t).
      destruct (Z.ltb_spec (indexOf rest t) 0); split.
      * intros _. split; [congruence | apply IH; assumption].
      * lia.
      * lia.
      * intros [_ Hnot]. apply IH in Hnot. lia.
Qed.

Lemma indexOf_first (arr : list element) (t : element) :
  0 <= indexOf arr t ->
  at_index arr (indexOf arr t) = Some t /\
  forall j, 0 <= j < indexOf arr t -> at_index arr j <> Some t.
Proof.
  induction arr as [| e rest IH]; simpl; [lia |].
  destruct (Nat.eqb_spec e t) as [-> | Hne].
  - intros _. split; [reflexivity | lia].
  - destruct (Z.ltb_spec (indexOf rest t) 0); [lia |]. intros _.
    destruct IH as [Hat Hfirst]; [lia |]. split.
    + rewrite at_index_cons by lia. exact Hat.
    + intros j Hj. destruct (Z.eq_dec j 0) as [-> | Hj0].
      * unfold at_index. simpl. congruence.
      * replace j with ((j - 1) + 1) by lia.
        rewrite at_index_cons by lia. apply Hfirst. lia.
Qed.

Lemma indexOf_present (arr : list element) (t : element) :
  t ∈ arr -> 0 <= indexOf arr t.
Proof.
  intros Hin.
  destruct (Z.ltb_spec (indexOf arr t) 0) as [Hneg |]; [| assumption].
  apply indexOf_missing in Hneg. contradiction.
Qed.

(** [indexOf] finds the first occurrence: for an element of the
    array it returns a valid position that holds the element and that no
    earlier position holds, and for any other element it returns -1. *)
Lemma indexOf_first_occurrence (arr : list element) (t : element) :
  (t ∈ arr ->
     0 <= indexOf arr t < len arr /\
     at_index arr (indexOf arr t) = Some t /\
     forall j, 0 <= j < indexOf arr t -> at_index arr j <> Some t) /\
  (t ∉ arr -> indexOf arr t = -1).
Proof.
  pose proof (indexOf_range arr t) as Hrange. split.
  - intros Hin. pose proof (indexOf_present arr t Hin) as Hpos.
    split; [lia |]. apply indexOf_first. assumption.
  - intros Hnot. apply indexOf_missing in Hnot. lia.
Qed.

Lemma observe_entry_silent (st : state) (e : entry) :
  reports p e = false -> observe_entry p st e = st.
Proof.
  unfold reports, observe_entry. destruct (isIntersecting e); [| reflexivity].
  simpl. intros Hnot. apply bool_decide_eq_false in Hnot.
  apply indexOf_missing in Hnot.
  destruct (Z.geb_spec (indexOf (sections p) (target e)) 0); [lia |].
  reflexivity.
Qed.

Lemma observe_entry_moves (st : state) (e : entry) :
  reports p e = true ->
  observe_entry p st e
  = {| currentIndex := indexOf (sections p) (target e);
       scrollRequests := scrollRequests st;
       obs := obs st; console := console st |}.
Proof.
  unfold reports, observe_entry. destruct (isIntersecting e); [| discriminate].
  simpl. intros Hin. apply bool_decide_eq_true in Hin.
  apply indexOf_present in Hin.
  destruct (Z.geb_spec (indexOf (sections p) (target e)) 0); [| lia].
  reflexivity.
Qed.

Lemma observer_callback_silent (entries : list entry) (st : state) :
  Forall (fun e => reports p e = false) entries ->
  observer_callback p entries st = st.
Proof.
  unfold observer_callback. intros Hall. revert st.
  induction Hall as [| e rest He _ IH]; intros st; simpl; [reflexivity |].
  rewrite (observe_entry_silent st e He). apply IH.
Qed.

(** The observer writes [currentIndex] and nothing else. *)
Lemma observer_callback_keeps (entries : list entry) (st : state) :
  scrollRequests (observer_callback p entries st) = scrollRequests st /\
  obs (observer_callback p entries st) = obs st /\
  console (observer_callback p entries st) = console st.
Proof.
  unfold observer_callback. revert st.
  induction entries as [| e0 es IH]; intros st0; simpl; [repeat split |].
  destruct (IH (observe_entry p st0 e0)) as (-> & -> & ->).
  unfold observe_entry. destruct (isIntersecting e0); [| repeat split].
  destruct (indexOf (sections p) (target e0) >=? 0); repeat split.
Qed.

(** X1.  The section observer lets the last reported section win: after
    a batch, [currentIndex] is the first position of the target of the
    last entry that is intersecting and is a section, whatever came before
    it; a batch without such an entry changes nothing; and the observer
    never scrolls or logs. *)
Theorem observer_last_report_wins
    (earlier later : list entry) (e : entry) (st : state) :
  (Forall (fun e' => reports p e' = false) later ->
     observer_callback p later st = st) /\
  (reports p e = true ->
   Forall (fun e' => reports p e' = false) later ->
     observer_callback p (earlier ++ e :: later) st
     = {| currentIndex := indexOf (sections p) (target e);
          scrollRequests := scrollRequests st;
          obs := obs st; console := console st |} /\
     at_index (sections p) (indexOf (sections p) (target e))
     = Some (target e)) /\
  scrollRequests (observer_callback p earlier st) = scrollRequests st /\
  console (observer_callback p earlier st) = console st.
Proof.
  pose proof observer_callback_keeps as Hkeep.
  split; [apply observer_callback_silent |].
  split; [| destruct (Hkeep earlier st) as (? & _ & ?); split; assumption].
  intros He Hlater. split.
  - unfold observer_callback. rewrite foldl_app. simpl.
    fold (observer_callback p earlier st).
    rewrite (observe_entry_moves _ e He).
    destruct (Hkeep earlier st) as (-> & -> & ->).
    apply (observer_callback_silent later). exact Hlater.
  - unfold reports in He. apply andb_true_iff in He as [_ Hin].
    apply bool_decide_eq_true in Hin.
    apply indexOf_first, indexOf_present. exact Hin.
Qed.

Lemma observer_callback_in_range (entries : list entry) (st : state) :
  index_in_range p st -> index_in_range p (observer_callback p entries st).
Proof.
  unfold observer_callback. revert st.
  induction entries as [| e rest IH]; intros st Hst; simpl; [assumption |].
  apply IH. unfold observe_entry.
  destruct (isIntersecting e); [| assumption].
  pose proof (indexOf_range (sections p) (target e)) as Hrange.
  destruct (Z.geb_spec (indexOf (sections p) (target e)) 0); [| assumption].
  unfold index_in_range. simpl. lia.
Qed.

Lemma goTo_in_range (index : Z) (st : state) :
  index_in_range p st ->
  exists st', goTo p index st = Ok st' /\ index_in_range p st' /\
              console st' = console st.
Proof.
  intros Hst. destruct (decide (sections p = [])) as [Hnil | Hne].
  - exists st. rewrite goTo_no_sections by assumption.
    repeat split; apply Hst.
  - destruct (goTo_navigates p index st Hne) as (st' & Hgo & t & _ & ->).
    eexists. split; [exact Hgo |]. split; [| reflexivity].
    pose proof (clamp_index_range p index Hne).
    unfold index_in_range. simpl. lia.
Qed.

Lemma dispatch_in_range (ev : event) (st : state) :
  index_in_range p st ->
  exists st', dispatch p ev st = Ok st' /\ index_in_range p st' /\
              console st' = console st.
Proof.
  intros Hst.
  assert (exists st', Ok st = Ok st' /\ index_in_range p st' /\
                      console st' = console st) as Hkeep
    by (exists st; split; [reflexivity | split; [assumption | reflexivity]]).
  destruct ev as [ | | key | entries]; simpl.
  - destruct (nextBtn p); [apply goTo_in_range |]; assumption.
  - destruct (prevBtn p); [apply goTo_in_range |]; assumption.
  - unfold keydown.
    destruct (String.eqb key "ArrowDown" || String.eqb key "PageDown").
    + destruct (goTo_in_range (currentIndex st + 1) st Hst)
        as (st1 & -> & Hst1 & Hc1). simpl.
      destruct (String.eqb key "ArrowUp" || String.eqb key "PageUp").
      * destruct (goTo_in_range (currentIndex st1 - 1) st1 Hst1)
          as (st2 & -> & Hst2 & Hc2).
        exists st2. split; [reflexivity |]. split; [assumption | congruence].
      * exists st1. split; [reflexivity |]. split; assumption.
    + simpl.
      destruct (String.eqb key "ArrowUp" || String.eqb key "PageUp");
        [apply goTo_in_range |]; assumption.
  - destruct (obs st); [| assumption].
    eexists. split; [reflexivity |].
    split; [apply observer_callback_in_range; assumption |].
    apply observer_callback_keeps.
Qed.

(** X2.  Whatever the page and whatever the sequence of clicks, key
    presses and observer notifications after load, no handler throws,
    [currentIndex] stays a valid position of the section list (0 when
    there is none), and nothing is logged beyond what initialisation
    logged. *)
Theorem navigation_never_throws (evs : list event) :
  exists st,
    run p evs (init p) = Ok st /\
    index_in_range p st /\
    console st = console (init p).
Proof.
  assert (index_in_range p (init p)) as Hinit.
  { unfold index_in_range, init.
    destruct (len (sections p) =? 0); simpl; lia. }
  revert Hinit. generalize (init p) as st0.
  induction evs as [| ev rest IH]; intros st0 Hst0; simpl.
  - exists st0. split; [reflexivity |]. split; [assumption | reflexivity].
  - destruct (dispatch_in_range ev st0 Hst0) as (st1 & -> & Hst1 & Hc1).
    simpl. destruct (IH st1 Hst1) as (st & Hrun & Hst & Hc).
    exists st. split; [assumption |]. split; [assumption | congruence].
Qed.

Lemma run_app (evs1 evs2 : list event) (st : state) :
  run p (evs1 ++ evs2) st = (st1 ← run p evs1 st; run p evs2 st1).
Proof.
  revert st. induction evs1 as [| ev rest IH]; intros st; simpl;
    [reflexivity |].
  destruct (dispatch p ev st) as [st1 | err]; simpl; [apply IH | reflexivity].
Qed.

(** X3.  On a page with sections and with its buttons, [k] clicks on
    next from a valid position [i] end on [min (i + k) (count - 1)] and
    [k] clicks on previous end on [max (i - k) 0]: navigation saturates at
    both ends.  Every one of the clicks requests a scroll, also those that
    leave the position where it is. *)
Theorem repeated_clicks_saturate (k : nat) (st : state) :
  sections p <> [] ->
  0 <= currentIndex st <= len (sections p) - 1 ->
  (is_Some (nextBtn p) ->
     exists st',
       run p (replicate k NextClick) st = Ok st' /\
       currentIndex st'
       = Z.min (currentIndex st + Z.of_nat k) (len (sections p) - 1) /\
       length (scrollRequests st') = (length (scrollRequests st) + k)%nat) /\
  (is_Some (prevBtn p) ->
     exists st',
       run p (replicate k PrevClick) st = Ok st' /\
       currentIndex st' = Z.max (currentIndex st - Z.of_nat k) 0 /\
       length (scrollRequests st') = (length (scrollRequests st) + k)%nat).
Proof.
  intros Hne. revert st. induction k as [| k IH]; intros st Hst.
  - split; intros _; exists st; simpl;
      (split; [reflexivity |]); (split; lia).
  - split; intros [b Hb].
    + destruct (goTo_navigates p (currentIndex st + 1) st Hne)
        as (st1 & Hgo & t & _ & Hst1).
      assert (0 <= currentIndex st1 <= len (sections p) - 1) as Hr1.
      { rewrite Hst1. simpl. apply clamp_index_range. assumption. }
      destruct (IH st1 Hr1) as [Hnext _].
      destruct Hnext as (st' & Hrun & Hidx & Hscr); [eauto |].
      exists st'. simpl. rewrite Hb, Hgo. simpl.
      split; [exact Hrun |]. rewrite Hidx, Hscr, Hst1. simpl.
      rewrite length_app. simpl. unfold clamp_index. split; lia.
    + destruct (goTo_navigates p (currentIndex st - 1) st Hne)
        as (st1 & Hgo & t & _ & Hst1).
      assert (0 <= currentIndex st1 <= len (sections p) - 1) as Hr1.
      { rewrite Hst1. simpl. apply clamp_index_range. assumption. }
      destruct (IH st1 Hr1) as [_ Hprev].
      destruct Hprev as (st' & Hrun & Hidx & Hscr); [eauto |].
      exists st'. simpl. rewrite Hb, Hgo. simpl.
      split; [exact Hrun |]. rewrite Hidx, Hscr, Hst1. simpl.
      rewrite length_app. simpl. unfold clamp_index. split; lia.
Qed.

(** X4.  From a valid position [i] on a page with sections and both
    buttons, next followed by previous ends on [i] when [i] is below the
    last section and on [max 0 (count - 2)] from the last; so it returns
    to [i] exactly when [i] is not the last section or the page has a
    single section.  Previous followed by next ends on [i] when [i] is
    above the first section and on [min 1 (count - 1)] from the first; it
    returns to [i] exactly when [i] is not the first section or the page
    has a single section. *)
Theorem next_prev_round_trip (st : state) :
  sections p <> [] ->
  0 <= currentIndex st <= len (sections p) - 1 ->
  is_Some (nextBtn p) -> is_Some (prevBtn p) ->
  (exists st',
      run p [NextClick; PrevClick] st = Ok st' /\
      currentIndex st'
      = (if currentIndex st <? len (sections p) - 1
         then currentIndex st
         else Z.max 0 (len (sections p) - 2)) /\
      (currentIndex st' = currentIndex st <->
       currentIndex st < len (sections p) - 1 \/ len (sections p) = 1)) /\
  (exists st',
      run p [PrevClick; NextClick] st = Ok st' /\
      currentIndex st'
      = (if 0 <? currentIndex st
         then currentIndex st
         else Z.min 1 (len (sections p) - 1)) /\
      (currentIndex st' = currentIndex st <->
       0 < currentIndex st \/ len (sections p) = 1)).
Proof.
  intros Hne Hst [bn Hn] [bp Hp]. split.
  - destruct (goTo_navigates p (currentIndex st + 1) st Hne)
      as (st1 & Hgo1 & t1 & _ & Hst1).
    destruct (goTo_navigates p (currentIndex st1 - 1) st1 Hne)
      as (st2 & Hgo2 & t2 & _ & Hst2).
    exists st2. simpl. rewrite Hn, Hgo1. simpl. rewrite Hp, Hgo2. simpl.
    split; [reflexivity |]. rewrite Hst2. simpl. rewrite Hst1. simpl.
    unfold clamp_index.
    destruct (Z.ltb_spec (currentIndex st) (len (sections p) - 1)); lia.
  - destruct (goTo_navigates p (currentIndex st - 1) st Hne)
      as (st1 & Hgo1 & t1 & _ & Hst1).
    destruct (goTo_navigates p (currentIndex st1 + 1) st1 Hne)
      as (st2 & Hgo2 & t2 & _ & Hst2).
    exists st2. simpl. rewrite Hp, Hgo1. simpl. rewrite Hn, Hgo2. simpl.
    split; [reflexivity |]. rewrite Hst2. simpl. rewrite Hst1. simpl.
    unfold clamp_index.
    destruct (Z.ltb_spec 0 (currentIndex st)); lia.
Qed.

End NavMore.

Example indexOf_of_a_repeated_section :
  Nav.indexOf (Nav.sections repeated_section) 10%nat = 0 /\
  Nav.indexOf (Nav.sections repeated_section) 11%nat = 1 /\
  Nav.indexOf (Nav.sections repeated_section) 12%nat = -1.
Proof. repeat split. Qed.

Lemma observer_last_report_wins_witness :
  reports three_sections
    {| Nav.target := 12%nat; Nav.isIntersecting := true |} = true /\
  Nav.currentIndex
    (Nav.observer_callback three_sections
       [ {| Nav.target := 11%nat; Nav.isIntersecting := true |};
         {| Nav.target := 12%nat; Nav.isIntersecting := true |};
         {| Nav.target := 10%nat; Nav.isIntersecting := false |};
         {| Nav.target := 77%nat; Nav.isIntersecting := true |} ]
       (Nav.init three_sections))
  = 2.
Proof.
  split; [reflexivity |].
  destruct (observer_last_report_wins three_sections
              [ {| Nav.target := 11%nat; Nav.isIntersecting := true |} ]
              [ {| Nav.target := 10%nat; Nav.isIntersecting := false |};
                {| Nav.target := 77%nat; Nav.isIntersecting := true |} ]
              {| Nav.target := 12%nat; Nav.isIntersecting := true |}
              (Nav.init three_sections)) as (_ & Hwins & _).
  destruct Hwins as [Hcallback _];
    [reflexivity | repeat constructor |].
  simpl app in Hcallback. rewrite Hcallback. reflexivity.
Defined.

Lemma repeated_clicks_saturate_witness :
  Nav.sections three_sections <> [] /\
  0 <= Nav.currentIndex (Nav.init three_sections)
    <= len (Nav.sections three_sections) - 1 /\
  is_Some (Nav.nextBtn three_sections) /\
  exists st',
    Nav.run three_sections (replicate 5 Nav.NextClick)
      (Nav.init three_sections) = Ok st' /\
    Nav.currentIndex st'
    = Z.min (Nav.currentIndex (Nav.init three_sections) + Z.of_nat 5)
        (len (Nav.sections three_sections) - 1) /\
    length (Nav.scrollRequests st')
    = (length (Nav.scrollRequests (Nav.init three_sections)) + 5)%nat.
Proof.
  split; [discriminate |]. split; [vm_compute; split; discriminate |].
  split; [eexists; reflexivity |].
  apply (repeated_clicks_saturate three_sections 5 (Nav.init three_sections));
    [discriminate | vm_compute; split; discriminate | eexists; reflexivity].
Defined.

Example round_trip_on_a_single_section :
  Nav.currentIndex <$>
    match Nav.run one_section [Nav.NextClick; Nav.PrevClick]
            (Nav.init one_section) with
    | Ok st => Some st
    | Throw _ => None
    end
  = Some 0.
Proof. reflexivity. Qed.

Lemma next_prev_round_trip_witness :
  Nav.sections three_sections <> [] /\
  0 <= Nav.currentIndex (Nav.init three_sections)
    <= len (Nav.sections three_sections) - 1 /\
  is_Some (Nav.nextBtn three_sections) /\
  is_Some (Nav.prevBtn three_sections) /\
  exists st',
    Nav.run three_sections [Nav.NextClick; Nav.PrevClick]
      (Nav.init three_sections) = Ok st' /\
    Nav.currentIndex st'
    = (if Nav.currentIndex (Nav.init three_sections)
          <? len (Nav.sections three_sections) - 1
       then Nav.currentIndex (Nav.init three_sections)
       else Z.max 0 (len (Nav.sections three_sections) - 2)) /\
    (Nav.currentIndex st' = Nav.currentIndex (Nav.init three_sections) <->
     Nav.currentIndex (Nav.init three_sections)
     < len (Nav.sections three_sections) - 1
     \/ len (Nav.sections three_sections) = 1).
Proof.
  split; [discriminate |]. split; [vm_compute; split; discriminate |].
  split; [eexists; reflexivity |]. split; [eexists; reflexivity |].
  apply (next_prev_round_trip three_sections (Nav.init three_sections));
    [discriminate | vm_compute; split; discriminate
    | eexists; reflexivity | eexists; reflexivity].
Defined.


(** ** Background audio: the controls as a whole *)

Section AudioPageProperties.
Import Audio.

Variable parseFloat : string -> number.

(** Clicks, touches and settlements never write the audio element or the
    slider. *)
Lemma dispatch_keeps_audio (ev : Audio.event) (st : state) :
  audio (Audio.dispatch ev st) = audio st /\
  volumeSlider (Audio.dispatch ev st) = volumeSlider st.
Proof.
  destruct st as [a b t s flag c1 c2 cs ps].
  destruct ev as [tg | | o]; simpl.
  - unfold document_click, tryAutoplayAudio, musicToggle_click,
      audioPlayBtn_click. simpl.
    destruct c1, a, tg, t, b, flag; split; reflexivity.
  - unfold document_touchstart, tryAutoplayAudio. simpl.
    destruct c2, a; split; reflexivity.
  - unfold settle. simpl.
    destruct ps as [| [] rest], o; split; reflexivity.
Qed.

Lemma input_in_range (value : string) (st : state) :
  volume_in_range st ->
  exists st',
    volumeSlider_input parseFloat value st = Ok st' /\
    volume_in_range st' /\
    (is_Some (audio st') <-> is_Some (audio st)) /\
    audioPlayBtn st' = audioPlayBtn st /\
    musicToggle st' = musicToggle st /\
    volumeSlider st' = volumeSlider st /\
    musicPlaying st' = musicPlaying st /\
    calls st' = calls st /\
    pending st' = pending st.
Proof.
  intros Hst. unfold volumeSlider_input.
  destruct (audio st) as [a |] eqn:Ha;
    [| exists st; rewrite Ha; repeat split; tauto].
  destruct (Number_isNaN (parseFloat value)) eqn:Hnan; simpl;
    [exists st; rewrite Ha; repeat split; tauto |].
  destruct (clamp01_range (parseFloat value) Hnan) as [Hlo Hhi].
  unfold set_volume. fold (clamp01 (parseFloat value)). rewrite Hlo, Hhi.
  eexists. split; [reflexivity |].
  split; [split; assumption |]. simpl. repeat split; eauto.
Qed.

Lemma page_dispatch_in_range (ev : AudioPage.event) (st : state) :
  volume_in_range st ->
  exists st',
    AudioPage.dispatch parseFloat ev st = Ok st' /\
    volume_in_range st' /\
    (is_Some (audio st') <-> is_Some (audio st)).
Proof.
  intros Hst. destruct ev as [ev | value]; simpl.
  - eexists. split; [reflexivity |].
    destruct (dispatch_keeps_audio ev st) as [Ha _].
    unfold volume_in_range. rewrite Ha. split; [exact Hst | reflexivity].
  - destruct (volumeSlider st).
    + destruct (input_in_range value (AudioPage.slide value st) Hst)
        as (st' & Hin & Hr & Ha & _).
      exists st'. repeat split; tauto.
    + exists st. repeat split; tauto.
Qed.

(** X5.  Whatever elements the page has and whatever the user does after
    load (clicks, touches, slider inputs with any value, promises settling
    either way), no handler throws and the volume of the audio element
    stays between 0 and 1; the volume setter, which throws outside that
    range, is never given such a value. *)
Theorem audio_controls_never_throw
    (has_audio : bool) (playBtn toggle slider : option string)
    (evs : list AudioPage.event) :
  exists st,
    AudioPage.run parseFloat evs (init has_audio playBtn toggle slider)
    = Ok st /\
    volume_in_range st /\
    (is_Some (audio st) <-> has_audio = true).
Proof.
  assert (volume_in_range (init has_audio playBtn toggle slider)) as Hinit.
  { unfold volume_in_range, init. destruct has_audio; simpl;
      [split; reflexivity | exact I]. }
  assert (is_Some (audio (init has_audio playBtn toggle slider))
          <-> has_audio = true) as Haudio.
  { destruct has_audio; simpl; split; intros H; try reflexivity; eauto.
    - destruct H as [? H]. discriminate.
    - discriminate. }
  revert Hinit Haudio.
  generalize (init has_audio playBtn toggle slider) as st0.
  induction evs as [| ev rest IH]; intros st0 Hst0 Ha0; simpl.
  - exists st0. split; [reflexivity |]. split; assumption.
  - destruct (page_dispatch_in_range ev st0 Hst0) as (st1 & -> & Hst1 & Ha1).
    simpl. apply IH; [assumption | tauto].
Qed.

(** Without an audio element and with no promise pending, an event can
    only remove a once-listener, and an input leaves in the slider the
    value the user gave it. *)
Lemma page_dispatch_without_audio (ev : AudioPage.event) (st : state) :
  audio st = None -> pending st = [] ->
  exists st',
    AudioPage.dispatch parseFloat ev st = Ok st' /\
    audio st' = None /\ calls st' = calls st /\ pending st' = [] /\
    musicPlaying st' = musicPlaying st /\
    audioPlayBtn st' = audioPlayBtn st /\
    musicToggle st' = musicToggle st /\
    volumeSlider st' = slider_after (volumeSlider st) [ev].
Proof.
  intros Ha Hp. destruct st as [a b t s flag c1 c2 cs ps].
  simpl in Ha, Hp. subst a ps.
  destruct ev as [[tg | | o] | value]; simpl.
  - unfold document_click. simpl. destruct c1; simpl;
      destruct tg; simpl; try destruct t; try destruct b;
      eexists; repeat split; reflexivity.
  - unfold document_touchstart. simpl.
    destruct c2; eexists; repeat split; reflexivity.
  - eexists; repeat split; reflexivity.
  - destruct s; eexists; repeat split; reflexivity.
Qed.

(** X6.  On a page without the audio element every audio control is
    inert, whatever the user does: no handler throws, [play()] and
    [pause()] are never called, no promise is pending, the flag stays
    false, and the play button and the toggle glyph keep what they had at
    load.  The script writes nothing to the slider either: it shows the
    value the user last gave it, or its value at load if there was no
    input. *)
Theorem audio_controls_inert_without_audio
    (playBtn toggle slider : option string) (evs : list AudioPage.event) :
  exists st,
    AudioPage.run parseFloat evs (init false playBtn toggle slider) = Ok st /\
    audio st = None /\
    calls st = [] /\
    pending st = [] /\
    musicPlaying st = false /\
    audioPlayBtn st = playBtn /\
    musicToggle st = toggle /\
    volumeSlider st = slider_after slider evs.
Proof.
  assert (forall st0,
             audio st0 = None -> pending st0 = [] ->
             exists st,
               AudioPage.run parseFloat evs st0 = Ok st /\
               audio st = None /\ calls st = calls st0 /\ pending st = [] /\
               musicPlaying st = musicPlaying st0 /\
               audioPlayBtn st = audioPlayBtn st0 /\
               musicToggle st = musicToggle st0 /\
               volumeSlider st = slider_after (volumeSlider st0) evs)
    as Hgen.
  { induction evs as [| ev rest IH]; intros st0 Ha Hp; simpl.
    - exists st0. repeat split; assumption.
    - destruct (page_dispatch_without_audio ev st0 Ha Hp)
        as (st1 & -> & Ha1 & Hc1 & Hp1 & Hf1 & Hb1 & Ht1 & Hs1). simpl.
      destruct (IH st1 Ha1 Hp1)
        as (st & Hrun & Ha' & Hc' & Hp' & Hf' & Hb' & Ht' & Hs').
      exists st. split; [exact Hrun |].
      simpl in Hs1. unfold slider_after in *. rewrite <- Hs1.
      repeat split; congruence. }
  apply (Hgen (init false playBtn toggle slider)); reflexivity.
Qed.

(** The toggle shows the glyph of the flag, if it shows one of the two
    glyphs at all. *)
Lemma page_dispatch_glyph
    (toggle : option string) (ev : AudioPage.event) (st : state) :
  volume_in_range st ->
  musicToggle st = (fun _ => glyph (musicPlaying st)) <$> toggle ->
  exists st',
    AudioPage.dispatch parseFloat ev st = Ok st' /\
    volume_in_range st' /\
    musicToggle st' = (fun _ => glyph (musicPlaying st')) <$> toggle.
Proof.
  intros Hr Hg. destruct ev as [ev | value].
  - destruct (page_dispatch_in_range (AudioPage.Ui ev) st Hr)
      as (st' & Hd & Hr' & _).
    exists st'. split; [exact Hd |]. split; [exact Hr' |].
    simpl in Hd. injection Hd as <-. clear Hr Hr'.
    destruct st as [a b t s flag c1 c2 cs ps]. simpl in Hg. subst t.
    destruct ev as [tg | | o]; simpl.
    + unfold document_click, tryAutoplayAudio, musicToggle_click,
        audioPlayBtn_click. simpl.
      destruct c1, a, tg, toggle, b, flag; reflexivity.
    + unfold document_touchstart, tryAutoplayAudio. simpl.
      destruct c2, a; reflexivity.
    + unfold settle. simpl.
      destruct ps as [| [] rest], o, toggle; reflexivity.
  - simpl. destruct (volumeSlider st).
    + destruct (input_in_range value (AudioPage.slide value st) Hr)
        as (st' & -> & Hr' & _ & _ & Ht & _ & Hf & _).
      exists st'. split; [reflexivity |]. split; [exact Hr' |].
      rewrite Ht, Hf. exact Hg.
    + exists st. split; [reflexivity |]. split; assumption.
Qed.

(** X7.  If the toggle starts with the note glyph, then after any
    sequence of user events and settlements it shows the pause glyph
    exactly when [musicPlaying] is true and the note glyph exactly when it
    is false: every place that writes the flag writes the matching
    glyph. *)
Theorem toggle_glyph_follows_flag
    (has_audio : bool) (playBtn toggle slider : option string)
    (evs : list AudioPage.event) :
  toggle = None \/ toggle = Some (glyph false) ->
  exists st,
    AudioPage.run parseFloat evs (init has_audio playBtn toggle slider)
    = Ok st /\
    musicToggle st = (fun _ => glyph (musicPlaying st)) <$> toggle.
Proof.
  intros Htoggle.
  assert (forall st0,
             volume_in_range st0 ->
             musicToggle st0 = (fun _ => glyph (musicPlaying st0)) <$> toggle ->
             exists st,
               AudioPage.run parseFloat evs st0 = Ok st /\
               musicToggle st
               = (fun _ => glyph (musicPlaying st)) <$> toggle) as Hgen.
  { induction evs as [| ev rest IH]; intros st0 Hr Hg; simpl.
    - exists st0. split; [reflexivity | exact Hg].
    - destruct (page_dispatch_glyph toggle ev st0 Hr Hg)
        as (st1 & -> & Hr1 & Hg1). simpl. apply IH; assumption. }
  apply Hgen.
  - unfold volume_in_range, init. destruct has_audio; simpl;
      [split; reflexivity | exact I].
  - destruct Htoggle as [-> | ->]; reflexivity.
Qed.

(** X8.  The two ways to start the music differ only when the browser
    refuses.  After [tryAutoplayAudio] or a click on the play button, a
    fulfilled promise sets the flag, hides the play button and shows the
    pause glyph.  A rejected promise of [tryAutoplayAudio] makes the play
    button visible; a rejected promise of the play button changes
    nothing, so the button stays as it was. *)
Theorem starting_the_music (st : state) (a : audio_element) :
  audio st = Some a -> pending st = [] ->
  (musicPlaying (settle Fulfilled (tryAutoplayAudio st)) = true /\
   audioPlayBtn (settle Fulfilled (tryAutoplayAudio st))
   = (fun _ => "none"%string) <$> audioPlayBtn st /\
   musicToggle (settle Fulfilled (tryAutoplayAudio st))
   = (fun _ => glyph true) <$> musicToggle st) /\
  (musicPlaying (settle Rejected (tryAutoplayAudio st)) = musicPlaying st /\
   audioPlayBtn (settle Rejected (tryAutoplayAudio st))
   = (fun _ => "inline-block"%string) <$> audioPlayBtn st /\
   musicToggle (settle Rejected (tryAutoplayAudio st)) = musicToggle st) /\
  (musicPlaying (settle Fulfilled (audioPlayBtn_click st)) = true /\
   audioPlayBtn (settle Fulfilled (audioPlayBtn_click st))
   = Some "none"%string /\
   musicToggle (settle Fulfilled (audioPlayBtn_click st))
   = (fun _ => glyph true) <$> musicToggle st) /\
  settle Rejected (audioPlayBtn_click st)
  = {| audio := audio st; audioPlayBtn := audioPlayBtn st;
       musicToggle := musicToggle st; volumeSlider := volumeSlider st;
       musicPlaying := musicPlaying st; clickOnce := clickOnce st;
       touchOnce := touchOnce st;
       calls := calls st ++ [PlayCall PlayButton];
       pending := [] |}.
Proof.
  intros Ha Hp. unfold tryAutoplayAudio, audioPlayBtn_click, settle.
  rewrite Ha. simpl. rewrite Hp. simpl. repeat split.
  rewrite Ha. reflexivity.
Qed.

End AudioPageProperties.

Example slider_sequence :
  (fun st => Audio.audio st) <$>
    match AudioPage.run parseFloat_sample
            [AudioPage.Input "7"; AudioPage.Ui Audio.TouchStart;
             AudioPage.Input "loud"; AudioPage.Input "0.25";
             AudioPage.Input "-3"; AudioPage.Input "nothing"]
            with_audio with
    | Ok st => Some st
    | Throw _ => None
    end
  = Some (Some {| Audio.volume := Audio.zero |}).
Proof. reflexivity. Qed.

(** The slider keeps what the user entered, with or without the audio
    element. *)
Example slider_holds_the_input :
  (fun st => Audio.volumeSlider st) <$>
    match AudioPage.run parseFloat_sample
            [AudioPage.Input "7"; AudioPage.Ui Audio.TouchStart]
            without_audio with
    | Ok st => Some st
    | Throw _ => None
    end
  = Some (Some "7"%string).
Proof. reflexivity. Qed.

Lemma toggle_glyph_follows_flag_witness :
  Some "🎵"%string = Some (glyph false) /\
  exists st,
    AudioPage.run parseFloat_sample
      [AudioPage.Ui (Audio.Click Audio.OnMusicToggle);
       AudioPage.Ui (Audio.Settle Rejected);
       AudioPage.Ui (Audio.Click Audio.OnMusicToggle);
       AudioPage.Input "7";
       AudioPage.Ui (Audio.Click Audio.OnAudioPlayBtn);
       AudioPage.Ui (Audio.Settle Fulfilled);
       AudioPage.Ui (Audio.Settle Fulfilled)]
      with_audio = Ok st /\
    Audio.musicToggle st
    = (fun _ => glyph (Audio.musicPlaying st)) <$> Some "🎵"%string.
Proof.
  split; [reflexivity |].
  apply (toggle_glyph_follows_flag parseFloat_sample true
           (Some "inline-block"%string) (Some "🎵"%string) (Some "1"%string)).
  right. reflexivity.
Defined.

Lemma starting_the_music_witness :
  Audio.audio with_audio = Some {| Audio.volume := Audio.half |} /\
  Audio.pending with_audio = [] /\
  Audio.audioPlayBtn (Audio.settle Rejected (Audio.tryAutoplayAudio with_audio))
  = (fun _ => "inline-block"%string) <$> Audio.audioPlayBtn with_audio /\
  Audio.musicPlaying
    (Audio.settle Fulfilled (Audio.audioPlayBtn_click with_audio))
  = true.
Proof.
  split; [reflexivity |]. split; [reflexivity |].
  destruct (starting_the_music with_audio {| Audio.volume := Audio.half |}
              eq_refl eq_refl)
    as (_ & (_ & Hshown & _) & (Hflag & _) & _).
  split; [exact Hshown | exact Hflag].
Defined.

(** ** Videos in view: the listeners as a whole *)

Section VideoPageProperties.
Import Video.

Lemma same_layout_refl (st : state) : same_layout st st.
Proof. split; reflexivity. Qed.

Lemma same_layout_trans (st1 st2 st3 : state) :
  same_layout st1 st2 -> same_layout st2 st3 -> same_layout st1 st3.
Proof.
  intros [Hl12 Ho12] [Hl23 Ho23]. split; [congruence |].
  intros k. rewrite Ho23. apply Ho12.
Qed.

Lemma same_layout_alter (b : bool) (v : nat) (st st' : state) :
  videos st' = alter (set_paused b) v (videos st) -> same_layout st st'.
Proof.
  intros Heq. unfold same_layout. rewrite Heq. split; [apply length_alter |].
  intros k. destruct (decide (v = k)) as [<- | Hne].
  - rewrite list_lookup_alter_eq. destruct (videos st !! v); reflexivity.
  - rewrite list_lookup_alter_ne by assumption. reflexivity.
Qed.

Lemma same_layout_videos (st st' : state) :
  videos st' = videos st -> same_layout st st'.
Proof. intros Heq. unfold same_layout. rewrite Heq. split; reflexivity. Qed.

Lemma media_play_layout (o : outcome) (v : nat) (r : reaction) (st : state) :
  same_layout st (media_play o v r st).
Proof.
  destruct o; [apply (same_layout_alter false v) | apply same_layout_videos];
    reflexivity.
Qed.

Lemma media_pause_layout (v : nat) (st : state) :
  same_layout st (media_pause v st).
Proof. apply (same_layout_alter true v). reflexivity. Qed.

Lemma foldl_layout {A} (step : state -> A -> state) (l : list A) :
  (forall st a, same_layout st (step st a)) ->
  forall st, same_layout st (foldl step st l).
Proof.
  intros Hstep. induction l as [| a l IH]; intros st; simpl.
  - apply same_layout_refl.
  - apply (same_layout_trans _ (step st a)); [apply Hstep | apply IH].
Qed.

Lemma videoIO_entry_layout (st : state) (eo : entry * outcome) :
  same_layout st (videoIO_entry st eo).
Proof.
  destruct eo as [e o]. unfold videoIO_entry.
  destruct (videos st !! target e) as [vid |]; [| apply same_layout_refl].
  destruct (isIntersecting e && _); [apply media_play_layout |].
  destruct (negb (paused vid));
    [apply media_pause_layout | apply same_layout_refl].
Qed.

Lemma pause_other_layout (v : nat) (st : state) (other : nat) :
  same_layout st (pause_other v st other).
Proof.
  unfold pause_other.
  destruct (videos st !! other) as [vid |]; [| apply same_layout_refl].
  destruct (bool_decide (other <> v) && negb (paused vid));
    [apply media_pause_layout | apply same_layout_refl].
Qed.

Lemma dispatch_layout (st : state) (ev : VideoPage.event) :
  same_layout st (VideoPage.dispatch st ev).
Proof.
  destruct ev as [entries | ov o | v o | v |]; simpl.
  - apply foldl_layout, videoIO_entry_layout.
  - unfold VideoPage.overlay_clicked. apply foldl_layout.
    intros st0 k. unfold overlay_click.
    destruct (videos st0 !! k) as [[b [ov0 |]] |];
      [apply media_play_layout | apply same_layout_refl ..].
  - unfold video_click.
    destruct (videos st !! v) as [vid |]; [| apply same_layout_refl].
    destruct (paused vid); [apply media_play_layout | apply media_pause_layout].
  - destruct (videos st !! v); [| apply same_layout_refl].
    apply foldl_layout, pause_other_layout.
  - unfold settle.
    destruct (pending st) as [| [[] [[ov |] | ov |]] rest];
      apply same_layout_videos; reflexivity.
Qed.

(** X9.  No listener adds, removes or reorders a tracked video or
    changes which overlay belongs to it: after any sequence of observer
    notifications, clicks, [play] events and settlements the list has the
    length it had and every video its overlay; only [paused] changes. *)
Theorem video_listeners_keep_layout
    (evs : list VideoPage.event) (st : state) :
  length (videos (VideoPage.run evs st)) = length (videos st) /\
  forall k,
    overlay <$> videos (VideoPage.run evs st) !! k
    = overlay <$> videos st !! k.
Proof.
  apply (foldl_layout VideoPage.dispatch evs dispatch_layout st).
Qed.

(** What one entry adds to the calls. *)
Lemma videoIO_entry_calls (st : state) (e : entry) (o : outcome) :
  exists one,
    calls (videoIO_entry st (e, o)) = calls st ++ one /\
    (forall c, c ∈ one ->
       (c = PlayCall (target e) /\ in_sight e = true) \/
       (c = PauseCall (target e) /\ in_sight e = false)).
Proof.
  unfold videoIO_entry, in_sight.
  destruct (videos st !! target e) as [vid |].
  - destruct (isIntersecting e && _) eqn:Hsight.
    + exists [PlayCall (target e)]. split; [reflexivity |].
      intros c Hc. apply list_elem_of_singleton in Hc. left. tauto.
    + destruct (negb (paused vid)).
      * exists [PauseCall (target e)]. split; [reflexivity |].
        intros c Hc. apply list_elem_of_singleton in Hc. right. tauto.
      * exists []. split; [rewrite app_nil_r; reflexivity |].
        intros c Hc. apply elem_of_nil in Hc. contradiction.
  - exists []. split; [rewrite app_nil_r; reflexivity |].
    intros c Hc. apply elem_of_nil in Hc. contradiction.
Qed.

(** X10.  The video observer starts no video that is out of sight: every
    [play()] it calls during a batch is on the target of an entry of that
    batch that is intersecting with ratio above 0.5, and every [pause()]
    on the target of an entry that is not. *)
Theorem observer_plays_only_in_sight
    (entries : list (entry * outcome)) (st : state) :
  exists new,
    calls (videoIO entries st) = calls st ++ new /\
    (forall v, PlayCall v ∈ new ->
       exists e o, (e, o) ∈ entries /\ target e = v /\ in_sight e = true) /\
    (forall v, PauseCall v ∈ new ->
       exists e o, (e, o) ∈ entries /\ target e = v /\ in_sight e = false).
Proof.
  unfold videoIO. revert st.
  induction entries as [| [e o] rest IH]; intros st; cbn [foldl].
  - exists []. split; [rewrite app_nil_r; reflexivity |].
    split; intros v Hv; apply elem_of_nil in Hv; contradiction.
  - destruct (videoIO_entry_calls st e o) as (one & Hone & Hsight).
    destruct (IH (videoIO_entry st (e, o))) as (new & Hnew & Hplay & Hpause).
    exists (one ++ new). split; [rewrite Hnew, Hone, app_assoc; reflexivity |].
    split; intros v Hv; apply elem_of_app in Hv as [Hv | Hv].
    + destruct (Hsight _ Hv) as [[[= ->] Hs] | [[=] _]].
      exists e, o. split; [left | split; [reflexivity | exact Hs]].
    + destruct (Hplay v Hv) as (e' & o' & Hin & Ht & Hs).
      exists e', o'. split; [right; exact Hin | split; assumption].
    + destruct (Hsight _ Hv) as [[[=] _] | [[= ->] Hs]].
      exists e, o. split; [left | split; [reflexivity | exact Hs]].
    + destruct (Hpause v Hv) as (e' & o' & Hin & Ht & Hs).
      exists e', o'. split; [right; exact Hin | split; assumption].
Qed.

Lemma filter_none {A} (P : A -> Prop) `{forall x, Decision (P x)}
    (l : list A) :
  (forall x, x ∈ l -> ~ P x) -> filter P l = [].
Proof.
  induction l as [| a l IH]; intros Hall; [reflexivity |].
  rewrite filter_cons. case_decide as Ha.
  - exfalso. apply (Hall a); [left | exact Ha].
  - apply IH. intros x Hx. apply Hall. right. exact Hx.
Qed.

Lemma on_play_length (v : nat) (st : state) :
  length (videos (on_play v st)) = length (videos st).
Proof. apply (foldl_layout (pause_other v) _ (pause_other_layout v) st). Qed.

(** After the handler of [v], a video is playing only if it is [v] and
    was playing before. *)
Lemma on_play_lookup (v : nat) (st : state) (k : nat) :
  videos (on_play v st) !! k
  = (fun vid => if decide (k <> v) then set_paused true vid else vid)
      <$> videos st !! k.
Proof.
  destruct (pause_others_spec v st (seq 0 (length (videos st))))
    as (Hvid & _); [apply NoDup_seq |].
  fold (on_play v st) in Hvid. rewrite Hvid.
  destruct (videos st !! k) as [vid |] eqn:Hlook; [| reflexivity].
  cbn [fmap option_fmap option_map]. apply lookup_lt_Some in Hlook.
  repeat case_decide; try reflexivity; exfalso.
  - tauto.
  - match goal with H : ¬ (_ ∧ _) |- _ => apply H end.
    split; [apply elem_of_seq; lia | assumption].
Qed.

(** X11.  The [play] handler is idempotent: run a second time for the
    same video it pauses nothing and calls nothing, since the first run
    left no other video playing. *)
Theorem on_play_idempotent (v : nat) (st : state) :
  videos (on_play v (on_play v st)) = videos (on_play v st) /\
  calls (on_play v (on_play v st)) = calls (on_play v st).
Proof.
  split.
  - apply list_eq. intros k. rewrite !on_play_lookup.
    destruct (videos st !! k) as [vid |]; [| reflexivity].
    cbn [fmap option_fmap option_map]. case_decide; reflexivity.
  - destruct (pause_others_spec v (on_play v st)
                (seq 0 (length (videos (on_play v st)))))
      as (_ & Hcalls & _); [apply NoDup_seq |].
    fold (on_play v (on_play v st)) in Hcalls. rewrite Hcalls.
    rewrite filter_none; [apply app_nil_r |].
    intros j _ [Hne Hplay]. rewrite on_play_lookup in Hplay.
    destruct (videos st !! j) as [vid |]; [| discriminate].
    cbn [fmap option_fmap option_map] in Hplay.
    case_decide; [discriminate | contradiction].
Qed.

(** X12.  Starting a paused video by a click and then delivering its
    [play] event leaves exactly that video playing: it is not paused, and
    every other tracked video is. *)
Theorem click_then_play_event (v : nat) (vid : video) (st : state) :
  videos st !! v = Some vid ->
  paused vid = true ->
  forall k vk,
    videos (on_play v (video_click Fulfilled v st)) !! k = Some vk ->
    (paused vk = false <-> k = v).
Proof.
  intros Hlook Hpaused k vk. rewrite on_play_lookup.
  unfold video_click. rewrite Hlook, Hpaused. simpl.
  destruct (decide (v = k)) as [<- | Hne].
  - rewrite list_lookup_alter_eq, Hlook. simpl.
    case_decide; [contradiction |]. intros [= <-]. simpl. tauto.
  - rewrite list_lookup_alter_ne by assumption.
    destruct (videos st !! k) as [vid0 |]; [| discriminate]. simpl.
    case_decide; [| congruence]. intros [= <-]. simpl.
    split; [discriminate | congruence].
Qed.

Lemma clicked_eval (o : outcome) (v : nat) (vid : video) (st : state) :
  videos st !! v = Some vid ->
  VideoPage.clicked o v st
  = if paused vid && allowed o
    then on_play v (media_play o v NoReaction st)
    else if paused vid then media_play o v NoReaction st
         else media_pause v st.
Proof.
  intros Hlook. unfold VideoPage.clicked, video_click. rewrite Hlook.
  destruct vid as [[] ov], o; reflexivity.
Qed.

Lemma set_paused_same (b : bool) (vid : video) :
  paused vid = b -> set_paused b vid = vid.
Proof. intros <-. destruct vid. reflexivity. Qed.

Lemma set_paused_twice (b b' : bool) (vid : video) :
  set_paused b (set_paused b' vid) = set_paused b vid.
Proof. reflexivity. Qed.

(** X13.  Two clicks on a tracked video, each followed by the [play]
    event it causes when it starts the video, leave that video as it was
    and every other tracked video paused: the click that starts the video
    makes its [play] handler pause the others.  So the videos are all as
    they were exactly when no other video was playing.  A refused
    [play()] leaves the videos as they were and fires no event, so the
    next click tries to play again. *)
Theorem video_click_twice (v : nat) (vid : video) (st : state) :
  videos st !! v = Some vid ->
  (forall k,
      videos (VideoPage.clicked Fulfilled v
                (VideoPage.clicked Fulfilled v st)) !! k
      = (fun vk => if decide (k = v) then vk else set_paused true vk)
          <$> videos st !! k) /\
  (videos (VideoPage.clicked Fulfilled v (VideoPage.clicked Fulfilled v st))
   = videos st <->
   forall k vk, k <> v -> videos st !! k = Some vk -> paused vk = true) /\
  (paused vid = true ->
     videos (VideoPage.clicked Rejected v st) = videos st /\
     calls (VideoPage.clicked Rejected v (VideoPage.clicked Rejected v st))
     = calls st ++ [PlayCall v; PlayCall v]).
Proof.
  intros Hlook.
  assert (forall k,
             videos (VideoPage.clicked Fulfilled v
                       (VideoPage.clicked Fulfilled v st)) !! k
             = (fun vk => if decide (k = v) then vk else set_paused true vk)
                 <$> videos st !! k) as Hfinal.
  { intros k. rewrite (clicked_eval Fulfilled v vid st Hlook).
    destruct (paused vid) eqn:Hp; cbn [andb allowed].
    - assert (videos (on_play v (media_play Fulfilled v NoReaction st)) !! v
              = Some (set_paused false vid)) as Hlook1.
      { rewrite on_play_lookup. cbn [media_play videos].
        rewrite list_lookup_alter_eq, Hlook.
        cbn [fmap option_fmap option_map].
        case_decide; [contradiction | reflexivity]. }
      rewrite (clicked_eval Fulfilled v _ _ Hlook1).
      cbn [set_paused paused andb].
      cbn [media_pause videos].
      destruct (decide (v = k)) as [<- | Hne].
      + rewrite list_lookup_alter_eq, Hlook1, Hlook.
        cbn [fmap option_fmap option_map set_paused overlay].
        case_decide; [| contradiction].
        rewrite set_paused_twice, (set_paused_same true vid Hp).
        reflexivity.
      + rewrite list_lookup_alter_ne by assumption.
        rewrite on_play_lookup. cbn [media_play videos].
        rewrite list_lookup_alter_ne by assumption.
        destruct (videos st !! k) as [vk |]; [| reflexivity].
        cbn [fmap option_fmap option_map].
        repeat case_decide; try reflexivity; congruence.
    - assert (videos (media_pause v st) !! v = Some (set_paused true vid))
        as Hlook1.
      { cbn [media_pause videos]. rewrite list_lookup_alter_eq, Hlook.
        reflexivity. }
      rewrite (clicked_eval Fulfilled v _ _ Hlook1).
      cbn [set_paused paused andb allowed].
      rewrite on_play_lookup. cbn [media_play media_pause videos].
      destruct (decide (v = k)) as [<- | Hne].
      + rewrite !list_lookup_alter_eq, Hlook.
        cbn [fmap option_fmap option_map set_paused overlay].
        repeat case_decide; try contradiction.
        rewrite set_paused_twice, (set_paused_same false vid Hp).
        reflexivity.
      + rewrite !list_lookup_alter_ne by assumption.
        destruct (videos st !! k) as [vk |]; [| reflexivity].
        cbn [fmap option_fmap option_map].
        repeat case_decide; try reflexivity; congruence. }
  split; [exact Hfinal |]. split; [split |].
  - intros Heq k vk Hne Hk.
    specialize (Hfinal k). rewrite Heq, Hk in Hfinal.
    cbn [fmap option_fmap option_map] in Hfinal.
    case_decide; [contradiction |].
    injection Hfinal as Hvk. rewrite Hvk. reflexivity.
  - intros Hall. apply list_eq. intros k. rewrite Hfinal.
    destruct (videos st !! k) as [vk |] eqn:Hk; [| reflexivity].
    cbn [fmap option_fmap option_map]. case_decide; [reflexivity |].
    rewrite (set_paused_same true vk (Hall k vk ltac:(assumption) Hk)).
    reflexivity.
  - intros Hp. rewrite (clicked_eval Rejected v vid st Hlook).
    rewrite Hp. cbn [andb allowed].
    rewrite (clicked_eval Rejected v vid (media_play Rejected v NoReaction st)
               Hlook).
    rewrite Hp. cbn [andb allowed media_play videos calls].
    split; [reflexivity |]. rewrite <- app_assoc. reflexivity.
Qed.

Lemma overlay_click_layout (o : outcome) (v : nat) (st : state) :
  same_layout st (overlay_click o v st).
Proof.
  unfold overlay_click.
  destruct (videos st !! v) as [[b [ov |]] |];
    [apply media_play_layout | apply same_layout_refl ..].
Qed.

(** The listeners of an overlay, run over videos that are under it. *)
Lemma overlay_listeners_spec
    (o : nat -> outcome) (ov : element) (js : list nat) (st : state) :
  Forall (fun k => overlay <$> videos st !! k = Some (Some ov)) js ->
  calls (foldl (fun st k => overlay_click (o k) k st) st js)
  = calls st ++ (PlayCall <$> js) /\
  pending (foldl (fun st k => overlay_click (o k) k st) st js)
  = pending st ++ ((fun k => (o k, OverlayReaction ov)) <$> js) /\
  overlays (foldl (fun st k => overlay_click (o k) k st) st js)
  = overlays st /\
  (forall k,
      videos (foldl (fun st k => overlay_click (o k) k st) st js) !! k
      = (fun vid => if bool_decide (k ∈ js) && allowed (o k)
                    then set_paused false vid else vid)
          <$> videos st !! k).
Proof.
  revert st. induction js as [| j js IH]; intros st Hall.
  - cbn [foldl fmap list_fmap]. rewrite !app_nil_r.
    split; [reflexivity |]. split; [reflexivity |]. split; [reflexivity |].
    intros k. destruct (videos st !! k); reflexivity.
  - apply Forall_cons in Hall as [Hj Hrest]. cbn [foldl].
    destruct (videos st !! j) as [[b [ov' |]] |] eqn:Hlook;
      try discriminate.
    injection Hj as ->.
    assert (overlay_click (o j) j st
            = media_play (o j) j (OverlayReaction ov) st) as Hclick
      by (unfold overlay_click; rewrite Hlook; reflexivity).
    rewrite Hclick.
    set (st1 := media_play (o j) j (OverlayReaction ov) st) in *.
    assert (Forall (fun k => overlay <$> videos st1 !! k = Some (Some ov)) js)
      as Hrest1.
    { eapply Forall_impl; [exact Hrest |]. intros k Hk. cbn beta in *.
      destruct (media_play_layout (o j) j (OverlayReaction ov) st)
        as [_ Hov].
      fold st1 in Hov. rewrite Hov. exact Hk. }
    destruct (IH st1 Hrest1) as (Hc & Hp & Ho & Hv).
    split; [rewrite Hc; subst st1; cbn [media_play calls fmap list_fmap];
            rewrite <- app_assoc; reflexivity |].
    split; [rewrite Hp; subst st1; cbn [media_play pending fmap list_fmap];
            rewrite <- app_assoc; reflexivity |].
    split; [rewrite Ho; reflexivity |].
    intros k. rewrite Hv. subst st1. cbn [media_play videos].
    destruct (decide (j = k)) as [<- | Hne].
    + rewrite (bool_decide_eq_true_2 (j ∈ j :: js)) by left.
      destruct (o j) eqn:Hoj; cbn [allowed andb].
      * rewrite list_lookup_alter_eq, Hlook.
        cbn [fmap option_fmap option_map].
        destruct (bool_decide (j ∈ js)); reflexivity.
      * rewrite andb_false_r. rewrite Hlook. reflexivity.
    + assert (match o j with
              | Fulfilled => alter (set_paused false) j (videos st)
              | Rejected => videos st
              end !! k = videos st !! k) as ->.
      { destruct (o j); [apply list_lookup_alter_ne; assumption
                        | reflexivity]. }
      destruct (videos st !! k) as [vk |]; [| reflexivity].
      cbn [fmap option_fmap option_map].
      rewrite (bool_decide_ext (k ∈ j :: js) (k ∈ js)); [reflexivity |].
      rewrite elem_of_cons. intuition congruence.
Qed.

Lemma under_spec (ov : element) (st : state) :
  Forall (fun k => overlay <$> videos st !! k = Some (Some ov))
    (VideoPage.under ov st).
Proof.
  unfold VideoPage.under. apply Forall_forall. intros k Hk.
  apply list_elem_of_filter in Hk as [Hk _]. exact Hk.
Qed.

(** Settling the promises of the listeners of an overlay: the first one
    fulfilled hides it, a rejected one writes nothing. *)
Lemma settle_overlay_reactions
    (o : nat -> outcome) (ov : element) (js : list nat) (st : state) :
  pending st = (fun k => (o k, OverlayReaction ov)) <$> js ->
  overlays (VideoPage.run (replicate (length js) VideoPage.Settle) st)
  = (if existsb (fun k => allowed (o k)) js
     then <[ov := "none"%string]> (overlays st)
     else overlays st) /\
  videos (VideoPage.run (replicate (length js) VideoPage.Settle) st)
  = videos st.
Proof.
  revert st. induction js as [| j js IH]; intros st Hpend.
  - split; reflexivity.
  - cbn [length replicate VideoPage.run foldl VideoPage.dispatch existsb].
    cbn [fmap list_fmap] in Hpend.
    assert (settle st
            = react (o j, OverlayReaction ov)
                {| videos := videos st; overlays := overlays st;
                   calls := calls st;
                   pending := (fun k => (o k, OverlayReaction ov)) <$> js |})
      as Hsettle by (unfold settle; rewrite Hpend; reflexivity).
    rewrite Hsettle. unfold VideoPage.run in IH.
    destruct (o j); cbn [react allowed orb].
    + destruct (IH (set_display ov "none"
                      {| videos := videos st; overlays := overlays st;
                         calls := calls st;
                         pending := (fun k => (o k, OverlayReaction ov))
                                      <$> js |}) eq_refl) as [Ho Hv].
      rewrite Ho, Hv. cbn [set_display overlays videos].
      split; [| reflexivity].
      destruct (existsb _ js); [apply insert_insert_eq | reflexivity].
    + destruct (IH {| videos := videos st; overlays := overlays st;
                      calls := calls st;
                      pending := (fun k => (o k, OverlayReaction ov))
                                   <$> js |} eq_refl) as [Ho Hv].
      rewrite Ho, Hv. split; reflexivity.
Qed.

(** X14.  A click on an overlay runs the listener of every tracked
    video under that parent: [play()] is called once on each of them, in
    the order of [videos], and on no other video; those the browser
    lets play are playing, and nothing has been written to the overlays
    yet.  Once the promises have settled the overlay is hidden if at
    least one of them was fulfilled, and nothing has been written if all
    were rejected: unlike the observer, the click does not show the
    overlay again. *)
Theorem overlay_click_settles
    (o : nat -> outcome) (ov : element) (st : state) :
  pending st = [] ->
  calls (VideoPage.overlay_clicked o ov st)
  = calls st ++ (PlayCall <$> VideoPage.under ov st) /\
  (forall k,
      videos (VideoPage.overlay_clicked o ov st) !! k
      = (fun vid => if bool_decide (overlay vid = Some ov) && allowed (o k)
                    then set_paused false vid else vid)
          <$> videos st !! k) /\
  overlays (VideoPage.overlay_clicked o ov st) = overlays st /\
  overlays
    (VideoPage.run
       (replicate (length (VideoPage.under ov st)) VideoPage.Settle)
       (VideoPage.overlay_clicked o ov st))
  = (if existsb (fun k => allowed (o k)) (VideoPage.under ov st)
     then <[ov := "none"%string]> (overlays st)
     else overlays st).
Proof.
  intros Hpend. unfold VideoPage.overlay_clicked.
  destruct (overlay_listeners_spec o ov (VideoPage.under ov st) st
              (under_spec ov st)) as (Hc & Hp & Ho & Hv).
  split; [exact Hc |]. split; [| split; [exact Ho |]].
  - intros k. rewrite Hv.
    destruct (videos st !! k) as [vid |] eqn:Hk; [| reflexivity].
    cbn [fmap option_fmap option_map]. f_equal.
    rewrite (bool_decide_ext (k ∈ VideoPage.under ov st)
               (overlay vid = Some ov)); [reflexivity |].
    unfold VideoPage.under. rewrite list_elem_of_filter, Hk.
    cbn [fmap option_fmap option_map]. rewrite elem_of_seq.
    apply lookup_lt_Some in Hk. split.
    + intros [[= ->] _]. reflexivity.
    + intros ->. split; [reflexivity | lia].
  - rewrite Hpend in Hp. cbn [app] in Hp.
    destruct (settle_overlay_reactions o ov (VideoPage.under ov st) _ Hp)
      as [Hsettled _].
    rewrite Hsettled, Ho. reflexivity.
Qed.

End VideoPageProperties.

Example batch_with_two_entries :
  Video.calls
    (Video.videoIO [(in_view, Fulfilled); (out_of_view, Fulfilled)]
       two_playing)
  = [Video.PlayCall 0; Video.PauseCall 1].
Proof. reflexivity. Qed.

(** One click on an overlay shared by two videos calls [play()] on
    both. *)
Example shared_overlay :
  Video.calls
    (VideoPage.run [VideoPage.OverlayClick 100%nat (fun _ => Rejected)]
       two_paused)
  = [Video.PlayCall 0; Video.PlayCall 1] /\
  Video.overlays
    (VideoPage.run
       [VideoPage.Notify [(in_view, Rejected)];
        VideoPage.OverlayClick 100%nat
          (fun k => if (k =? 1)%nat then Fulfilled else Rejected);
        VideoPage.Settle; VideoPage.Settle; VideoPage.Settle]
       two_paused)
  !! 100%nat
  = Some "none"%string.
Proof. split; reflexivity. Qed.

(** Two clicks on a paused video beside a playing one leave both
    paused. *)
Example two_clicks_beside_a_playing_video :
  Video.paused <$>
    Video.videos
      (VideoPage.clicked Fulfilled 0
         (VideoPage.clicked Fulfilled 0 paused_and_playing))
  = [true; true].
Proof. reflexivity. Qed.

Lemma click_then_play_event_witness :
  Video.videos two_paused !! 1%nat
  = Some {| Video.paused := true; Video.overlay := Some 100%nat |} /\
  forall k vk,
    Video.videos (Video.on_play 1 (Video.video_click Fulfilled 1 two_paused))
      !! k = Some vk ->
    (Video.paused vk = false <-> k = 1%nat).
Proof.
  split; [reflexivity |].
  apply (click_then_play_event 1
           {| Video.paused := true; Video.overlay := Some 100%nat |}
           two_paused); reflexivity.
Defined.

Lemma video_click_twice_witness :
  Video.videos two_playing !! 0%nat
  = Some {| Video.paused := false; Video.overlay := Some 100%nat |} /\
  forall k,
    Video.videos
      (VideoPage.clicked Fulfilled 0
         (VideoPage.clicked Fulfilled 0 two_playing)) !! k
    = (fun vk => if decide (k = 0%nat) then vk else Video.set_paused true vk)
        <$> Video.videos two_playing !! k.
Proof.
  split; [reflexivity |].
  apply (video_click_twice 0
           {| Video.paused := false; Video.overlay := Some 100%nat |}
           two_playing eq_refl).
Defined.

Lemma overlay_click_settles_witness :
  Video.pending two_paused = [] /\
  Video.calls (VideoPage.overlay_clicked (fun _ => Rejected) 100%nat two_paused)
  = Video.calls two_paused
    ++ (Video.PlayCall <$> VideoPage.under 100%nat two_paused) /\
  Video.overlays
    (VideoPage.run
       (replicate (length (VideoPage.under 100%nat two_paused))
          VideoPage.Settle)
       (VideoPage.overlay_clicked (fun _ => Rejected) 100%nat two_paused))
  = Video.overlays two_paused.
Proof.
  split; [reflexivity |].
  destruct (overlay_click_settles (fun _ => Rejected) 100%nat two_paused
              eq_refl) as (Hcalls & _ & _ & Hsettled).
  split; [exact Hcalls | exact Hsettled].
Defined.

(** ** Shooting stars: the pool and the frame loop *)

Section ShootingStarsProperties.
Import Double Star ShootingStars.

Variable c : canvas.

Hypothesis width_positive : 0 < width c < 2 ^ 53.
Hypothesis height_positive : 0 < height c < 2 ^ 53.

Lemma unit_draws_after (n : nat) (g : rng) :
  unit_draws g -> unit_draws (after_draws n g).
Proof. intros Hg k. apply Hg. Qed.

Lemma after_draws_after (m n : nat) (g : rng) :
  after_draws m (after_draws n g) = after_draws (n + m) g.
Proof. unfold after_draws. simpl. f_equal. lia. Qed.

Lemma after_no_draws (g : rng) : after_draws 0 g = g.
Proof. destruct g. reflexivity. Qed.

(** [reset] draws five numbers and puts the streak, whatever it was, in
    the top half with length, speed and opacity in their ranges. *)
Lemma reset_spec (s : star) (g : rng) :
  unit_draws g ->
  (reset c s g).2 = after_draws 5 g /\
  in_top_half c (reset c s g).1 /\
  inside c (reset c s g).1 /\
  well_formed (reset c s g).1.
Proof.
  intros Hg. split; [reflexivity |].
  split; [apply reset_in_top_half; assumption |].
  destruct (of_int_value (width c) ltac:(lia)) as [Hnw _].
  destruct (of_int_value (height c) ltac:(lia)) as [Hnh _].
  split; [split |]; simpl.
  - destruct (draw_times_below _ _ (Hg (next g)) width_positive)
      as (Hnn & Hlt & _).
    apply gt_false_scaled; [assumption .. | lia].
  - destruct (half_draw_times_below _ _ (Hg (S (next g))) height_positive)
      as (Hnn & _ & _ & Hle).
    apply gt_false_scaled; assumption.
  - split; [| split].
    + apply (affine_range _ 100 50 (Hg (S (S (next g))))); lia.
    + apply (affine_range _ 6 4 (Hg (S (S (S (next g)))))); lia.
    + apply (opacity_range _ (Hg (S (S (S (S (next g))))))).
Qed.

Lemma not_exceeding_inside (s : star) :
  exceeds c s = false -> inside c (advanced s).
Proof.
  unfold exceeds. intros He. apply orb_false_iff in He. exact He.
Qed.

Lemma update_spec (s : star) (g : rng) :
  unit_draws g ->
  inside c (update c s g).1 /\
  (well_formed s -> well_formed (update c s g).1) /\
  (update c s g).2 = after_draws (if exceeds c s then 5 else 0) g.
Proof.
  intros Hg. rewrite update_unfold. destruct (exceeds c s) eqn:He.
  - destruct (reset_spec (advanced s) g Hg) as (Hrng & _ & Hin & Hwf).
    split; [exact Hin |].
    split; [intros _; exact Hwf | exact Hrng].
  - split; [apply not_exceeding_inside; exact He |].
    split; [intros Hwf; exact Hwf | symmetry; apply after_no_draws].
Qed.


Lemma make_stars_cons (n : nat) (g : rng) :
  make_stars (S n) c g
  = ((new_Star c g).1 :: (make_stars n c (new_Star c g).2).1,
     (make_stars n c (new_Star c g).2).2).
Proof.
  cbn [make_stars]. unfold bind, ret.
  destruct (new_Star c g) as [s g1]. cbn [fst snd].
  destruct (make_stars n c g1) as [rest g2]. reflexivity.
Qed.

Lemma make_stars_spec (n : nat) (g : rng) :
  unit_draws g ->
  Datatypes.length (make_stars n c g).1 = n /\
  (make_stars n c g).2 = after_draws (5 * n) g /\
  Forall (fun s => in_top_half c s /\ inside c s /\ well_formed s)
    (make_stars n c g).1.
Proof.
  revert g. induction n as [| n IH]; intros g Hg.
  - simpl. split; [reflexivity |].
    split; [symmetry; apply after_no_draws | constructor].
  - rewrite make_stars_cons. unfold new_Star.
    destruct (reset_spec blank g Hg) as (Hrng & Htop & Hin & Hwf).
    rewrite Hrng.
    destruct (IH (after_draws 5 g) (unit_draws_after 5 g Hg))
      as (Hlen & Hrng' & Hall).
    cbn [fst snd Datatypes.length]. split; [rewrite Hlen; reflexivity |].
    split; [rewrite Hrng', after_draws_after; f_equal; lia |].
    constructor; [repeat split; first [apply Htop | apply Hin | apply Hwf]
                 | exact Hall].
Qed.

Lemma update_and_draw_cons (s : star) (rest : list star) (g : rng) :
  update_and_draw c (s :: rest) g
  = (((update c s g).1 :: (update_and_draw c rest (update c s g).2).1.1,
      draw (update c s g).1
        :: (update_and_draw c rest (update c s g).2).1.2),
     (update_and_draw c rest (update c s g).2).2).
Proof.
  cbn [update_and_draw]. unfold bind, ret.
  destruct (update c s g) as [s' g1]. cbn [fst snd].
  destruct (update_and_draw c rest g1) as [[pool strokes] g2]. reflexivity.
Qed.

Lemma animate_spec (pool : list star) (g : rng) :
  unit_draws g ->
  Datatypes.length (animate c pool g).1.1 = Datatypes.length pool /\
  (animate c pool g).1.2 = draw <$> (animate c pool g).1.1 /\
  Forall (inside c) (animate c pool g).1.1 /\
  (Forall well_formed pool -> Forall well_formed (animate c pool g).1.1) /\
  (animate c pool g).2
  = after_draws
      (5 * Datatypes.length (filter (fun s => exceeds c s = true) pool)) g.
Proof.
  unfold animate. revert g. induction pool as [| s rest IH]; intros g Hg.
  - simpl. split; [reflexivity |]. split; [reflexivity |].
    split; [constructor |]. split; [intros _; constructor |].
    symmetry. apply after_no_draws.
  - rewrite update_and_draw_cons.
    destruct (update_spec s g Hg) as (Hin & Hwf & Hrng).
    assert (unit_draws (update c s g).2) as Hg1
      by (rewrite Hrng; apply unit_draws_after; exact Hg).
    destruct (IH (update c s g).2 Hg1)
      as (Hlen & Hstrokes & Hins & Hwfs & Hrngs).
    cbn [fst snd Datatypes.length].
    split; [rewrite Hlen; reflexivity |].
    split; [rewrite Hstrokes; reflexivity |].
    split; [constructor; assumption |].
    split.
    + intros Hall. apply Forall_cons in Hall as [Hs Hrest].
      constructor; [apply Hwf; exact Hs | apply Hwfs; exact Hrest].
    + rewrite Hrngs, Hrng, after_draws_after, filter_cons.
      destruct (exceeds c s); case_decide; try congruence;
        f_equal; simpl; lia.
Qed.


Lemma frames_spec (n : nat) (pool : list star) (g : rng) :
  unit_draws g ->
  Forall (inside c) pool -> Forall well_formed pool ->
  Datatypes.length (frames n c pool g).1 = Datatypes.length pool /\
  Forall (inside c) (frames n c pool g).1 /\
  Forall well_formed (frames n c pool g).1 /\
  unit_draws (frames n c pool g).2.
Proof.
  revert pool g. induction n as [| n IH]; intros pool g Hg Hin Hwf.
  - simpl. split; [reflexivity |]. split; [exact Hin |].
    split; [exact Hwf | exact Hg].
  - cbn [frames]. unfold bind.
    destruct (animate_spec pool g Hg) as (Hlen & _ & Hins & Hwfs & Hrng).
    destruct (animate c pool g) as [[pool1 strokes] g1] eqn:Hframe.
    cbn [fst snd] in *.
    assert (unit_draws g1) as Hg1
      by (rewrite Hrng; apply unit_draws_after; exact Hg).
    destruct (IH pool1 g1 Hg1 Hins (Hwfs Hwf)) as (Hlen' & Hrest).
    split; [congruence | exact Hrest].
Qed.

(** X17.  The pool holds 25 streaks from its creation on: creating it
    draws 125 random numbers and puts every streak in the top half of the
    canvas ([0 <= x < width], [0 <= y < height / 2]), and after any
    number of frames there are still 25 streaks, each at a position that
    passes the bounds test and with length in [[50, 150]], speed in
    [[4, 10]] and opacity in [[0.4, 1]]. *)
Theorem pool_of_25_streaks (n : nat) (g : rng) :
  unit_draws g ->
  Datatypes.length (stars c g).1 = 25%nat /\
  (stars c g).2 = after_draws 125 g /\
  Forall (in_top_half c) (stars c g).1 /\
  Datatypes.length (frames n c (stars c g).1 (stars c g).2).1 = 25%nat /\
  Forall (inside c) (frames n c (stars c g).1 (stars c g).2).1 /\
  Forall well_formed (frames n c (stars c g).1 (stars c g).2).1.
Proof.
  intros Hg. unfold stars.
  destruct (make_stars_spec 25 g Hg) as (Hlen & Hrng & Hall).
  assert (Forall (in_top_half c) (make_stars 25 c g).1) as Htop
    by (eapply Forall_impl; [exact Hall | intros s (H & _ & _); exact H]).
  assert (Forall well_formed (make_stars 25 c g).1) as Hwf
    by (eapply Forall_impl; [exact Hall | intros s (_ & _ & H); exact H]).
  assert (Forall (inside c) (make_stars 25 c g).1) as Hin
    by (eapply Forall_impl; [exact Hall | intros s (_ & H & _); exact H]).
  split; [exact Hlen |]. split; [exact Hrng |]. split; [exact Htop |].
  destruct (frames_spec n (make_stars 25 c g).1 (make_stars 25 c g).2)
    as (Hlen' & Hin' & Hwf' & _);
    [rewrite Hrng; apply unit_draws_after; exact Hg | exact Hin | exact Hwf |].
  split; [congruence |]. split; assumption.
Qed.

End ShootingStarsProperties.

Section StreakProgress.
Import Double Star ShootingStars.

Variable c : canvas.

Hypothesis width_positive : 0 < width c < 2 ^ 32.

Lemma updates_step (n : nat) (s : star) (g : rng) :
  updates (S n) c s g = updates n c (update c s g).1 (update c s g).2.
Proof.
  cbn [updates]. unfold bind. destruct (update c s g) as [s' g']. reflexivity.
Qed.

Lemma update_next_mono (s : star) (g : rng) :
  (next g <= next (update c s g).2)%nat.
Proof.
  rewrite update_unfold. destruct (exceeds c s); simpl; lia.
Qed.

Lemma updates_next_mono (n : nat) (s : star) (g : rng) :
  (next g <= next (updates n c s g).2)%nat.
Proof.
  revert s g. induction n as [| n IH]; intros s g; [simpl; lia |].
  rewrite updates_step.
  pose proof (update_next_mono s g).
  pose proof (IH (update c s g).1 (update c s g).2). lia.
Qed.

(** A valid number between two non-negative ones is non-negative, with
    its value between theirs. *)
Lemma between_nonneg lo hi v :
  nonneg lo -> nonneg hi ->
  valid_binary 53 1024 v = true -> between lo hi v ->
  nonneg v /\ scaled lo <= scaled v <= scaled hi.
Proof.
  intros Hlo Hhi Hv [H1 H2].
  assert (nonneg v) as Hnn.
  { destruct v as [sv | sv | | [] m e]; simpl in *.
    - exact I.
    - destruct hi as [| | | [] mh eh]; try contradiction;
        destruct lo as [| | | [] ml el]; try contradiction;
        destruct sv; discriminate.
    - destruct lo as [| | | [] ml el]; try contradiction; discriminate.
    - destruct lo as [| | | [] ml el]; try contradiction; discriminate.
    - exact Hv. }
  split; [exact Hnn |]. split; apply le_scaled; assumption.
Qed.

Lemma update_reset_next (s : star) (g : rng) :
  exceeds c s = true -> next (update c s g).2 = (5 + next g)%nat.
Proof. intros He. rewrite update_unfold, He. reflexivity. Qed.

(** An update that does not reset has added at least 4 to [x] and left
    it within the width. *)
Lemma not_exceeding_grows (X : Z) (s : star) :
  0 <= X ->
  nonneg (x s) ->
  X * 2 ^ 1074 <= scaled (x s) <= width c * 2 ^ 1074 ->
  nonneg (speed s) ->
  4 * 2 ^ 1074 <= scaled (speed s) <= 10 * 2 ^ 1074 ->
  exceeds c s = false ->
  nonneg (x (advanced s)) /\
  (X + 4) * 2 ^ 1074 <= scaled (x (advanced s)) <= width c * 2 ^ 1074.
Proof.
  intros HX Hnx Hx Hns Hs He.
  assert (0 < 2 ^ 1074) as Hp by (apply pow2_gt0; lia).
  assert (2 ^ 32 < 2 ^ 53 - 20) as H32 by reflexivity.
  destruct (of_int_value (X + 4) ltac:(nia)) as [HnX4 HvX4].
  destruct (of_int_value (width c + 10) ltac:(lia)) as [HnW10 HvW10].
  destruct (of_int_value (width c) ltac:(lia)) as [HnW HvW].
  destruct (add_between (x s) (speed s) (of_int (X + 4))
              (of_int (width c + 10)) Hnx Hns HnX4 HnW10 ltac:(lia))
    as [Hnx' Hx'].
  apply orb_false_iff in He as [Hgx _].
  apply gt_false_scaled in Hgx; [| exact Hnx' | exact HnW].
  cbn [advanced x] in *. split; [exact Hnx' | lia].
Qed.

(** While [x] is at least [X], not resetting for [n + 1] updates would
    take it to at least [X + 4 * (n + 1)], which is past the right
    edge. *)
Lemma resets_from (n : nat) :
  forall (X : Z) (s : star) (g : rng),
    0 <= X ->
    nonneg (x s) ->
    X * 2 ^ 1074 <= scaled (x s) <= width c * 2 ^ 1074 ->
    nonneg (speed s) ->
    4 * 2 ^ 1074 <= scaled (speed s) <= 10 * 2 ^ 1074 ->
    width c < X + 4 * (Z.of_nat n + 1) ->
    (next g + 5 <= next (updates (S n) c s g).2)%nat.
Proof.
  assert (0 < 2 ^ 1074) as Hp by (apply pow2_gt0; lia).
  induction n as [| n IH]; intros X s g HX Hnx Hx Hns Hs Hpast;
    rewrite updates_step.
  - destruct (exceeds c s) eqn:He.
    + cbn [updates ret snd]. unfold ret. cbn [snd].
      rewrite update_reset_next by exact He. lia.
    + exfalso.
      destruct (not_exceeding_grows X s HX Hnx Hx Hns Hs He) as [_ Hgrow].
      nia.
  - destruct (exceeds c s) eqn:He.
    + pose proof (updates_next_mono (S n) (update c s g).1 (update c s g).2)
        as Hmono.
      rewrite (update_reset_next s g He) in Hmono. lia.
    + destruct (not_exceeding_grows X s HX Hnx Hx Hns Hs He)
        as [Hnx' Hgrow].
      rewrite update_unfold, He. cbn [fst snd].
      apply (IH (X + 4)); cbn [advanced speed]; try assumption; lia.
Qed.

(** X18.  No streak lingers.  A streak in flight ([x] a number between
    0 and the width, [speed] one between 4 and 10) is reset at least
    once, drawing its five random numbers, within [width / 4 + 1]
    updates: each update that does not reset it has added [speed] to
    [x], and the rounded sum has grown by at least 4. *)
Theorem streak_resets_within (s : star) (g : rng) :
  in_flight c s ->
  (next g + 5
   <= next (updates (S (Z.to_nat (width c / 4))) c s g).2)%nat.
Proof.
  intros (Hvx & Hx & Hvs & Hs).
  assert (2 ^ 32 < 2 ^ 53) as H32 by reflexivity.
  destruct (of_int_value (width c) ltac:(lia)) as [HnW HvW].
  destruct (of_int_value 4 ltac:(lia)) as [Hn4 Hv4].
  destruct (of_int_value 10 ltac:(lia)) as [Hn10 Hv10].
  destruct (between_nonneg (of_int 0) _ _ I HnW Hvx Hx) as [Hnx Hxs].
  destruct (between_nonneg _ _ _ Hn4 Hn10 Hvs Hs) as [Hns Hss].
  change (scaled (of_int 0)) with 0 in Hxs.
  apply (resets_from _ 0); try assumption; try lia.
  rewrite Z2Nat.id by (apply Z.div_pos; lia).
  pose proof (Z.mul_succ_div_gt (width c) 4 ltac:(lia)). lia.
Qed.

End StreakProgress.

Example leaving_streak_is_reset :
  Star.next (Star.update canvas_800_600 leaving always_half).2 = 5%nat.
Proof. vm_compute. reflexivity. Qed.

Example crossing_streak_is_reset_by_71_updates :
  Star.next (ShootingStars.updates 70 canvas_800_600 crossing always_half).2
  = 0%nat /\
  Star.next (ShootingStars.updates 71 canvas_800_600 crossing always_half).2
  = 5%nat.
Proof. split; vm_compute; reflexivity. Qed.

Lemma streak_resets_within_witness :
  0 < Star.width canvas_800_600 < 2 ^ 32 /\
  in_flight canvas_800_600 crossing /\
  (Star.next always_half + 5
   <= Star.next
        (ShootingStars.updates
           (S (Z.to_nat (Star.width canvas_800_600 / 4)))
           canvas_800_600 crossing always_half).2)%nat.
Proof.
  split; [split; reflexivity |].
  assert (in_flight canvas_800_600 crossing) as Hflight
    by (repeat split).
  split; [exact Hflight |].
  apply (streak_resets_within canvas_800_600 (conj eq_refl eq_refl)
           crossing always_half Hflight).
Defined.



Lemma pool_of_25_streaks_witness :
  0 < Star.width canvas_800_600 < 2 ^ 53 /\
  0 < Star.height canvas_800_600 < 2 ^ 53 /\
  unit_draws always_half /\
  length (ShootingStars.frames 3 canvas_800_600
            (ShootingStars.stars canvas_800_600 always_half).1
            (ShootingStars.stars canvas_800_600 always_half).2).1
  = 25%nat.
Proof.
  split; [split; reflexivity |]. split; [split; reflexivity |].
  split; [exact always_half_unit |].
  apply (pool_of_25_streaks canvas_800_600
           (conj eq_refl eq_refl) (conj eq_refl eq_refl)
           3 always_half always_half_unit).
Defined.

(** ** Floating stars and hearts *)

Section FloatingProperties.
Import Double Star Floating.

#[local] Arguments of_int : simpl never.
#[local] Arguments literal : simpl never.
#[local] Arguments add : simpl never.
#[local] Arguments sub : simpl never.
#[local] Arguments mul : simpl never.
#[local] Arguments neg : simpl never.

Lemma below_draw r W :
  unit_interval r -> 0 < W < 2 ^ 53 -> below (of_int W) (mul r (of_int W)).
Proof.
  intros Hr HW. destruct (draw_times_below r W Hr HW) as (_ & _ & H0 & H1).
  split; assumption.
Qed.

(** One star: eight draws, in the order left, top, width, height,
    duration, sideways drift, rise, delay. *)
Lemma star_particle_spec (g : rng) :
  unit_draws g ->
  (star_particle g).2 = after_draws 8 g /\
  className (star_particle g).1 = "star"%string /\
  floating_in_range 2 4 9000 8000 200 (star_particle g).1.
Proof.
  intros Hg. split; [reflexivity |]. split; [reflexivity |].
  pose proof (Hg (next g)) as H0.
  pose proof (Hg (S (next g))) as H1.
  pose proof (Hg (S (S (next g)))) as H2.
  pose proof (Hg (S (S (S (next g))))) as H3.
  pose proof (Hg (S (S (S (S (next g)))))) as H4.
  pose proof (Hg (S (S (S (S (S (next g))))))) as H5.
  pose proof (Hg (S (S (S (S (S (S (next g)))))))) as H6.
  pose proof (Hg (S (S (S (S (S (S (S (next g))))))))) as H7.
  unfold floating_in_range. simpl. split.
  - do 4 eexists. do 4 (split; [reflexivity |]).
    split; [apply below_draw; [assumption | lia] |].
    split; [apply below_draw; [assumption | lia] |].
    split; [apply (affine_range _ 4 2 H2); lia |].
    apply (affine_range _ 4 2 H3); lia.
  - split; [apply (affine_range _ 8000 9000 H4); lia |].
    split; [apply drift_range; assumption |].
    split; [apply (rise_range _ 200 H6); lia |].
    split; [apply below_draw; [assumption | lia] | reflexivity].
Qed.

Lemma heart_particle_spec (g : rng) :
  unit_draws g ->
  (heart_particle g).2 = after_draws 8 g /\
  className (heart_particle g).1 = "heart"%string /\
  floating_in_range 12 10 11000 9000 300 (heart_particle g).1.
Proof.
  intros Hg. split; [reflexivity |]. split; [reflexivity |].
  pose proof (Hg (next g)) as H0.
  pose proof (Hg (S (next g))) as H1.
  pose proof (Hg (S (S (next g)))) as H2.
  pose proof (Hg (S (S (S (next g))))) as H3.
  pose proof (Hg (S (S (S (S (next g)))))) as H4.
  pose proof (Hg (S (S (S (S (S (next g))))))) as H5.
  pose proof (Hg (S (S (S (S (S (S (next g)))))))) as H6.
  pose proof (Hg (S (S (S (S (S (S (S (next g))))))))) as H7.
  unfold floating_in_range. simpl. split.
  - do 4 eexists. do 4 (split; [reflexivity |]).
    split; [apply below_draw; [assumption | lia] |].
    split; [apply below_draw; [assumption | lia] |].
    split; [apply (affine_range _ 10 12 H2); lia |].
    apply (affine_range _ 10 12 H3); lia.
  - split; [apply (affine_range _ 9000 11000 H4); lia |].
    split; [apply drift_range; assumption |].
    split; [apply (rise_range _ 300 H6); lia |].
    split; [apply below_draw; [assumption | lia] | reflexivity].
Qed.

Lemma spawn_succ (n : nat) (make : M particle) (g : rng) :
  spawn (S n) make g
  = ((make g).1 :: (spawn n make (make g).2).1, (spawn n make (make g).2).2).
Proof.
  cbn [spawn]. unfold bind, ret. destruct (make g) as [p g1]. cbn [fst snd].
  destruct (spawn n make g1) as [rest g2]. reflexivity.
Qed.

(** A loop of [n] rounds whose body draws eight numbers. *)
Lemma spawn_spec (make : M particle) (P : particle -> Prop) :
  (forall g, unit_draws g -> (make g).2 = after_draws 8 g /\ P (make g).1) ->
  forall n g,
    unit_draws g ->
    Datatypes.length (spawn n make g).1 = n /\
    (spawn n make g).2 = after_draws (8 * n) g /\
    Forall P (spawn n make g).1.
Proof.
  intros Hmake. induction n as [| n IH]; intros g Hg.
  - simpl. split; [reflexivity |]. split; [destruct g; reflexivity |].
    constructor.
  - rewrite spawn_succ. destruct (Hmake g Hg) as [Hrng HP]. rewrite Hrng.
    assert (unit_draws (after_draws 8 g)) as Hg8
      by (intros k; apply Hg).
    destruct (IH (after_draws 8 g) Hg8) as (Hlen & Hrng' & Hall).
    cbn [fst snd Datatypes.length]. split; [rewrite Hlen; reflexivity |].
    split.
    + rewrite Hrng'. unfold after_draws. simpl. f_equal. lia.
    + constructor; assumption.
Qed.

Lemma spawnFloating_unfold (stars hearts : option nat) (g : rng) :
  spawnFloating stars hearts g
  = ((spawn (default 50%nat stars) star_particle g).1
     ++ (spawn (default 20%nat hearts) heart_particle
           (spawn (default 50%nat stars) star_particle g).2).1,
     (spawn (default 20%nat hearts) heart_particle
        (spawn (default 50%nat stars) star_particle g).2).2).
Proof.
  unfold spawnFloating, bind, ret.
  destruct (spawn (default 50%nat stars) star_particle g) as [ss g1].
  cbn [fst snd].
  destruct (spawn (default 20%nat hearts) heart_particle g1) as [hs g2].
  reflexivity.
Qed.

(** X19.  [spawnFloating(stars, hearts)] appends [stars] elements of
    class [star] followed by [hearts] elements of class [heart] (50 and 20
    when an argument is missing) and draws eight random numbers for each.
    With [Math.random] in [[0, 1)], every star is placed inside the
    viewport ([left] and [top] at least 0 and below 100) with sides in
    [[2, 6]] pixels, a duration in [[9000, 17000]] and a rise of 200 to
    600 pixels; every heart has sides in [[12, 22]], a duration in
    [[11000, 20000]] and a rise of 300 to 700; all drift at most 50
    pixels sideways, start less than two seconds late and repeat
    forever.  The closed ranges include their upper ends, which a draw
    close to 1 reaches by rounding; position and delay stay strictly
    below theirs.  Width and height are separate draws, so an element
    need not be square. *)
Theorem spawnFloating_children (stars hearts : option nat) (g : rng) :
  unit_draws g ->
  Datatypes.length (spawnFloating stars hearts g).1
  = (default 50%nat stars + default 20%nat hearts)%nat /\
  (spawnFloating stars hearts g).2
  = after_draws (8 * (default 50 stars + default 20 hearts))%nat g /\
  Forall (fun p => className p = "star"%string /\
                   floating_in_range 2 4 9000 8000 200 p)
    (take (default 50%nat stars) (spawnFloating stars hearts g).1) /\
  Forall (fun p => className p = "heart"%string /\
                   floating_in_range 12 10 11000 9000 300 p)
    (drop (default 50%nat stars) (spawnFloating stars hearts g).1).
Proof.
  intros Hg. rewrite spawnFloating_unfold. cbn [fst snd].
  destruct (spawn_spec star_particle
              (fun p => className p = "star"%string /\
                        floating_in_range 2 4 9000 8000 200 p)
              (fun g0 Hg0 =>
                 conj (proj1 (star_particle_spec g0 Hg0))
                      (proj2 (star_particle_spec g0 Hg0)))
              (default 50%nat stars) g Hg) as (Hls & Hrs & Hstars).
  destruct (spawn_spec heart_particle
              (fun p => className p = "heart"%string /\
                        floating_in_range 12 10 11000 9000 300 p)
              (fun g0 Hg0 =>
                 conj (proj1 (heart_particle_spec g0 Hg0))
                      (proj2 (heart_particle_spec g0 Hg0)))
              (default 20%nat hearts)
              (spawn (default 50%nat stars) star_particle g).2)
    as (Hlh & Hrh & Hhearts);
    [rewrite Hrs; intros k; apply Hg |].
  split; [rewrite length_app, Hls, Hlh; reflexivity |].
  split.
  { rewrite Hrh, Hrs. unfold after_draws. simpl. f_equal. lia. }
  split.
  - rewrite take_app_length' by (symmetry; exact Hls). exact Hstars.
  - rewrite drop_app_length' by (symmetry; exact Hls). exact Hhearts.
Qed.

End FloatingProperties.

Example the_page_spawns_60 :
  length (Floating.spawnFloating (Some 40%nat) (Some 20%nat) always_half).1
  = 60%nat /\
  Star.next (Floating.spawnFloating (Some 40%nat) (Some 20%nat) always_half).2
  = 480%nat.
Proof. split; vm_compute; reflexivity. Qed.

Example a_star_at_half :
  Floating.style_of "width" (Floating.star_particle always_half).1
  = Some (Floating.Px (Double.of_int 4)) /\
  Floating.dy (Floating.motion (Floating.star_particle always_half).1)
  = Double.of_int (-400) /\
  Floating.style_of "transform" (Floating.star_particle always_half).1
  = None /\
  Floating.style_of "transform" (Floating.heart_particle always_half).1
  = Some (Floating.Keyword "rotate(45deg)").
Proof. repeat split. Qed.

(** The largest draw reaches the upper end of the sides of a star and
    of a heart. *)
Example largest_draw_sides :
  Double.add (Double.of_int 2)
    (Double.mul (S754_finite false 9007199254740991 (-53)) (Double.of_int 4))
  = Double.of_int 6 /\
  Double.add (Double.of_int 12)
    (Double.mul (S754_finite false 9007199254740991 (-53)) (Double.of_int 10))
  = Double.of_int 22.
Proof. repeat split. Qed.

Lemma spawnFloating_children_witness :
  unit_draws always_half /\
  length (Floating.spawnFloating None (Some 3%nat) always_half).1
  = (50 + 3)%nat.
Proof.
  split; [exact always_half_unit |].
  apply (spawnFloating_children None (Some 3%nat) always_half
           always_half_unit).
Defined.
